(** * simpleBoard: the request queue of [src/lib/supabase.ts]

    A shallow embedding of [RequestQueueManager] (the bounded request
    scheduler that every mutating backend call goes through), of
    [getStatus], and of the like operations [checkIfLiked] and
    [_internalLikeContentItem], together with the properties the
    specification states about them.

    JavaScript runs the manager on a single-threaded event loop: every
    synchronous section runs to completion, and the environment chooses
    what happens next (a call of [enqueue], an armed timer firing, the
    promise of a running operation settling).  The model is therefore a
    labelled transition system whose labels are these environment events
    and whose steps are the synchronous sections of the source. *)

From stdpp Require Import base numbers option list sorting gmap strings.

Open Scope Z_scope.

(** ** The array primitives the source uses *)

Module JsArray.
Section ops.
Context {A : Type}.

(** [Array.prototype.findIndex]: the index of the first element that
    satisfies the predicate, [-1] when there is none. *)
Definition findIndex (p : A → bool) (l : list A) : Z :=
  match list_find (λ x, Is_true (p x)) l with
  | Some (i, _) => Z.of_nat i
  | None => -1
  end.

(** [arr.shift()]: the removed first element ([undefined] on an empty
    array, here [None]) and the remaining array. *)
Definition shift (l : list A) : option A * list A := (head l, tail l).

(** [arr.push(x)]. *)
Definition push (x : A) (l : list A) : list A := l ++ [x].

(** [arr.splice(i, 0, x)] for [0 ≤ i ≤ length]. *)
Definition splice_insert (i : nat) (x : A) (l : list A) : list A :=
  take i l ++ x :: drop i l.

(** [arr.splice(i, 1)]: the removed elements and the remaining array. *)
Definition splice_remove (i : nat) (l : list A) : list A * list A :=
  (take 1 (drop i l), delete i l).
End ops.
End JsArray.
Import JsArray.

(** ** Data model *)

(** [QueuedRequest['type']]. *)
Inductive RequestType :=
  like | unlike | content_update | category_update | board_update.

Definition type_name (t : RequestType) : string :=
  match t with
  | like => "like"
  | unlike => "unlike"
  | content_update => "content_update"
  | category_update => "category_update"
  | board_update => "board_update"
  end.

(** The three readonly fields of [RequestQueueManager]. *)
Record Config := {
  MAX_CONCURRENT : Z;
  MAX_QUEUE_SIZE : Z;
  REQUEST_TIMEOUT : Z
}.

(** The values the source gives them. *)
Definition source_config : Config :=
  {| MAX_CONCURRENT := 3; MAX_QUEUE_SIZE := 1000; REQUEST_TIMEOUT := 30000 |}.

Section Scheduler.
  (** [V]: what operations resolve with; [X]: what they throw or reject
      with.  ([QueuedRequest] holds them at type [any].) *)
Context {V X : Type}.

(** An operation is an opaque thunk [() => Promise<any>].  When the
    manager calls it, it either returns a promise that the environment
    settles later, or throws before returning. *)
Inductive Operation := OpAsync | OpThrows (x : X).

(** Why a promise returned by [enqueue] was rejected:
    [new Error('Queue overflow - request dropped')],
    [new Error('Request timeout')], or whatever the operation failed
    with. *)
Inductive Rejection := QueueOverflow | RequestTimeout | OperationError (x : X).

(** One call of a promise's [resolve] or [reject]. *)
Inductive Settlement := Resolved (v : V) | Rejected (r : Rejection).

(** [interface QueuedRequest].  The fields [resolve] and [reject] are the
    two settling functions of one promise, the one [enqueue] returned;
    [promise] names it.  [timeout] is the handle [window.setTimeout]
    returned. *)
Record QueuedRequest := {
  id : string;
  timestamp : Z;
  type : RequestType;
  operation : Operation;
  promise : nat;
  timeout : nat
}.

(** What an armed timer will run: the arrow function of [enqueue]
    (lines 47-50), which closes over [requestId] and [reject], or
    [() => this.processQueue()] (line 105). *)
Inductive Callback := TimeoutCb (requestId : string) (reject : nat) | ProcessCb.

Record Timer := { armed_at : Z; delay : Z; callback : Callback }.

(** The manager ([queue], [processing]), the browser's timer table and
    clock, the suspended activations of [processQueue] (one per operation
    awaited), and two logs of what the manager did: the operations it
    called, and the settling calls it made, both in order. *)
Record World := {
  queue : list QueuedRequest;
  processing : Z;
  timers : gmap nat Timer;
  nextHandle : nat;
  now : Z;
  nextPromise : nat;
  running : list QueuedRequest;
  started : list QueuedRequest;
  settled : list (nat * Settlement)
}.

(** A fresh manager in a fresh page; timer handles are positive. *)
Definition init_world : World :=
  {| queue := []; processing := 0; timers := ∅; nextHandle := 1; now := 0;
     nextPromise := 0; running := []; started := []; settled := [] |}.

Definition set_queue (q : list QueuedRequest) (w : World) : World :=
  {| queue := q; processing := processing w; timers := timers w;
     nextHandle := nextHandle w; now := now w; nextPromise := nextPromise w;
     running := running w; started := started w; settled := settled w |}.

Definition set_processing (n : Z) (w : World) : World :=
  {| queue := queue w; processing := n; timers := timers w;
     nextHandle := nextHandle w; now := now w; nextPromise := nextPromise w;
     running := running w; started := started w; settled := settled w |}.

Definition set_timers (t : gmap nat Timer) (w : World) : World :=
  {| queue := queue w; processing := processing w; timers := t;
     nextHandle := nextHandle w; now := now w; nextPromise := nextPromise w;
     running := running w; started := started w; settled := settled w |}.

Definition set_running (l : list QueuedRequest) (w : World) : World :=
  {| queue := queue w; processing := processing w; timers := timers w;
     nextHandle := nextHandle w; now := now w; nextPromise := nextPromise w;
     running := l; started := started w; settled := settled w |}.

Definition set_started (l : list QueuedRequest) (w : World) : World :=
  {| queue := queue w; processing := processing w; timers := timers w;
     nextHandle := nextHandle w; now := now w; nextPromise := nextPromise w;
     running := running w; started := l; settled := settled w |}.

(** ** Browser primitives *)

(** [setTimeout(cb, d)]: a fresh positive handle. *)
Definition setTimeout (cb : Callback) (d : Z) (w : World) : nat * World :=
  (nextHandle w,
   {| queue := queue w; processing := processing w;
      timers := <[nextHandle w := {| armed_at := now w; delay := d; callback := cb |}]> (timers w);
      nextHandle := S (nextHandle w); now := now w; nextPromise := nextPromise w;
      running := running w; started := started w; settled := settled w |}).

(** [clearTimeout(h)]: nothing happens when [h] is not armed. *)
Definition clearTimeout (h : nat) (w : World) : World :=
  set_timers (delete h (timers w)) w.

(** [if (request.timeout) window.clearTimeout(request.timeout)]: a handle
    is truthy unless it is [0]. *)
Definition clear_if_set (h : nat) (w : World) : World :=
  if bool_decide (h = 0%nat) then w else clearTimeout h w.

(** [new Promise(executor)]: the next promise. *)
Definition new_promise (w : World) : nat * World :=
  (nextPromise w,
   {| queue := queue w; processing := processing w; timers := timers w;
      nextHandle := nextHandle w; now := now w; nextPromise := S (nextPromise w);
      running := running w; started := started w; settled := settled w |}).

(** A call of [resolve] or [reject] of promise [p]. *)
Definition settle (p : nat) (s : Settlement) (w : World) : World :=
  {| queue := queue w; processing := processing w; timers := timers w;
     nextHandle := nextHandle w; now := now w; nextPromise := nextPromise w;
     running := running w; started := started w;
     settled := settled w ++ [(p, s)] |}.

(** A timer is due once its delay has passed (a negative delay counts
    as none). *)
Definition due (t : Timer) : Z := armed_at t + Z.max 0 (delay t).

(** ** [RequestQueueManager] *)

Section manager.
Variable cfg : Config.

(** Lines 102-106, the [finally] block of [processQueue]. *)
Definition finally_block (w : World) : World :=
  (setTimeout ProcessCb 0 (set_processing (processing w - 1) w)).2.

(** [processQueue], lines 84-107, up to the point where it is
    suspended at [await] (or to its end, when the operation throws). *)
Definition processQueue (w : World) : World :=
  if bool_decide (MAX_CONCURRENT cfg ≤ processing w) || bool_decide (length (queue w) = 0%nat)
  then w
  else
    match shift (queue w) with
    | (None, _) => w
    | (Some request, rest) =>
        let w := set_queue rest w in
        let w := set_processing (processing w + 1) w in
        let w := clear_if_set (timeout request) w in
        let w := set_started (started w ++ [request]) w in
        match operation request with
        | OpAsync => set_running (running w ++ [request]) w
        | OpThrows x =>
            finally_block (settle (promise request) (Rejected (OperationError x)) w)
        end
    end.

(** [processQueue] resumed after [await]: the operation of the
    suspended activation [request] produced [out]. *)
Definition resume (request : QueuedRequest) (out : V + X) (w : World) : World :=
  let w := match out with
           | inl result => settle (promise request) (Resolved result) w
           | inr error => settle (promise request) (Rejected (OperationError error)) w
           end in
  finally_block w.

(** [removeFromQueue], lines 75-81. *)
Definition removeFromQueue (requestId : string) (w : World) : World :=
  let index := findIndex (λ req, bool_decide (id req = requestId)) (queue w) in
  if bool_decide (index ≠ -1) then
    match splice_remove (Z.to_nat index) (queue w) with
    | ([removed], rest) => clear_if_set (timeout removed) (set_queue rest w)
    | (_, rest) => set_queue rest w
    end
  else w.

(** Lines 35-41 of [enqueue]: the overflow policy. *)
Definition evict (w : World) : World :=
  if bool_decide (MAX_QUEUE_SIZE cfg ≤ Z.of_nat (length (queue w))) then
    match shift (queue w) with
    | (Some removed, rest) =>
        let w := set_queue rest w in
        let w := clear_if_set (timeout removed) w in
        settle (promise removed) (Rejected QueueOverflow) w
    | (None, rest) => set_queue rest w
    end
  else w.

(** Lines 63-68 of [enqueue]: insertion by timestamp. *)
Definition insert_by_timestamp (r : QueuedRequest) (q : list QueuedRequest)
  : list QueuedRequest :=
  let insertIndex := findIndex (λ req, bool_decide (timestamp r < timestamp req)) q in
  if bool_decide (insertIndex = -1) then push r q
  else splice_insert (Z.to_nat insertIndex) r q.

(** [`${type}_${Date.now()}_${Math.random().toString(36).substr(2, 9)}`];
    [suffix] is the text the environment produced for the two
    interpolations after the type. *)
Definition make_id (ty : RequestType) (suffix : string) : string :=
  type_name ty +:+ "_" +:+ suffix.

(** The request [enqueue] builds (lines 43-60) in world [w]. *)
Definition new_request (ty : RequestType) (op : Operation) (suffix : string)
    (dateNow : Z) (w : World) : QueuedRequest :=
  {| id := make_id ty suffix; timestamp := dateNow; type := ty; operation := op;
     promise := nextPromise w; timeout := nextHandle w |}.

(** Lines 33-68 of [enqueue]: everything before the call of
    [processQueue]. *)
Definition submit (ty : RequestType) (op : Operation) (suffix : string)
    (dateNow : Z) (w : World) : World :=
  let w := evict w in
  let r := new_request ty op suffix dateNow w in
  let w := (new_promise w).2 in
  let w := (setTimeout (TimeoutCb (id r) (promise r)) (REQUEST_TIMEOUT cfg) w).2 in
  set_queue (insert_by_timestamp r (queue w)) w.

(** [enqueue], lines 29-72.  The promise it returns is
    [nextPromise w]. *)
Definition enqueue (ty : RequestType) (op : Operation) (suffix : string)
    (dateNow : Z) (w : World) : World :=
  processQueue (submit ty op suffix dateNow w).

(** The timeout callback, lines 47-50. *)
Definition on_timeout (requestId : string) (reject : nat) (w : World) : World :=
  settle reject (Rejected RequestTimeout) (removeFromQueue requestId w).

(** ** The event loop *)

Inductive Event :=
  | Enqueue (ty : RequestType) (op : Operation) (suffix : string) (dateNow : Z)
  | OperationSettles (p : nat) (out : V + X)
  | TimerFires (h : nat)
  | TimePasses (d : Z).

Definition run_callback (cb : Callback) (w : World) : World :=
  match cb with
  | TimeoutCb requestId reject => on_timeout requestId reject w
  | ProcessCb => processQueue w
  end.

(** One turn of the event loop.  [None]: the event cannot happen in
    [w] (no such running operation, no such armed timer or one not yet
    due, time running backwards). *)
Definition step (e : Event) (w : World) : option World :=
  match e with
  | Enqueue ty op suffix dateNow => Some (enqueue ty op suffix dateNow w)
  | OperationSettles p out =>
      match list_find (λ r, promise r = p) (running w) with
      | Some (i, request) => Some (resume request out (set_running (delete i (running w)) w))
      | None => None
      end
  | TimerFires h =>
      match timers w !! h with
      | Some t =>
          if bool_decide (due t ≤ now w)
          then Some (run_callback (callback t) (clearTimeout h w))
          else None
      | None => None
      end
  | TimePasses d =>
      if bool_decide (0 ≤ d) then
        Some {| queue := queue w; processing := processing w; timers := timers w;
                nextHandle := nextHandle w; now := now w + d;
                nextPromise := nextPromise w; running := running w;
                started := started w; settled := settled w |}
      else None
  end.

Fixpoint run (evs : list Event) (w : World) : option World :=
  match evs with
  | [] => Some w
  | e :: evs => w' ← step e w; run evs w'
  end.

(** [getStatus], lines 110-117: the object it returns, and the world it
    leaves. *)
Definition getStatus (w : World) : gmap string Z * World :=
  ({[ "queueSize" := Z.of_nat (length (queue w));
      "processing" := processing w;
      "maxConcurrent" := MAX_CONCURRENT cfg;
      "maxQueueSize" := MAX_QUEUE_SIZE cfg ]}, w).
End manager.
End Scheduler.

Arguments Operation : clear implicits.
Arguments Rejection : clear implicits.
Arguments Settlement : clear implicits.
Arguments QueuedRequest : clear implicits.
Arguments World : clear implicits.
Arguments Event : clear implicits.


(** ** The like operations *)

(** [str.includes(needle)]. *)
Fixpoint includes (needle str : string) : bool :=
  String.prefix needle str ||
  match str with
  | EmptyString => false
  | String _ rest => includes needle rest
  end.

Module Likes.

(** The error object of a backend answer ([message] may be missing:
    the source reads it with [?.]). *)
Record PostgrestError := { code : string; message : option string }.

(** What an [await] of a backend call can throw, or a rejected answer
    rethrown ([throw error], [throw fetchError]). *)
Inductive Thrown := Exception (what : string) | Failed (e : PostgrestError).

(** An awaited backend call returns its answer or throws. *)
Inductive Awaited (A : Type) := Returned (a : A) | Threw (x : Thrown).
Arguments Returned {A} a.
Arguments Threw {A} x.

(** A row of [content_items_with_likes]. *)
Record ContentItemWithLikes := { item_id : string; like_count : Z }.

(** [{ data, error, count }] of the [user_likes] query. *)
Record LikesAnswer := {
  data : option (list string);
  error : option PostgrestError;
  count : option Z
}.

(** [{ data, error }] of [supabase.rpc('add_like', ...)]. *)
Record RpcAnswer := { rpc_error : option PostgrestError }.

(** [{ data: updatedItem, error: fetchError }] of the [.single()] query. *)
Record ItemAnswer := {
  updatedItem : option ContentItemWithLikes;
  fetchError : option PostgrestError
}.

(** One exchange with the backend, or a pause. *)
Inductive Interaction :=
| SelectLikes (contentItemId userIdentifier : string) (answer : Awaited LikesAnswer)
| AddLike (contentItemId userIdentifier : string) (answer : Awaited RpcAnswer)
| SelectItem (contentItemId : string) (answer : Awaited ItemAnswer)
| Sleep (ms : Z).

(** The backend is outside the repository: what it answers is any
    function of the exchanges so far. *)
Record Backend := {
  select_user_likes : list Interaction → string → string → Awaited LikesAnswer;
  rpc_add_like : list Interaction → string → string → Awaited RpcAnswer;
  select_item : list Interaction → string → Awaited ItemAnswer
}.

(** How an [async] function ends. *)
Inductive Completion (A : Type) := Return (a : A) | Throw (x : Thrown).
Arguments Return {A} a.
Arguments Throw {A} x.

(** An [async] function of the module: it talks to the backend, extends
    the record of exchanges, and returns or throws. *)
Definition Async (A : Type) : Type :=
  Backend → list Interaction → Completion A * list Interaction.

Definition ret {A} (a : A) : Async A := λ _ tr, (Return a, tr).
Definition throw {A} (x : Thrown) : Async A := λ _ tr, (Throw x, tr).
Definition bind {A B} (m : Async A) (k : A → Async B) : Async B :=
  λ be tr, match m be tr with
           | (Return a, tr') => k a be tr'
           | (Throw x, tr') => (Throw x, tr')
           end.
Definition try_catch {A} (body : Async A) (handler : Thrown → Async A) : Async A :=
  λ be tr, match body be tr with
           | (Return a, tr') => (Return a, tr')
           | (Throw x, tr') => handler x be tr'
           end.

#[export] Instance async_bind : MBind Async := λ A B k m, bind m k.
#[export] Instance async_ret : MRet Async := λ A a, ret a.

(** An awaited call: the answer is recorded; a thrown value propagates. *)
Definition await {A} (ask : Backend → list Interaction → Awaited A)
    (record : Awaited A → Interaction) : Async A :=
  λ be tr, let answer := ask be tr in
           match answer with
           | Returned a => (Return a, tr ++ [record answer])
           | Threw x => (Throw x, tr ++ [record answer])
           end.

Definition query_user_likes (contentItemId userIdentifier : string) : Async LikesAnswer :=
  await (λ be tr, select_user_likes be tr contentItemId userIdentifier)
        (SelectLikes contentItemId userIdentifier).

Definition call_add_like (contentItemId userIdentifier : string) : Async RpcAnswer :=
  await (λ be tr, rpc_add_like be tr contentItemId userIdentifier)
        (AddLike contentItemId userIdentifier).

Definition query_item (contentItemId : string) : Async ItemAnswer :=
  await (λ be tr, select_item be tr contentItemId) (SelectItem contentItemId).

Definition sleep (ms : Z) : Async unit := λ _ tr, (Return (), tr ++ [Sleep ms]).

(** [count ?? data?.length ?? 0]. *)
Definition reported_count (a : LikesAnswer) : Z :=
  match count a with
  | Some n => n
  | None => match data a with
            | Some rows => Z.of_nat (length rows)
            | None => 0
            end
  end.

(** [checkIfLiked], lines 392-419. *)
Definition checkIfLiked (contentItemId userIdentifier : string) : Async bool :=
  try_catch
    (a ← query_user_likes contentItemId userIdentifier;
     match error a with
     | Some _ => ret false
     | None => ret (bool_decide (0 < reported_count a))
     end)
    (λ _, ret false).

(** [error.code === '23505' || error.message?.includes('duplicate')]. *)
Definition is_duplicate (e : PostgrestError) : bool :=
  bool_decide (code e = "23505") ||
  match message e with
  | Some m => includes "duplicate" m
  | None => false
  end.

(** What [_internalLikeContentItem] resolves with: [null], an updated
    row, or [undefined] (the end of the function body). *)
Inductive LikeResult := Null | Undefined | Item (row : option ContentItemWithLikes).

Definition maxRetries : Z := 3.

(** The [try] block of the loop, lines 198-229. *)
Definition attempt (contentItemId userIdentifier : string) : Async LikeResult :=
  doubleCheck ← checkIfLiked contentItemId userIdentifier;
  if doubleCheck : bool then ret Null
  else
    a ← call_add_like contentItemId userIdentifier;
    match rpc_error a with
    | Some error => if is_duplicate error then ret Null else throw (Failed error)
    | None =>
        i ← query_item contentItemId;
        match fetchError i with
        | Some fetchError => throw (Failed fetchError)
        | None => ret (Item (updatedItem i))
        end
    end.

(** The [while (retryCount < maxRetries)] loop, lines 197-238, by
    recursion on the number of rounds left, [maxRetries - retryCount]. *)
Fixpoint retry_loop (rounds : nat) (retryCount : Z)
    (contentItemId userIdentifier : string) : Async LikeResult :=
  match rounds with
  | O => ret Undefined
  | S rounds =>
      try_catch (attempt contentItemId userIdentifier)
        (λ error,
           let retryCount := retryCount + 1 in
           if bool_decide (maxRetries ≤ retryCount) then throw error
           else (sleep (100 + retryCount * 50) ;;
                 retry_loop rounds retryCount contentItemId userIdentifier))
  end.

(** [_internalLikeContentItem], lines 185-242. *)
Definition _internalLikeContentItem (contentItemId userIdentifier : string)
  : Async LikeResult :=
  try_catch
    (alreadyLiked ← checkIfLiked contentItemId userIdentifier;
     if alreadyLiked : bool then ret Null
     else retry_loop (Z.to_nat maxRetries) 0 contentItemId userIdentifier)
    (λ error, throw error).

(** The likes this call added: the [add_like] calls answered without an
    error. *)
Definition inserts_like (i : Interaction) : bool :=
  match i with
  | AddLike _ _ (Returned a) =>
      match rpc_error a with None => true | Some _ => false end
  | _ => false
  end.

Definition likes_inserted (tr : list Interaction) : nat :=
  length (filter (λ i, Is_true (inserts_like i)) tr).

(** A read of [user_likes] that reported the item liked. *)
Definition reports_liked (i : Interaction) : Prop :=
  match i with
  | SelectLikes _ _ (Returned a) => error a = None ∧ 0 < reported_count a
  | _ => False
  end.

(** An [add_like] call that failed on the duplicate key. *)
Definition duplicate_failure (i : Interaction) : Prop :=
  match i with
  | AddLike _ _ (Returned a) =>
      match rpc_error a with Some e => is_duplicate e | None => False end
  | _ => False
  end.

(** An exchange that neither reports the item liked nor fails on the
    duplicate key. *)
Definition unremarkable (i : Interaction) : Prop :=
  ¬ reports_liked i ∧ ¬ duplicate_failure i.

(** What the queue manager is told when the operation it awaits ends:
    [likeContentItem] enqueues [() => _internalLikeContentItem(...)]
    (line 246). *)
Definition outcome {A} (c : Completion A) : A + Thrown :=
  match c with
  | Return a => inl a
  | Throw x => inr x
  end.

End Likes.

(** ** What holds of every world the manager can reach *)

Section invariants.
Context {V X : Type}.
Abbreviation QueuedRequest := (QueuedRequest X).
Abbreviation World := (World V X).
Abbreviation Event := (Event V X).
Implicit Types (w : World) (r : QueuedRequest) (s : Settlement V X).

(** The order of the pending list. *)
Definition ts_le (a b : QueuedRequest) : Prop := timestamp a ≤ timestamp b.

(** A settlement that reports what the operation did, as opposed to one
    the manager produced without running it. *)
Definition from_operation s : Prop :=
  match s with
  | Resolved _ | Rejected (OperationError _) => True
  | Rejected QueueOverflow | Rejected RequestTimeout => False
  end.

(** How often a [resolve] or [reject] of promise [p] was called. *)
Definition settle_count (p : nat) w : nat :=
  length (filter (λ ps, ps.1 = p) (settled w)).

(** [r] waits in the queue with its timeout armed. *)
Definition awaiting (cfg : Config) r w : Prop :=
  r ∈ queue w ∧
  ∃ t, timers w !! timeout r = Some t ∧
       callback t = TimeoutCb (id r) (promise r) ∧
       delay t = REQUEST_TIMEOUT cfg.

(** Nothing is left to happen: no timer armed, no operation running. *)
Definition quiescent w : Prop := timers w = ∅ ∧ running w = [].

(** The request ids the [enqueue] calls of a trace generate. *)
Definition enqueue_ids (evs : list Event) : list string :=
  omap (λ e, match e with
             | Enqueue ty _ suffix _ => Some (make_id ty suffix)
             | _ => None
             end) evs.

(** The clock readings of the [enqueue] calls of a trace. *)
Definition enqueue_timestamps (evs : list Event) : list Z :=
  omap (λ e, match e with
             | Enqueue _ _ _ dateNow => Some dateNow
             | _ => None
             end) evs.

(** Counter and order of the manager's own two fields. *)
Record basic_inv w : Prop := {
  bi_processing : processing w = Z.of_nat (length (running w));
  bi_sorted : StronglySorted ts_le (queue w)
}.

(** The two ceilings. *)
Definition within_concurrency (cfg : Config) w : Prop :=
  processing w ≤ MAX_CONCURRENT cfg.


(** The armed timeouts are those of the pending requests, one each.
    [used] lists the request ids generated so far. *)
Record timer_inv (cfg : Config) (used : list string) w : Prop := {
  ti_armed : ∀ r, r ∈ queue w → awaiting cfg r w;
  ti_timers : ∀ h t requestId p,
    timers w !! h = Some t → callback t = TimeoutCb requestId p →
    ∃ r, r ∈ queue w ∧ timeout r = h ∧ id r = requestId ∧ promise r = p;
  ti_handles : ∀ h, is_Some (timers w !! h) → (0 < h < nextHandle w)%nat;
  ti_next_handle : (0 < nextHandle w)%nat;
  ti_timeouts : NoDup (timeout <$> queue w);
  ti_ids : NoDup (id <$> queue w);
  ti_used : ∀ r, r ∈ queue w → id r ∈ used
}.

(** Every promise handed out is in exactly one place (pending, running,
    settled), and the two logs agree with that. *)
Record log_inv w : Prop := {
  li_promises :
    (promise <$> queue w) ++ (promise <$> running w) ++ (settled w).*1
      ≡ₚ seq 0 (nextPromise w);
  li_pending : ∀ r, r ∈ queue w → promise r ∉ promise <$> started w;
  li_running : ∀ r, r ∈ running w → r ∈ started w;
  li_outcome : ∀ p s,
    (p, s) ∈ settled w → from_operation s ↔ p ∈ promise <$> started w;
  li_started : ∀ r, r ∈ started w → (promise r < nextPromise w)%nat;
  li_started_nodup : NoDup (promise <$> started w)
}.

Record inv (cfg : Config) (used : list string) w : Prop := {
  inv_timer : timer_inv cfg used w;
  inv_log : log_inv w
}.

(** Submission order and timestamp order together. *)
Definition fifo_le (a b : QueuedRequest) : Prop :=
  timestamp a ≤ timestamp b ∧ (promise a < promise b)%nat.

(** Requests with the same timestamp, in submission order. *)
Definition tie_le (a b : QueuedRequest) : Prop :=
  timestamp a = timestamp b → (promise a < promise b)%nat.

(** The promises rejected for queue overflow, in the order rejected. *)
Definition is_overflow s : bool :=
  match s with Rejected QueueOverflow => true | _ => false end.

Definition overflowed w : list nat :=
  (filter (λ ps, Is_true (is_overflow ps.2)) (settled w)).*1.

(** The promises resolved, in the order resolved. *)
Definition is_resolved s : bool :=
  match s with Resolved _ => true | _ => false end.

Definition resolved w : list nat :=
  (filter (λ ps, Is_true (is_resolved ps.2)) (settled w)).*1.

(** How many requests can have overflowed: a request is dropped only
    when the queue is full, and the queue holds something only when
    [MAX_CONCURRENT] operations have been started. *)
Record count_inv (cfg : Config) w : Prop := {
  ci_total :
    Z.of_nat (length (queue w)) + Z.of_nat (length (started w))
      + Z.of_nat (length (overflowed w)) ≤ Z.of_nat (nextPromise w);
  ci_busy :
    0 < Z.of_nat (length (queue w)) →
    MAX_CONCURRENT cfg ≤ Z.of_nat (length (started w));
  ci_overflow :
    0 < Z.of_nat (length (overflowed w)) →
    Z.of_nat (length (overflowed w)) + MAX_CONCURRENT cfg + MAX_QUEUE_SIZE cfg
      ≤ Z.of_nat (nextPromise w);
  ci_processing : processing w ≤ Z.of_nat (length (started w))
}.


End invariants.

(** ** The exported functions *)

(** [requestQueue] is one manager for the module, with the constants of the
    source. *)

(** [likeContentItem], lines 245-247: it enqueues
    [() => _internalLikeContentItem(contentItemId, userIdentifier)]; the
    promise it returns is [nextPromise w].  The operation is an [async]
    function, so it never throws before returning; what it ends with is
    told to the manager as [Likes.outcome]. *)
Definition likeContentItem (suffix : string) (dateNow : Z)
    (w : World Likes.LikeResult Likes.Thrown) : World Likes.LikeResult Likes.Thrown :=
  enqueue source_config like OpAsync suffix dateNow w.

(** [getQueueStatus], lines 374-376. *)
Definition getQueueStatus {V X} (w : World V X) : gmap string Z * World V X :=
  getStatus source_config w.

(** ** The scenarios of the specification *)


(** [MAX_CONCURRENT = 3], [MAX_QUEUE_SIZE = 5]. *)
Definition example_config : Config :=
  {| MAX_CONCURRENT := 3; MAX_QUEUE_SIZE := 5; REQUEST_TIMEOUT := 30000 |}.

(** [MAX_CONCURRENT = 1]. *)
Definition serial_config : Config :=
  {| MAX_CONCURRENT := 1; MAX_QUEUE_SIZE := 1000; REQUEST_TIMEOUT := 30000 |}.

Section scenarios.
Context {V X : Type}.

(** Ten submissions in one synchronous burst. *)
Definition ten_submissions : list (Event V X) :=
  [Enqueue like OpAsync "0" 0; Enqueue like OpAsync "1" 0;
   Enqueue like OpAsync "2" 0; Enqueue like OpAsync "3" 0;
   Enqueue like OpAsync "4" 0; Enqueue like OpAsync "5" 0;
   Enqueue like OpAsync "6" 0; Enqueue like OpAsync "7" 0;
   Enqueue like OpAsync "8" 0; Enqueue like OpAsync "9" 0].

(** After the burst every operation that gets to run succeeds with [v];
    after each success the zero-delay timer that [finally] armed fires. *)
Definition ten_completions (v : V) : list (Event V X) :=
  [OperationSettles 0 (inl v); TimerFires 11;
   OperationSettles 1 (inl v); TimerFires 12;
   OperationSettles 2 (inl v); TimerFires 13;
   OperationSettles 5 (inl v); TimerFires 14;
   OperationSettles 6 (inl v); TimerFires 15;
   OperationSettles 7 (inl v); TimerFires 16;
   OperationSettles 8 (inl v); TimerFires 17;
   OperationSettles 9 (inl v); TimerFires 18].

(** A (t=0), B (t=1), C (t=2), each running to its end before the next
    event. *)
Definition three_in_turn (v : V) : list (Event V X) :=
  [Enqueue like OpAsync "A" 0; Enqueue unlike OpAsync "B" 1;
   Enqueue content_update OpAsync "C" 2;
   OperationSettles 0 (inl v); TimerFires 4;
   OperationSettles 1 (inl v); TimerFires 5;
   OperationSettles 2 (inl v); TimerFires 6].

(** Two submissions, the second with the earlier clock reading. *)
Definition clock_set_back : list (Event V X) :=
  [Enqueue like OpAsync "first" 10; Enqueue like OpAsync "second" 5].
End scenarios.

(** ** More about the manager *)

(** A timer that will run [() => this.processQueue()]. *)
Definition is_tick (t : Timer) : bool :=
  match callback t with
  | ProcessCb => true
  | TimeoutCb _ _ => false
  end.

(** How many such timers a timer table holds. *)
Definition tick_count (m : gmap nat Timer) : nat :=
  size (filter (λ kv, Is_true (is_tick kv.2)) m).

Section more_invariants.
Context {V X : Type}.
Abbreviation QueuedRequest := (QueuedRequest X).
Abbreviation World := (World V X).
Abbreviation Event := (Event V X).
Implicit Types (w : World) (r : QueuedRequest).

(** The admissions already scheduled. *)
Definition ticks w : nat := tick_count (timers w).

(** No request waits while a slot is free and no admission is scheduled
    for it. *)
Definition work_conserving (cfg : Config) w : Prop :=
  queue w ≠ [] → MAX_CONCURRENT cfg ≤ processing w + Z.of_nat (ticks w).
End more_invariants.


(** ** Reading the record of a like *)

Section like_records.
Import Likes.

Definition is_select_likes (i : Interaction) : bool :=
  match i with SelectLikes _ _ _ => true | _ => false end.

Definition is_add_like (i : Interaction) : bool :=
  match i with AddLike _ _ _ => true | _ => false end.

Definition is_select_item (i : Interaction) : bool :=
  match i with SelectItem _ _ => true | _ => false end.

(** How many exchanges of one kind a record holds. *)
Definition calls (kind : Interaction → bool) (tr : list Interaction) : nat :=
  length (filter (λ i, Is_true (kind i)) tr).

(** The pauses of a record, in milliseconds. *)
Definition pauses (tr : list Interaction) : list Z :=
  omap (λ i, match i with Sleep ms => Some ms | _ => None end) tr.

(** The pauses still to come once [retryCount] attempts have failed. *)
Definition backoff (retryCount : Z) : list Z :=
  (λ k, 100 + k * 50) <$> seqZ (retryCount + 1) (maxRetries - 1 - retryCount).

(** The exchange is what made an attempt throw [x]: the awaited call
    threw [x], or it answered with the error that was then thrown. *)
Definition fails_with (x : Thrown) (i : Interaction) : Prop :=
  match i with
  | AddLike _ _ (Threw y) | SelectItem _ (Threw y) => y = x
  | AddLike _ _ (Returned a) =>
      ∃ e, rpc_error a = Some e ∧ is_duplicate e = false ∧ x = Failed e
  | SelectItem _ (Returned it) => ∃ e, fetchError it = Some e ∧ x = Failed e
  | SelectLikes _ _ _ | Sleep _ => False
  end.

(** Every call of [add_like] comes straight after a read of
    [user_likes] that did not report the item liked. *)
Definition writes_are_checked (tr : list Interaction) : Prop :=
  ∀ n i, tr !! n = Some i → is_add_like i →
    ∃ m j, n = S m ∧ tr !! m = Some j ∧ is_select_likes j ∧ ¬ reports_liked j.
End like_records.

(** A backend that reports no like and whose [add_like] cannot be
    reached: every call of it throws. *)
Definition add_like_down : Likes.Backend :=
  {| Likes.select_user_likes _ _ _ :=
       Likes.Returned
         {| Likes.data := Some []; Likes.error := None; Likes.count := Some 0 |};
     Likes.rpc_add_like _ _ _ := Likes.Threw (Likes.Exception "network");
     Likes.select_item _ _ := Likes.Threw (Likes.Exception "network") |}.

(** ** The other database operations *)

Module Db.

(** A value of a row.  The module looks at none of them; it only passes
    them on, and computes two numbers of its own.  [JOther] stands for
    any value not listed, by its JSON text. *)
Inductive Json :=
| JNull
| JBool (b : bool)
| JNum (n : Z)
| JNaN
| JStr (s : string)
| JOther (text : string).

(** A row is an object; a column it does not have reads as
    [undefined]. *)
Abbreviation Row := (gmap string Json).

(** The calls chained on [supabase.from(table)], in the order chained. *)
Inductive Verb := Select (columns : string) | Update (updates : Row) | Delete.

Inductive Modifier :=
| Eq (column : string) (value : option Json)
| Order (column : string) (ascending : bool)
| Limit (n : Z)
| Returning
| Single.

Inductive Request :=
| From (table : string) (verb : Verb) (modifiers : list Modifier)
| Rpc (fn : string).

(** One more call chained on a query. *)
Definition chain (m : Modifier) (q : Request) : Request :=
  match q with
  | From table verb modifiers => From table verb (modifiers ++ [m])
  | Rpc fn => Rpc fn
  end.

(** [{ data, error }] of a query for rows, and of a query ended with
    [.single()]. *)
Record RowsAnswer := { rows : option (list Row); rows_error : option Likes.PostgrestError }.
Record RowAnswer := { row : option Row; row_error : option Likes.PostgrestError }.

(** One exchange with the backend: one made by [checkIfLiked], or a
    request with what the [await] of it gave. *)
Inductive Exchange :=
| Like (i : Likes.Interaction)
| Asked (q : Request) (answer : Likes.Awaited RowsAnswer)
| AskedOne (q : Request) (answer : Likes.Awaited RowAnswer).

(** The backend, the clock and the parsing of dates are outside the
    repository: each answer is any function of the exchanges so far.
    [getTime v] is [new Date(v).getTime()], [None] for [NaN]. *)
Record Env := {
  likes : list Exchange → Likes.Backend;
  answer_rows : list Exchange → Request → Likes.Awaited RowsAnswer;
  answer_row : list Exchange → Request → Likes.Awaited RowAnswer;
  date_now : list Exchange → Z;
  getTime : option Json → option Z
}.

Definition Promise (A : Type) : Type :=
  Env → list Exchange → Likes.Completion A * list Exchange.

Definition pure {A} (a : A) : Promise A := λ _ tr, (Likes.Return a, tr).
Definition raise {A} (x : Likes.Thrown) : Promise A := λ _ tr, (Likes.Throw x, tr).
Definition after {A B} (m : Promise A) (k : A → Promise B) : Promise B :=
  λ be tr, match m be tr with
           | (Likes.Return a, tr') => k a be tr'
           | (Likes.Throw x, tr') => (Likes.Throw x, tr')
           end.
Definition guarded {A} (body : Promise A) (handler : Likes.Thrown → Promise A) : Promise A :=
  λ be tr, match body be tr with
           | (Likes.Return a, tr') => (Likes.Return a, tr')
           | (Likes.Throw x, tr') => handler x be tr'
           end.

#[export] Instance promise_bind : MBind Promise := λ A B k m, after m k.
#[export] Instance promise_ret : MRet Promise := λ A a, pure a.

(** [await query]. *)
Definition ask (q : Request) : Promise RowsAnswer :=
  λ be tr, let answer := answer_rows be tr q in
           match answer with
           | Likes.Returned a => (Likes.Return a, tr ++ [Asked q answer])
           | Likes.Threw x => (Likes.Throw x, tr ++ [Asked q answer])
           end.

(** [await query.single()]. *)
Definition ask_one (q : Request) : Promise RowAnswer :=
  λ be tr, let answer := answer_row be tr (chain Single q) in
           match answer with
           | Likes.Returned a => (Likes.Return a, tr ++ [AskedOne (chain Single q) answer])
           | Likes.Threw x => (Likes.Throw x, tr ++ [AskedOne (chain Single q) answer])
           end.

(** A call of one of the like operations modelled above. *)
Definition lift {A} (m : Likes.Async A) : Promise A :=
  λ be tr, match m (likes be tr) [] with
           | (c, exchanged) => (c, tr ++ (Like <$> exchanged))
           end.

(** [Date.now()]. *)
Definition clock : Promise Z := λ be tr, (Likes.Return (date_now be tr), tr).

(** [new Date(v).getTime()]. *)
Definition time_of (v : option Json) : Promise (option Z) :=
  λ be tr, (Likes.Return (getTime be v), tr).

Definition text (s : string) : option Json := Some (JStr s).

(** [_internalUnlikeContentItem], lines 250-270. *)
Definition _internalUnlikeContentItem (contentItemId userIdentifier : string) : Promise unit :=
  guarded
    (isLiked ← lift (Likes.checkIfLiked contentItemId userIdentifier);
     if negb isLiked then pure ()
     else
       a ← ask (From "user_likes" Delete
                  [Eq "content_item_id" (text contentItemId);
                   Eq "user_identifier" (text userIdentifier)]);
       match rows_error a with
       | Some error => raise (Likes.Failed error)
       | None => pure ()
       end)
    (λ error, raise error).

(** Whether a [string | undefined] is truthy. *)
Definition truthy (s : option string) : bool :=
  match s with
  | Some s => negb (bool_decide (s = EmptyString))
  | None => false
  end.

(** [_internalUpdateContentItem], lines 278-305. *)
Definition _internalUpdateContentItem (itemId : string) (updates : Row)
    (userIdentifier : option string) (isLoggedIn : bool) : Promise (option Row) :=
  guarded
    (let query := From "content_items" (Update updates) [Eq "id" (text itemId)] in
     let query :=
       if negb isLoggedIn && truthy userIdentifier
       then chain (Eq "user_identifier" (JStr <$> userIdentifier)) query
       else query in
     a ← ask_one (chain Returning query);
     match row_error a with
     | Some error => raise (Likes.Failed error)
     | None => pure (row a)
     end)
    (λ error, raise error).

(** [_internalUpdateCategory], lines 320-337. *)
Definition _internalUpdateCategory (categoryId : string) (updates : Row)
  : Promise (option Row) :=
  guarded
    (a ← ask_one (From "categories" (Update updates) [Eq "id" (text categoryId); Returning]);
     match row_error a with
     | Some error => raise (Likes.Failed error)
     | None => pure (row a)
     end)
    (λ error, raise error).

(** [_internalUpdateBoard], lines 347-364. *)
Definition _internalUpdateBoard (boardId : string) (updates : Row) : Promise (option Row) :=
  guarded
    (a ← ask_one (From "boards" (Update updates) [Eq "id" (text boardId); Returning]);
     match row_error a with
     | Some error => raise (Likes.Failed error)
     | None => pure (row a)
     end)
    (λ error, raise error).

(** [likeError ? 0 : (likeData?.length || 0)]. *)
Definition like_count_of (a : RowsAnswer) : Z :=
  match rows_error a with
  | Some _ => 0
  | None => match rows a with
            | Some likeData => Z.of_nat (length likeData)
            | None => 0
            end
  end.

(** [Math.floor((Date.now() - new Date(created_at).getTime()) / 1000)],
    for times in milliseconds within the range in which the division of
    JavaScript is exact. *)
Definition age_seconds (now : Z) (created : option Z) : Json :=
  match created with
  | Some t => JNum ((now - t) `div` 1000)
  | None => JNaN
  end.

(** [{ ...item, like_count: likeCount, age_seconds: ... }]. *)
Definition with_likes (item : Row) (likeCount : Z) (age : Json) : Row :=
  <["age_seconds" := age]> (<["like_count" := JNum likeCount]> item).

(** [supabase.from('user_likes').select('id').eq('content_item_id', id)]. *)
Definition likes_of (id : option Json) : Request :=
  From "user_likes" (Select "id") [Eq "content_item_id" id].

(** The [for (const item of fallbackData || [])] loop, lines 446-461
    and 494-509, by recursion on the items left. *)
Fixpoint count_likes (items : list Row) (itemsWithLikes : list Row) : Promise (list Row) :=
  match items with
  | [] => pure itemsWithLikes
  | item :: items =>
      a ← ask (likes_of (item !! "id"));
      now ← clock;
      created ← time_of (item !! "created_at");
      count_likes items
        (itemsWithLikes ++ [with_likes item (like_count_of a) (age_seconds now created)])
  end.

(** The body shared by [getContentItemsWithLikes] and
    [getContentItemsForBoard], which differ in the columns they select. *)
Definition items_with_likes (viewColumns tableColumns boardId : string)
  : Promise (list Row) :=
  guarded
    (a ← ask (From "content_items_with_likes" (Select viewColumns)
                [Eq "board_id" (text boardId); Order "created_at" false]);
     match rows_error a with
     | Some _ =>
         f ← ask (From "content_items" (Select tableColumns)
                    [Eq "board_id" (text boardId); Order "created_at" false]);
         match rows_error f with
         | Some fallbackError => raise (Likes.Failed fallbackError)
         | None => count_likes (default [] (rows f)) []
         end
     | None => pure (default [] (rows a))
     end)
    (λ error, raise error).

(** [getContentItemsWithLikes], lines 422-468. *)
Definition getContentItemsWithLikes (boardId : string) : Promise (list Row) :=
  items_with_likes "*" "*" boardId.

Definition board_columns : string :=
  "id, board_id, category_id, type, title, content, link_url, thumbnail_url, file_name, file_type, file_size, created_at, updated_at, user_identifier".

(** [getContentItemsForBoard], lines 471-516. *)
Definition getContentItemsForBoard (boardId : string) : Promise (list Row) :=
  items_with_likes (board_columns +:+ ", like_count, age_seconds") board_columns boardId.


(** [cleanupInvalidLikes], lines 551-564. *)
Definition cleanupInvalidLikes (contentItemId userIdentifier : string) : Promise bool :=
  guarded
    (_ ← ask (From "user_likes" Delete
                [Eq "content_item_id" (text contentItemId);
                 Eq "user_identifier" (text userIdentifier)]);
     pure true)
    (λ _, pure false).

(** [refreshContentView], lines 567-587. *)
Definition refreshContentView : Promise bool :=
  guarded
    (d ← ask (Rpc "refresh_content_view");
     match rows_error d with
     | Some _ =>
         m ← ask (From "content_items_with_likes" (Select "count(*)") [Limit 1]);
         match rows_error m with
         | Some _ => pure false
         | None => pure true
         end
     | None => pure true
     end)
    (λ _, pure false).

(** [testSupabaseConnection], lines 139-157; [development] is
    [process.env.NODE_ENV === 'development']. *)
Definition testSupabaseConnection (development : bool) : Promise bool :=
  if negb development then pure true
  else
    guarded
      (a ← ask (From "content_items" (Select "count") [Limit 1]);
       match rows_error a with
       | Some _ => pure false
       | None => pure true
       end)
      (λ _, pure false).

(** One [try { await ... } catch {}] of [checkTablesExist]. *)
Definition probe (table : string) : Promise unit :=
  guarded (_ ← ask (From table (Select "id") [Limit 1]); pure ()) (λ _, pure ()).

(** [checkTablesExist], lines 160-182. *)
Definition checkTablesExist (development : bool) : Promise unit :=
  if negb development then pure ()
  else
    probe "content_items";;
    probe "user_likes";;
    probe "content_items_with_likes".

(** The calls chained on a query. *)
Definition modifiers (q : Request) : list Modifier :=
  match q with
  | From _ _ ms => ms
  | Rpc _ => []
  end.

(** [out] is [item] with the two computed columns set. *)
Definition counted (item out : Row) : Prop :=
  ∃ n age, 0 ≤ n ∧ out = with_likes item n age.

(** The requests of a record, in order. *)
Definition requests (tr : list Exchange) : list Request :=
  omap (λ e, match e with
             | Asked q _ | AskedOne q _ => Some q
             | Like _ => None
             end) tr.

(** The exchange is a read of [user_likes] by [checkIfLiked] that
    reported the item liked. *)
Definition read_liked (e : Exchange) : Prop :=
  match e with
  | Like i => Likes.reports_liked i
  | _ => False
  end.

End Db.

(** ** The like button *)

Module LikeButton.

(** The four state variables of the component, lines 19-22. *)
Record State := {
  isLiked : bool;
  likeCount : Z;
  isLoading : bool;
  isProcessing : bool
}.

(** A call of one of the state setters, with a value or with a function
    of the previous value. *)
Inductive Update :=
| SetIsLiked (b : bool)
| SetLikeCount (n : Z)
| UpdateLikeCount (f : Z → Z)
| SetIsLoading (b : bool)
| SetIsProcessing (b : bool).

Definition apply (s : State) (u : Update) : State :=
  match u with
  | SetIsLiked b =>
      {| isLiked := b; likeCount := likeCount s; isLoading := isLoading s;
         isProcessing := isProcessing s |}
  | SetLikeCount n =>
      {| isLiked := isLiked s; likeCount := n; isLoading := isLoading s;
         isProcessing := isProcessing s |}
  | UpdateLikeCount f =>
      {| isLiked := isLiked s; likeCount := f (likeCount s); isLoading := isLoading s;
         isProcessing := isProcessing s |}
  | SetIsLoading b =>
      {| isLiked := isLiked s; likeCount := likeCount s; isLoading := b;
         isProcessing := isProcessing s |}
  | SetIsProcessing b =>
      {| isLiked := isLiked s; likeCount := likeCount s; isLoading := isLoading s;
         isProcessing := b |}
  end.

(** The state after the updates queued, applied in the order queued. *)
Definition render (s : State) (updates : list Update) : State := foldl apply s updates.

(** The exported function [handleLikeClick] awaits. *)
Inductive Call := LikeContentItem | UnlikeContentItem.

(** [handleLikeClick], lines 103-126, up to its [await]; [s] is the state
    of the render the handler belongs to.  [None]: it returned at
    line 108. *)
Definition click (s : State) : option (list Update * Call) :=
  if isLoading s || isProcessing s then None
  else Some ([SetIsLoading true; SetIsProcessing true],
             if negb (isLiked s) then LikeContentItem else UnlikeContentItem).

(** What the handler does once the promise it awaits is settled: the
    state updates it queues, the calls of [onLikeChange] it makes, and
    the updates it schedules with [setTimeout]. *)
Record Reaction := {
  updates : list Update;
  notified : list Z;
  later : list (Z * Update)
}.

(** The [catch] block, lines 134-142. *)
Definition on_error (s : State) : list Update :=
  if negb (isLiked s)
  then [SetIsLiked true; UpdateLikeCount (λ prev, prev + 1)]
  else [SetIsLiked false; UpdateLikeCount (λ prev, Z.max 0 (prev - 1))].

(** The [finally] block, lines 143-147. *)
Definition at_last (updates : list Update) (notified : list Z) : Reaction :=
  {| updates := updates ++ [SetIsLoading false];
     notified := notified;
     later := [(100, SetIsProcessing false)] |}.

(** [if (onLikeChange) onLikeChange(newCount)]; the callback is the
    parent's, and is taken to return. *)
Definition notify (onLikeChange : bool) (newCount : Z) : list Z :=
  if onLikeChange then [newCount] else [].

(** Lines 116-123 and what follows, for the promise of
    [likeContentItem] ([s] has [isLiked = false]).  A result
    [undefined] passes the test [result !== null], and reading its
    [like_count] throws into the [catch] block. *)
Definition resume_like (s : State) (onLikeChange : bool)
    (settled : Settlement Likes.LikeResult Likes.Thrown) : Reaction :=
  match settled with
  | Resolved Likes.Null | Resolved (Likes.Item None) => at_last [] []
  | Resolved (Likes.Item (Some result)) =>
      let newCount := Likes.like_count result in
      at_last [SetIsLiked true; SetLikeCount newCount] (notify onLikeChange newCount)
  | Resolved Likes.Undefined => at_last (SetIsLiked true :: on_error s) []
  | Rejected _ => at_last (on_error s) []
  end.

(** Lines 126-133 and what follows, for the promise of
    [unlikeContentItem] ([s] has [isLiked = true]). *)
Definition resume_unlike (s : State) (onLikeChange : bool)
    (settled : Settlement unit Likes.Thrown) : Reaction :=
  match settled with
  | Resolved _ =>
      let newCount := Z.max 0 (likeCount s - 1) in
      at_last [SetIsLiked false; SetLikeCount newCount] (notify onLikeChange newCount)
  | Rejected _ => at_last (on_error s) []
  end.

(** The state once the reaction and its delayed updates are applied to
    [s']. *)
Definition settle_down (s' : State) (re : Reaction) : State :=
  render (render s' (updates re)) (snd <$> later re).

(** Whether a string is truthy. *)
Definition nonempty (s : string) : bool := negb (bool_decide (s = EmptyString)).

(** The first effect, lines 27-40: the updates it queues. *)
Definition initializeLikeStatus (contentItemId userIdentifier : string)
  : Likes.Async (list Update) :=
  if nonempty contentItemId && nonempty userIdentifier then
    Likes.try_catch
      (Likes.bind (Likes.checkIfLiked contentItemId userIdentifier)
         (λ liked, Likes.ret [SetIsLiked liked]))
      (λ _, Likes.ret [])
  else Likes.ret [].

(** [refreshLikeCount], lines 48-74, once its request
    [supabase.from('user_likes').select('id').eq('content_item_id', contentItemId)]
    is over; [s] is the state of the render the effect belongs to, and
    [isMounted] the flag as it is then. *)
Definition refreshLikeCount (isMounted : bool) (s : State)
    (answer : Likes.Awaited Db.RowsAnswer) : list Update :=
  match answer with
  | Likes.Threw _ => []
  | Likes.Returned a =>
      if negb isMounted then []
      else
        let actualLikeCount := Db.like_count_of a in
        if negb (isProcessing s) then
          [UpdateLikeCount (λ prevCount,
             if bool_decide (actualLikeCount ≠ prevCount) then actualLikeCount
             else prevCount)]
        else []
  end.

End LikeButton.

(** ** The other exported operations that go through the queue *)

(** What the manager does with the promise once the operation it awaits
    ends as [c] (lines 95-101). *)
Definition settlement_of {A} (c : Likes.Completion A) : Settlement A Likes.Thrown :=
  match c with
  | Likes.Return a => Resolved a
  | Likes.Throw x => Rejected (OperationError x)
  end.

(** [unlikeContentItem], lines 273-275: it enqueues
    [() => _internalUnlikeContentItem(contentItemId, userIdentifier)]. *)
Definition unlikeContentItem (suffix : string) (dateNow : Z)
    (w : World unit Likes.Thrown) : World unit Likes.Thrown :=
  enqueue source_config unlike OpAsync suffix dateNow w.

(** [updateContentItem], lines 308-317. *)
Definition updateContentItem (suffix : string) (dateNow : Z)
    (w : World (option Db.Row) Likes.Thrown) : World (option Db.Row) Likes.Thrown :=
  enqueue source_config content_update OpAsync suffix dateNow w.

(** [updateCategory], lines 340-344. *)
Definition updateCategory (suffix : string) (dateNow : Z)
    (w : World (option Db.Row) Likes.Thrown) : World (option Db.Row) Likes.Thrown :=
  enqueue source_config category_update OpAsync suffix dateNow w.

(** [updateBoard], lines 367-371. *)
Definition updateBoard (suffix : string) (dateNow : Z)
    (w : World (option Db.Row) Likes.Thrown) : World (option Db.Row) Likes.Thrown :=
  enqueue source_config board_update OpAsync suffix dateNow w.

(** An environment in which nothing can be reached: every request
    throws, and the reads of [checkIfLiked] report no like. *)
Definition offline : Db.Env :=
  {| Db.likes _ := add_like_down;
     Db.answer_rows _ _ := Likes.Threw (Likes.Exception "network");
     Db.answer_row _ _ := Likes.Threw (Likes.Exception "network");
     Db.date_now _ := 0;
     Db.getTime _ := None |}.

(** An environment in which the view [content_items_with_likes] does
    not exist: [content_items] has two rows, the first with two likes,
    and the likes of the second cannot be read. *)
Definition missing_relation : Likes.PostgrestError :=
  {| Likes.code := "42P01"; Likes.message := Some "relation does not exist" |}.

Definition two_items : list Db.Row :=
  [{[ "id" := Db.JStr "a"; "title" := Db.JStr "first" ]};
   {[ "id" := Db.JStr "b"; "title" := Db.JStr "second" ]}].

Definition view_missing : Db.Env :=
  {| Db.likes _ := add_like_down;
     Db.answer_rows _ q :=
       match q with
       | Db.From table _ modifiers =>
           if String.eqb table "content_items" then
             Likes.Returned {| Db.rows := Some two_items; Db.rows_error := None |}
           else if String.eqb table "user_likes" then
             match modifiers with
             | [Db.Eq _ (Some (Db.JStr "a"))] =>
                 Likes.Returned {| Db.rows := Some [∅; ∅]; Db.rows_error := None |}
             | _ =>
                 Likes.Returned {| Db.rows := None; Db.rows_error := Some missing_relation |}
             end
           else Likes.Returned {| Db.rows := None; Db.rows_error := Some missing_relation |}
       | Db.Rpc _ =>
           Likes.Returned {| Db.rows := None; Db.rows_error := Some missing_relation |}
       end;
     Db.answer_row _ _ := Likes.Threw (Likes.Exception "network");
     Db.date_now _ := 5000;
     Db.getTime _ := Some 1000 |}.
(** ** Facts about the array primitives *)

Section array_facts.
Context {A : Type}.
Implicit Types (p : A → bool) (l : list A).

Lemma findIndex_split p l :
    (findIndex p l = -1 ∧ Forall (λ x, ¬ p x) l) ∨
    (∃ l1 x l2, l = l1 ++ x :: l2 ∧ findIndex p l = Z.of_nat (length l1) ∧
                p x ∧ Forall (λ y, ¬ p y) l1).
Proof.
    unfold findIndex. destruct (list_find _ l) as [[i x]|] eqn:Hf.
    - right. apply list_find_Some in Hf as (Hi & Hp & Hbefore).
      exists (take i l), x, (drop (S i) l).
      pose proof (lookup_lt_Some _ _ _ Hi) as Hlt.
      split_and!; [by rewrite take_drop_middle| |done|].
      + rewrite length_take. f_equal. lia.
      + apply Forall_forall. intros y [j Hj]%list_elem_of_lookup.
        apply lookup_take_Some in Hj as [Hj ?]. eauto.
    - left. split; [done|]. by apply list_find_None in Hf.
Qed.

Lemma findIndex_nonneg p l : findIndex p l = -1 ∨ 0 ≤ findIndex p l.
Proof. destruct (findIndex_split p l) as [[-> _]|(?&?&?&_&->&_)]; lia. Qed.

Lemma splice_insert_middle l1 l2 (x : A) :
    splice_insert (length l1) x (l1 ++ l2) = l1 ++ x :: l2.
Proof. unfold splice_insert. by rewrite take_app_length, drop_app_length. Qed.

Lemma splice_remove_middle l1 l2 (x : A) :
    splice_remove (length l1) (l1 ++ x :: l2) = ([x], l1 ++ l2).
Proof.
    unfold splice_remove. rewrite drop_app_length, delete_middle. done.
Qed.
End array_facts.

(** ** The manager's methods, case by case *)

Section method_facts.
Context {V X : Type}.
Abbreviation QueuedRequest := (QueuedRequest X).
Abbreviation World := (World V X).
Abbreviation Event := (Event V X).
Implicit Types (w : World) (r : QueuedRequest) (q : list QueuedRequest).
Variable cfg : Config.

Lemma findIndex_first {A} (p : A → bool) l1 x l2 :
  p x → Forall (λ y, ¬ p y) l1 →
  findIndex p (l1 ++ x :: l2) = Z.of_nat (length l1).
Proof.
  intros Hx Hl1. unfold findIndex.
  assert (list_find (λ y, Is_true (p y)) (l1 ++ x :: l2) = Some (length l1, x)) as ->; [|done].
  apply list_find_Some. split_and!; [by apply list_lookup_middle|done|].
  intros j y Hj Hlt. rewrite lookup_app_l in Hj by done.
  eapply Forall_lookup_1 in Hl1; eauto.
Qed.

Lemma insert_by_timestamp_spec r q :
  ∃ q1 q2, q = q1 ++ q2 ∧ insert_by_timestamp r q = q1 ++ r :: q2 ∧
    Forall (λ x, timestamp x ≤ timestamp r) q1 ∧
    (∀ y, head q2 = Some y → timestamp r < timestamp y).
Proof.
  unfold insert_by_timestamp.
  destruct (findIndex_split (λ req, bool_decide (timestamp r < timestamp req)) q)
    as [[-> Hall]|(q1 & y & q2 & -> & -> & Hy & Hq1)].
  - exists q, []. rewrite bool_decide_eq_true_2 by done.
    split_and!; [by rewrite app_nil_r|done| |done].
    eapply Forall_impl; [exact Hall|]. intros x Hx. simpl in Hx.
    rewrite bool_decide_spec in Hx. lia.
  - exists q1, (y :: q2). rewrite bool_decide_eq_false_2 by lia.
    rewrite Nat2Z.id, splice_insert_middle. split_and!; [done|done| |].
    + eapply Forall_impl; [exact Hq1|]. intros x Hx. simpl in Hx.
      rewrite bool_decide_spec in Hx. lia.
    + intros y' [= <-]. by apply bool_decide_unpack in Hy.
Qed.

Lemma insert_by_timestamp_perm r q : insert_by_timestamp r q ≡ₚ r :: q.
Proof.
  destruct (insert_by_timestamp_spec r q) as (q1 & q2 & -> & -> & _).
  by rewrite Permutation_middle.
Qed.

Lemma insert_by_timestamp_sorted r q :
  StronglySorted ts_le q → StronglySorted ts_le (insert_by_timestamp r q).
Proof.
  destruct (insert_by_timestamp_spec r q) as (q1 & q2 & -> & -> & Hq1 & Hq2).
  intros (Hcross & Hs1 & Hs2)%StronglySorted_app.
  apply StronglySorted_app_2; [|done|].
  - intros x1 x2 Hx1 [->|Hx2]%elem_of_cons.
    + rewrite Forall_forall in Hq1. by apply Hq1.
    + by apply Hcross.
  - apply StronglySorted_cons. split; [|done].
    destruct q2 as [|y q2]; [constructor|].
    specialize (Hq2 y eq_refl).
    apply StronglySorted_cons in Hs2 as [Hy _].
    constructor; [unfold ts_le; lia|].
    eapply Forall_impl; [exact Hy|]. unfold ts_le. intros; lia.
Qed.

Lemma insert_by_timestamp_append r q :
  Forall (λ x, timestamp x ≤ timestamp r) q → insert_by_timestamp r q = q ++ [r].
Proof.
  intros Hq. unfold insert_by_timestamp.
  destruct (findIndex_split (λ req, bool_decide (timestamp r < timestamp req)) q)
    as [[-> _]|(q1 & y & q2 & -> & _ & Hy & _)]; [done|].
  apply bool_decide_unpack in Hy.
  apply Forall_app in Hq as [_ [Hq _]%Forall_cons]. lia.
Qed.

Lemma clear_if_set_armed h w : h ≠ 0%nat → clear_if_set h w = clearTimeout h w.
Proof. intros. unfold clear_if_set. by rewrite bool_decide_eq_false_2. Qed.

Lemma clear_if_set_fields h w :
  queue (clear_if_set h w) = queue w ∧ processing (clear_if_set h w) = processing w ∧
  running (clear_if_set h w) = running w ∧ started (clear_if_set h w) = started w ∧
  settled (clear_if_set h w) = settled w ∧ nextPromise (clear_if_set h w) = nextPromise w ∧
  nextHandle (clear_if_set h w) = nextHandle w ∧ now (clear_if_set h w) = now w.
Proof. unfold clear_if_set. by case_bool_decide. Qed.

Lemma removeFromQueue_found requestId w q1 r q2 :
  queue w = q1 ++ r :: q2 → id r = requestId → Forall (λ x, id x ≠ requestId) q1 →
  removeFromQueue requestId w = clear_if_set (timeout r) (set_queue (q1 ++ q2) w).
Proof.
  intros Hq Hid Hq1. unfold removeFromQueue. rewrite Hq.
  rewrite (findIndex_first _ q1 r q2).
  - rewrite bool_decide_eq_true_2 by lia.
    by rewrite Nat2Z.id, splice_remove_middle.
  - by apply bool_decide_pack.
  - eapply Forall_impl; [exact Hq1|]. intros x Hx Hp. simpl in Hp.
    by rewrite bool_decide_spec in Hp.
Qed.

Lemma removeFromQueue_absent requestId w :
  Forall (λ x, id x ≠ requestId) (queue w) → removeFromQueue requestId w = w.
Proof.
  intros Hq. unfold removeFromQueue.
  destruct (findIndex_split (λ req, bool_decide (id req = requestId)) (queue w))
    as [[-> _]|(q1 & y & q2 & Heq & _ & Hy & _)]; [done|].
  apply bool_decide_unpack in Hy. rewrite Heq in Hq.
  apply Forall_app in Hq as [_ [Hq _]%Forall_cons]. done.
Qed.

(** The queue [removeFromQueue] leaves is the old one or the old one with
    one entry taken out. *)
Lemma removeFromQueue_cases requestId w :
  removeFromQueue requestId w = w ∨
  ∃ q1 r q2, queue w = q1 ++ r :: q2 ∧ id r = requestId ∧
    Forall (λ x, id x ≠ requestId) q1 ∧
    removeFromQueue requestId w = clear_if_set (timeout r) (set_queue (q1 ++ q2) w).
Proof.
  destruct (findIndex_split (λ req, bool_decide (id req = requestId)) (queue w))
    as [[Hi Hall]|(q1 & y & q2 & Heq & _ & Hy & Hq1)].
  - left. apply removeFromQueue_absent.
    eapply Forall_impl; [exact Hall|]. intros x Hx Hp. apply Hx. simpl.
    by rewrite bool_decide_spec.
  - right. exists q1, y, q2. apply bool_decide_unpack in Hy.
    assert (Forall (λ x, id x ≠ requestId) q1) as Hq1'.
    { eapply Forall_impl; [exact Hq1|]. intros x Hx Hp. apply Hx. simpl.
      by rewrite bool_decide_spec. }
    split_and!; [done..|]. by apply removeFromQueue_found.
Qed.

(** [processQueue] does nothing, or admits the head of the queue. *)
Lemma processQueue_cases w :
  (processQueue cfg w = w ∧ (MAX_CONCURRENT cfg ≤ processing w ∨ queue w = [])) ∨
  (∃ r rest, queue w = r :: rest ∧ processing w < MAX_CONCURRENT cfg ∧
     let w0 := clear_if_set (timeout r)
                 (set_processing (processing w + 1) (set_queue rest w)) in
     let w1 := set_started (started w0 ++ [r]) w0 in
     processQueue cfg w =
       match operation r with
       | OpAsync => set_running (running w1 ++ [r]) w1
       | OpThrows x =>
           finally_block (settle (promise r) (Rejected (OperationError x)) w1)
       end).
Proof.
  unfold processQueue.
  case_bool_decide as Hc; simpl.
  { left. split; [done|]. by left. }
  destruct (queue w) as [|r rest] eqn:Hq; simpl.
  { left. eauto. }
  right. exists r, rest. split_and!; [done|lia|done].
Qed.

(** [evict] does nothing, or drops the head of the queue. *)
Lemma evict_cases w :
  (evict cfg w = w ∧ Z.of_nat (length (queue w)) < MAX_QUEUE_SIZE cfg) ∨
  (evict cfg w = w ∧ queue w = [] ∧ MAX_QUEUE_SIZE cfg ≤ 0) ∨
  (∃ removed rest, queue w = removed :: rest ∧
     MAX_QUEUE_SIZE cfg ≤ Z.of_nat (length (queue w)) ∧
     evict cfg w = settle (promise removed) (Rejected QueueOverflow)
                     (clear_if_set (timeout removed) (set_queue rest w))).
Proof.
  unfold evict. case_bool_decide as Hfull; [|left; split; [done|lia]].
  right. destruct (queue w) as [|removed rest] eqn:Hq; simpl.
  - left. split_and!; [|done|simpl in Hfull; lia].
    destruct w; simpl in *; by subst.
  - right. by exists removed, rest.
Qed.
End method_facts.

(** ** The counter, the order of the queue, and the two ceilings *)

Section basic_facts.
Context {V X : Type}.
Abbreviation QueuedRequest := (QueuedRequest X).
Abbreviation World := (World V X).
Abbreviation Event := (Event V X).
Implicit Types (w : World) (r : QueuedRequest) (q : list QueuedRequest).
Variable cfg : Config.

Lemma basic_inv_init : basic_inv (@init_world V X).
Proof. split; [done|constructor]. Qed.

Lemma sorted_remove_middle q1 r q2 :
  StronglySorted ts_le (q1 ++ r :: q2) → StronglySorted ts_le (q1 ++ q2).
Proof.
  intros (Hcross & Hs1 & [_ Hs2]%StronglySorted_cons)%StronglySorted_app.
  apply StronglySorted_app_2; [|done..].
  intros x1 x2 ??. apply Hcross; [done|by right].
Qed.

Lemma basic_inv_processQueue w : basic_inv w → basic_inv (processQueue cfg w).
Proof.
  intros [Hp Hs].
  destruct (processQueue_cases cfg w) as [[-> _]|(r & rest & Hq & _ & Heq)]; [done|].
  simpl in Heq. rewrite Heq. clear Heq. rewrite Hq in Hs.
  apply StronglySorted_cons in Hs as [_ Hs].
  unfold clear_if_set.
  destruct (operation r); case_bool_decide; split; simpl;
    rewrite ?length_app; simpl; try done; lia.
Qed.

Lemma basic_inv_evict w : basic_inv w → basic_inv (evict cfg w).
Proof.
  intros [Hp Hs].
  destruct (evict_cases cfg w) as [[-> _]|[(-> & _)|(r & rest & Hq & _ & ->)]]; [done..|].
  rewrite Hq in Hs. apply StronglySorted_cons in Hs as [_ Hs].
  unfold clear_if_set. case_bool_decide; by split.
Qed.

Lemma basic_inv_submit ty op suffix dateNow w :
  basic_inv w → basic_inv (submit cfg ty op suffix dateNow w).
Proof.
  intros [Hp Hs]%basic_inv_evict. unfold submit. split; simpl; [done|].
  by apply insert_by_timestamp_sorted.
Qed.

Lemma basic_inv_on_timeout requestId p w :
  basic_inv w → basic_inv (on_timeout requestId p w).
Proof.
  intros [Hp Hs]. unfold on_timeout.
  destruct (removeFromQueue_cases requestId w) as [->|(q1 & r & q2 & Hq & _ & _ & ->)].
  { by split. }
  rewrite Hq in Hs. apply sorted_remove_middle in Hs.
  unfold clear_if_set. case_bool_decide; by split.
Qed.

Lemma basic_inv_step e w w' : step cfg e w = Some w' → basic_inv w → basic_inv w'.
Proof.
  destruct e as [ty op suffix dateNow|p out|h|d]; simpl; intros Hstep Hw.
  - injection Hstep as <-. by apply basic_inv_processQueue, basic_inv_submit.
  - destruct (list_find _ (running w)) as [[i request]|] eqn:Hf; [|done].
    injection Hstep as <-. apply list_find_Some in Hf as (Hi & _ & _).
    destruct Hw as [Hp Hs]. pose proof (lookup_lt_Some _ _ _ Hi).
    unfold resume. destruct out; split; simpl; try done;
      rewrite length_delete by eauto; lia.
  - destruct (timers w !! h) as [t|]; [|done].
    case_bool_decide; [|done]. injection Hstep as <-.
    assert (basic_inv (clearTimeout h w)) by (destruct Hw; by split).
    destruct (callback t); simpl;
      [by apply basic_inv_on_timeout|by apply basic_inv_processQueue].
  - case_bool_decide; [|done]. injection Hstep as <-. destruct Hw. by split.
Qed.

Lemma basic_inv_run evs w w' : run cfg evs w = Some w' → basic_inv w → basic_inv w'.
Proof.
  revert w. induction evs as [|e evs IH]; simpl; intros w Hrun Hw; [by simplify_eq|].
  destruct (step cfg e w) as [w1|] eqn:Hstep; [|done]. simpl in Hrun.
  eauto using basic_inv_step.
Qed.

Lemma within_concurrency_processQueue w :
  within_concurrency cfg w → within_concurrency cfg (processQueue cfg w).
Proof.
  unfold within_concurrency. intros Hp.
  destruct (processQueue_cases cfg w) as [[-> _]|(r & rest & Hqw & Hlt & Heq)]; [done|].
  simpl in Heq. rewrite Heq. clear Heq.
  unfold clear_if_set.
  destruct (operation r); case_bool_decide; simpl; lia.
Qed.

Lemma processing_evict w : processing (evict cfg w) = processing w.
Proof.
  destruct (evict_cases cfg w) as [[-> _]|[(-> & _)|(r & rest & _ & _ & ->)]]; try done.
  unfold clear_if_set. by case_bool_decide.
Qed.

Lemma processing_on_timeout requestId p w :
  processing (on_timeout requestId p w) = processing w.
Proof.
  unfold on_timeout.
  destruct (removeFromQueue_cases requestId w) as [->|(q1 & r & q2 & _ & _ & _ & ->)]; [done|].
  unfold clear_if_set. by case_bool_decide.
Qed.

Lemma within_concurrency_step e w w' :
  step cfg e w = Some w' → basic_inv w →
  within_concurrency cfg w → within_concurrency cfg w'.
Proof.
  destruct e as [ty op suffix dateNow|p out|h|d]; simpl; intros Hstep Hb Hw.
  - injection Hstep as <-. apply within_concurrency_processQueue.
    unfold within_concurrency, submit in *. simpl. by rewrite processing_evict.
  - destruct (list_find _ (running w)) as [[i request]|] eqn:Hf; [|done].
    injection Hstep as <-. unfold within_concurrency, resume in *.
    destruct out; simpl; lia.
  - destruct (timers w !! h) as [t|]; [|done].
    case_bool_decide; [|done]. injection Hstep as <-.
    destruct (callback t); simpl.
    + unfold within_concurrency in *. by rewrite processing_on_timeout.
    + by apply within_concurrency_processQueue.
  - case_bool_decide; [|done]. by injection Hstep as <-.
Qed.

Lemma within_concurrency_run evs w w' :
  run cfg evs w = Some w' → basic_inv w →
  within_concurrency cfg w → within_concurrency cfg w'.
Proof.
  revert w. induction evs as [|e evs IH]; simpl; intros w Hrun Hb Hw; [by simplify_eq|].
  destruct (step cfg e w) as [w1|] eqn:Hstep; [|done]. simpl in Hrun.
  eauto using within_concurrency_step, basic_inv_step.
Qed.

Hypothesis queue_size_pos : 1 ≤ MAX_QUEUE_SIZE cfg.






End basic_facts.

(** ** The armed timeouts are those of the pending requests *)

Section timer_facts.
Context {V X : Type}.
Abbreviation QueuedRequest := (QueuedRequest X).
Abbreviation World := (World V X).
Implicit Types (w : World) (r : QueuedRequest) (q : list QueuedRequest).
Variable cfg : Config.

Lemma NoDup_fmap_middle {A B} (f : A → B) l1 x l2 :
  NoDup (f <$> (l1 ++ x :: l2)) →
  (f x ∉ (f <$> (l1 ++ l2))) ∧ NoDup (f <$> (l1 ++ l2)).
Proof.
  rewrite !fmap_app, fmap_cons, <-Permutation_middle. by intros ?%NoDup_cons.
Qed.

Lemma NoDup_fmap_insert {A B} (f : A → B) l1 x l2 :
  (f x ∉ (f <$> (l1 ++ l2))) → NoDup (f <$> (l1 ++ l2)) → NoDup (f <$> (l1 ++ x :: l2)).
Proof.
  rewrite !fmap_app, fmap_cons, <-Permutation_middle. intros. by apply NoDup_cons.
Qed.

Lemma timer_inv_init used : timer_inv cfg used (@init_world V X).
Proof.
  split; simpl; try apply NoDup_nil_2; try lia.
  - intros r Hr. by apply elem_of_nil in Hr.
  - intros h t ?? Hh. by rewrite lookup_empty in Hh.
  - intros h [? Hh]. by rewrite lookup_empty in Hh.
  - intros r Hr. by apply elem_of_nil in Hr.
Qed.

Lemma timer_inv_same used w w' :
  timer_inv cfg used w → queue w' = queue w → timers w' = timers w →
  nextHandle w' = nextHandle w → timer_inv cfg used w'.
Proof.
  intros [Ha Ht Hh Hn Hto Hid Hu] Hq' Ht' Hn'. unfold awaiting in *.
  split; unfold awaiting; rewrite ?Hq', ?Ht', ?Hn'; done.
Qed.

Lemma timer_inv_weaken used used' w :
  timer_inv cfg used w → used ⊆ used' → timer_inv cfg used' w.
Proof. intros [Ha Ht Hh Hn Hto Hid Hu] Hsub. split; try done. set_solver. Qed.

Lemma timer_inv_remove used w w' q1 r q2 :
  timer_inv cfg used w → queue w = q1 ++ r :: q2 → queue w' = q1 ++ q2 →
  timers w' = delete (timeout r) (timers w) → nextHandle w' = nextHandle w →
  timer_inv cfg used w'.
Proof.
  intros [Ha Ht Hh Hn Hto Hid Hu] Hq Hq' Ht' Hn'. unfold awaiting in *.
  rewrite Hq in *.
  apply NoDup_fmap_middle in Hto as [Hfresh Hto].
  apply NoDup_fmap_middle in Hid as [_ Hid].
  split; unfold awaiting; rewrite ?Hq', ?Ht', ?Hn'; try done.
  - intros r' Hr'. split; [done|].
    destruct (Ha r') as [_ (t & Hl & ?)]; [set_solver|].
    exists t. split; [|done]. rewrite lookup_delete_ne; [done|].
    intros Heq. apply Hfresh. rewrite Heq. by apply list_elem_of_fmap_2.
  - intros h t requestId p [Hne Hl]%lookup_delete_Some Hcb.
    destruct (Ht _ _ _ _ Hl Hcb) as (r0 & Hr0 & Hr0h & ?).
    exists r0. split; [|done].
    apply elem_of_app in Hr0 as [?|[->|?]%elem_of_cons]; set_solver.
  - intros h [t [_ Hl]%lookup_delete_Some]. eauto.
  - intros r' Hr'. apply Hu. set_solver.
Qed.

Lemma timer_inv_tick used w w' t :
  timer_inv cfg used w → callback t = ProcessCb → queue w' = queue w →
  timers w' = <[nextHandle w := t]> (timers w) → nextHandle w' = S (nextHandle w) →
  timer_inv cfg used w'.
Proof.
  intros [Ha Ht Hh Hn Hto Hid Hu] Hcb Hq' Ht' Hn'. unfold awaiting in *.
  split; unfold awaiting; rewrite ?Hq', ?Ht', ?Hn'; try done; try lia.
  - intros r' Hr'. split; [done|].
    destruct (Ha r' Hr') as [_ (t' & Hl & ?)].
    exists t'. split; [|done]. rewrite lookup_insert_ne; [done|].
    intros Heq. destruct (Hh (timeout r')) as [_ ?]; [by eexists|]. lia.
  - intros h t' requestId p [[_ <-]|[Hne Hl]]%lookup_insert_Some Hcb'; [congruence|].
    eauto.
  - intros h [t' Hl]. apply lookup_insert_Some in Hl as [[Heq _]|[Hne Hl]]; [lia|].
    destruct (Hh h); [by eexists|]. lia.
Qed.

Lemma timer_inv_submit used w w' r q1 q2 t :
  timer_inv cfg used w → queue w = q1 ++ q2 → queue w' = q1 ++ r :: q2 →
  timeout r = nextHandle w → id r ∉ used →
  callback t = TimeoutCb (id r) (promise r) → delay t = REQUEST_TIMEOUT cfg →
  timers w' = <[nextHandle w := t]> (timers w) → nextHandle w' = S (nextHandle w) →
  timer_inv cfg (id r :: used) w'.
Proof.
  intros [Ha Ht Hh Hn Hto Hid Hu] Hq Hq' Hr Hfresh Hcb Hd Ht' Hn'. unfold awaiting in *.
  rewrite Hq in *.
  assert (∀ r', r' ∈ q1 ++ q2 → timeout r' ≠ nextHandle w) as Hold.
  { intros r' Hr'. destruct (Ha r' Hr') as [_ (t' & Hl & _)].
    destruct (Hh (timeout r')) as [_ ?]; [by eexists|]. lia. }
  split; unfold awaiting; rewrite ?Hq', ?Ht', ?Hn'; try lia.
  - intros r' Hr'. split; [done|].
    assert (r' = r ∨ r' ∈ q1 ++ q2) as [->|Hin] by set_solver.
    + exists t. by rewrite Hr, lookup_insert_eq.
    + destruct (Ha r' Hin) as [_ (t' & Hl & ?)].
      exists t'. split; [|done]. rewrite lookup_insert_ne; [done|].
      intros Heq. by eapply Hold.
  - intros h t' requestId p [[Hh' <-]|[Hne Hl]]%lookup_insert_Some Hcb'.
    + exists r. rewrite Hcb in Hcb'. injection Hcb' as <- <-.
      split_and!; [set_solver|congruence|done|done].
    + destruct (Ht _ _ _ _ Hl Hcb') as (r0 & ? & ?). exists r0. set_solver.
  - intros h [t' Hl]. apply lookup_insert_Some in Hl as [[Heq _]|[Hne Hl]]; [lia|].
    destruct (Hh h); [by eexists|]. lia.
  - apply NoDup_fmap_insert; [|done]. rewrite Hr.
    intros (r' & Heq & Hr')%list_elem_of_fmap. by eapply Hold.
  - apply NoDup_fmap_insert; [|done].
    intros (r' & Heq & Hr')%list_elem_of_fmap. apply Hfresh. rewrite Heq. by apply Hu.
  - intros r' Hr'. assert (r' = r ∨ r' ∈ q1 ++ q2) as [->|Hin] by set_solver; [set_solver|].
    apply elem_of_cons. right. by apply Hu.
Qed.

(** A pending request has a positive handle, and its timer is armed. *)
Lemma timer_inv_handle used w r :
  timer_inv cfg used w → r ∈ queue w → timeout r ≠ 0%nat.
Proof.
  intros [Ha _ Hh _ _ _ _] Hr. destruct (Ha r Hr) as [_ (t & Hl & _)].
  destruct (Hh (timeout r)); [by eexists|]. lia.
Qed.
End timer_facts.

(** ** Every promise is in one place, and the logs agree *)

Section log_facts.
Context {V X : Type}.
Abbreviation QueuedRequest := (QueuedRequest X).
Abbreviation World := (World V X).
Implicit Types (w : World) (r : QueuedRequest) (q : list QueuedRequest).
Implicit Types (s : Settlement V X).

Lemma log_inv_init : log_inv (@init_world V X).
Proof.
  split; simpl; try apply NoDup_nil_2; try done;
    intros; exfalso; eapply elem_of_nil; eauto.
Qed.

Lemma log_inv_nodup w :
  log_inv w →
  NoDup ((promise <$> queue w) ++ (promise <$> running w) ++ (settled w).*1).
Proof. intros [Hp _ _ _ _ _]. rewrite Hp. apply NoDup_seq. Qed.

Lemma log_inv_lt w p :
  log_inv w →
  p ∈ (promise <$> queue w) ++ (promise <$> running w) ++ (settled w).*1 ↔
  (p < nextPromise w)%nat.
Proof. intros [Hp _ _ _ _ _]. rewrite Hp, elem_of_seq. lia. Qed.

Lemma log_inv_same w w' :
  log_inv w → queue w' = queue w → running w' = running w →
  started w' = started w → settled w' = settled w →
  nextPromise w' = nextPromise w → log_inv w'.
Proof.
  intros [Hp Hpe Hr Ho Hs Hn] Hq' Hr' Hst' Hs' Hnp'.
  split; rewrite ?Hq', ?Hr', ?Hst', ?Hs', ?Hnp'; done.
Qed.

(** A pending request is settled without having run. *)
Lemma log_inv_drop w w' q1 r q2 s :
  log_inv w → queue w = q1 ++ r :: q2 → ¬ from_operation s →
  queue w' = q1 ++ q2 → settled w' = settled w ++ [(promise r, s)] →
  running w' = running w → started w' = started w →
  nextPromise w' = nextPromise w → log_inv w'.
Proof.
  intros Hw Hq Hs Hq' Hs' Hr' Hst' Hnp'.
  destruct Hw as [Hp Hpe Hr Ho Hsl Hn].
  split; rewrite ?Hq', ?Hr', ?Hst', ?Hs', ?Hnp'; try done.
  - rewrite <-Hp, Hq, !fmap_app, fmap_cons. simpl. solve_Permutation.
  - intros r' Hr''. apply Hpe. rewrite Hq. set_solver.
  - intros p s0 [Hin|[= -> ->]%list_elem_of_singleton]%elem_of_app; [by apply Ho|].
    split; [done|]. intros Hin. exfalso. eapply Hpe; [|exact Hin]. rewrite Hq. set_solver.
Qed.

(** A pending request is admitted: its operation is called and awaited. *)
Lemma log_inv_start w w' q1 r q2 :
  log_inv w → queue w = q1 ++ r :: q2 → queue w' = q1 ++ q2 →
  running w' = running w ++ [r] → started w' = started w ++ [r] →
  settled w' = settled w → nextPromise w' = nextPromise w → log_inv w'.
Proof.
  intros Hw Hq Hq' Hr' Hst' Hs' Hnp'.
  pose proof (log_inv_nodup w Hw) as Hnd.
  pose proof (log_inv_lt w (promise r) Hw) as Hlt.
  destruct Hw as [Hp Hpe Hr Ho Hsl Hn].
  rewrite Hq in Hnd, Hlt.
  apply NoDup_app in Hnd as (Hndq & Hdisj & _).
  apply NoDup_fmap_middle in Hndq as [Hfresh _].
  assert (promise r ∈ promise <$> (q1 ++ r :: q2)) as Hrin.
  { apply list_elem_of_fmap_2. set_solver. }
  split; rewrite ?Hq', ?Hr', ?Hst', ?Hs', ?Hnp'; try done.
  - rewrite <-Hp, Hq, !fmap_app, !fmap_cons. simpl. solve_Permutation.
  - intros r' Hr''. rewrite fmap_app. simpl.
    intros [Hin|Heq%list_elem_of_singleton]%elem_of_app.
    + eapply Hpe; [|exact Hin]. rewrite Hq. set_solver.
    + apply Hfresh. rewrite <-Heq. by apply list_elem_of_fmap_2.
  - intros r' [Hin|Heq]%elem_of_app; apply elem_of_app; [left; by apply Hr|by right].
  - intros p s Hin. rewrite (Ho p s Hin), fmap_app. simpl.
    split; [set_solver|]. intros [?|Heq%list_elem_of_singleton]%elem_of_app; [done|].
    exfalso. subst p. apply (Hdisj _ Hrin). apply elem_of_app. right.
    by apply (list_elem_of_fmap_2 fst _ (_, s)).
  - intros r' [Hin|Heq%list_elem_of_singleton]%elem_of_app; [by apply Hsl|].
    subst r'. apply Hlt. apply elem_of_app. by left.
  - rewrite fmap_app. simpl. apply NoDup_app. split_and!; [done| |apply NoDup_singleton].
    intros p Hin ->%list_elem_of_singleton.
    eapply Hpe; [|exact Hin]. rewrite Hq. set_solver.
Qed.

(** A running operation completes, and its promise is settled with what
    the operation did. *)
Lemma log_inv_finish w w' l1 r l2 s :
  log_inv w → running w = l1 ++ r :: l2 → from_operation s →
  running w' = l1 ++ l2 → settled w' = settled w ++ [(promise r, s)] →
  queue w' = queue w → started w' = started w →
  nextPromise w' = nextPromise w → log_inv w'.
Proof.
  intros Hw Hrun Hs Hr' Hs' Hq' Hst' Hnp'.
  destruct Hw as [Hp Hpe Hr Ho Hsl Hn].
  split; rewrite ?Hq', ?Hr', ?Hst', ?Hs', ?Hnp'; try done.
  - rewrite <-Hp, Hrun, !fmap_app, fmap_cons. simpl. solve_Permutation.
  - intros r' Hr''. apply Hr. rewrite Hrun. set_solver.
  - intros p s0 [Hin|[= -> ->]%list_elem_of_singleton]%elem_of_app; [by apply Ho|].
    split; [|done]. intros _. apply list_elem_of_fmap_2, Hr. rewrite Hrun. set_solver.
Qed.

(** A new request enters the queue with the next promise. *)
Lemma log_inv_submit w w' q1 r q2 :
  log_inv w → queue w = q1 ++ q2 → queue w' = q1 ++ r :: q2 →
  promise r = nextPromise w → nextPromise w' = S (nextPromise w) →
  running w' = running w → started w' = started w → settled w' = settled w →
  log_inv w'.
Proof.
  intros Hw Hq Hq' Hpr Hnp' Hr' Hst' Hs'.
  destruct Hw as [Hp Hpe Hr Ho Hsl Hn].
  split; rewrite ?Hq', ?Hr', ?Hst', ?Hs', ?Hnp'; try done.
  - rewrite seq_S. simpl. rewrite <-Hp, Hq, !fmap_app, fmap_cons, Hpr. solve_Permutation.
  - intros r' Hr''.
    assert (r' = r ∨ r' ∈ q1 ++ q2) as [->|Hin] by set_solver.
    + intros (r0 & Heq & Hr0)%list_elem_of_fmap. apply Hsl in Hr0. lia.
    + apply Hpe. by rewrite Hq.
  - intros r' Hr''. apply Hsl in Hr''. lia.
Qed.
End log_facts.

(** ** Every turn of the event loop keeps the invariant *)

Section inv_facts.
Context {V X : Type}.
Abbreviation QueuedRequest := (QueuedRequest X).
Abbreviation World := (World V X).
Abbreviation Event := (Event V X).
Implicit Types (w : World) (r : QueuedRequest) (q : list QueuedRequest).
Variable cfg : Config.

Lemma timer_inv_clear_tick used w w' h t :
  timer_inv cfg used w → timers w !! h = Some t → callback t = ProcessCb →
  queue w' = queue w → timers w' = delete h (timers w) →
  nextHandle w' = nextHandle w → timer_inv cfg used w'.
Proof.
  intros [Ha Ht Hh Hn Hto Hid Hu] Hl Hcb Hq' Ht' Hn'. unfold awaiting in *.
  split; unfold awaiting; rewrite ?Hq', ?Ht', ?Hn'; try done.
  - intros r' Hr'. split; [done|].
    destruct (Ha r' Hr') as [_ (t' & Hl' & Hcb' & ?)].
    exists t'. split; [|done]. rewrite lookup_delete_ne; [done|].
    intros Heq. rewrite <-Heq in Hl'. congruence.
  - intros h' t' requestId p [Hne Hl']%lookup_delete_Some Hcb'. eauto.
  - intros h' [t' [_ Hl']%lookup_delete_Some]. eauto.
Qed.

Lemma inv_init used : inv cfg used (@init_world V X).
Proof. split; [apply timer_inv_init|apply log_inv_init]. Qed.

Lemma inv_weaken used used' w : inv cfg used w → used ⊆ used' → inv cfg used' w.
Proof. intros [??] ?. split; [by eapply timer_inv_weaken|done]. Qed.

Lemma inv_finally used w : inv cfg used w → inv cfg used (finally_block w).
Proof.
  intros [Ht Hl]. split.
  - eapply (timer_inv_tick cfg used w); [done| |done| |done];
      [|simpl; reflexivity]; done.
  - by eapply (log_inv_same w).
Qed.

Lemma inv_processQueue used w : inv cfg used w → inv cfg used (processQueue cfg w).
Proof.
  intros [Ht Hl].
  destruct (processQueue_cases cfg w) as [[-> _]|(r & rest & Hq & _ & Heq)]; [done|].
  simpl in Heq. rewrite Heq. clear Heq.
  assert (timeout r ≠ 0%nat) as Hh.
  { eapply timer_inv_handle; [done|]. rewrite Hq. by left. }
  rewrite !clear_if_set_armed by done.
  set (w1 := set_running (running w ++ [r])
               (set_started (started w ++ [r])
                  (clearTimeout (timeout r)
                     (set_processing (processing w + 1) (set_queue rest w))))).
  assert (timer_inv cfg used w1) as Ht1.
  { by eapply (timer_inv_remove cfg used w w1 [] r rest). }
  assert (log_inv w1) as Hl1.
  { by eapply (log_inv_start w w1 [] r rest). }
  destruct (operation r) as [|x].
  - by split.
  - split.
    + eapply (timer_inv_tick cfg used w1); [done| |done| |done];
        [|simpl; reflexivity]; done.
    + eapply (log_inv_finish w1 _ (running w) r [] (Rejected (OperationError x)));
        try done. simpl. by rewrite app_nil_r.
Qed.

Lemma inv_evict used w : inv cfg used w → inv cfg used (evict cfg w).
Proof.
  intros [Ht Hl].
  destruct (evict_cases cfg w) as [[-> _]|[(-> & _)|(r & rest & Hq & _ & ->)]]; [done..|].
  assert (timeout r ≠ 0%nat) as Hh.
  { eapply timer_inv_handle; [done|]. rewrite Hq. by left. }
  rewrite clear_if_set_armed by done. split.
  - by eapply (timer_inv_remove cfg used w _ [] r rest).
  - eapply (log_inv_drop w _ [] r rest (Rejected QueueOverflow)); try done. by intros [].
Qed.

Lemma inv_submit used ty op suffix dateNow w :
  inv cfg used w → make_id ty suffix ∉ used →
  inv cfg (make_id ty suffix :: used) (submit cfg ty op suffix dateNow w).
Proof.
  intros [Ht Hl]%inv_evict Hfresh. unfold submit.
  set (w0 := evict cfg w) in *.
  set (r := new_request ty op suffix dateNow w0).
  destruct (insert_by_timestamp_spec r (queue w0)) as (q1 & q2 & Hq & Hins & _).
  split.
  - eapply (timer_inv_submit cfg used w0 _ r q1 q2); try done; done.
  - by eapply (log_inv_submit w0 _ q1 r q2).
Qed.

Lemma inv_on_timeout used w h t requestId p :
  inv cfg used w → timers w !! h = Some t → callback t = TimeoutCb requestId p →
  inv cfg used (on_timeout requestId p (clearTimeout h w)).
Proof.
  intros [Ht Hl] Hlh Hcb.
  destruct (ti_timers _ _ _ Ht _ _ _ _ Hlh Hcb) as (r & Hr & Hrh & Hrid & Hrp).
  apply list_elem_of_split in Hr as (q1 & q2 & Hq).
  assert (timeout r ≠ 0%nat) as Hh.
  { eapply timer_inv_handle; [done|]. rewrite Hq. set_solver. }
  pose proof (ti_ids _ _ _ Ht) as Hids. rewrite Hq in Hids.
  apply NoDup_fmap_middle in Hids as [Hfresh _].
  unfold on_timeout.
  rewrite (removeFromQueue_found requestId (clearTimeout h w) q1 r q2); [|done|done|].
  - rewrite clear_if_set_armed by done. subst h p. split.
    + eapply (timer_inv_remove cfg used w _ q1 r q2); try done.
      simpl. by rewrite delete_delete_eq.
    + eapply (log_inv_drop w _ q1 r q2 (Rejected RequestTimeout)); try done. by intros [].
  - apply Forall_forall. intros x Hx Heq. apply Hfresh.
    rewrite Hrid, <-Heq. apply list_elem_of_fmap_2. set_solver.
Qed.

Lemma inv_resume used w i r out :
  inv cfg used w → running w !! i = Some r →
  inv cfg used (resume r out (set_running (delete i (running w)) w)).
Proof.
  intros [Ht Hl] Hi.
  pose proof (take_drop_middle _ _ _ Hi) as Hsplit.
  set (s := match out with
            | inl result => Resolved result
            | inr error => Rejected (OperationError error)
            end : Settlement V X).
  assert (from_operation s) as Hs by (subst s; by destruct out).
  assert (inv cfg used (settle (promise r) s (set_running (delete i (running w)) w))) as Hw.
  { split.
    - by eapply (timer_inv_same cfg used w).
    - eapply (log_inv_finish w _ (take i (running w)) r (drop (S i) (running w)) s);
        try done. simpl. by rewrite delete_take_drop. }
  unfold resume. apply inv_finally. subst s. by destruct out.
Qed.

Lemma inv_step used e w w' :
  inv cfg used w → step cfg e w = Some w' →
  (∀ x, x ∈ enqueue_ids [e] → x ∉ used) →
  inv cfg (enqueue_ids [e] ++ used) w'.
Proof.
  destruct e as [ty op suffix dateNow|p out|h|d]; simpl; intros Hw Hstep Hfresh.
  - injection Hstep as <-. apply inv_processQueue, inv_submit; [done|].
    apply Hfresh. by left.
  - destruct (list_find _ (running w)) as [[i request]|] eqn:Hf; [|done].
    injection Hstep as <-. apply list_find_Some in Hf as (Hi & _ & _).
    by apply inv_resume.
  - destruct (timers w !! h) as [t|] eqn:Hl; [|done].
    case_bool_decide; [|done]. injection Hstep as <-.
    destruct (callback t) as [requestId p|] eqn:Hcb; simpl.
    + by eapply inv_on_timeout.
    + apply inv_processQueue. destruct Hw as [Ht Hlog]. split.
      * by eapply (timer_inv_clear_tick used w).
      * by eapply (log_inv_same w).
  - case_bool_decide; [|done]. injection Hstep as <-.
    destruct Hw as [Ht Hlog]. split.
    + by eapply (timer_inv_same cfg used w).
    + by eapply (log_inv_same w).
Qed.

Lemma enqueue_ids_cons e (evs : list Event) :
  enqueue_ids (e :: evs) = enqueue_ids [e] ++ enqueue_ids evs.
Proof. unfold enqueue_ids. simpl. by destruct e. Qed.

Lemma inv_run evs used w w' :
  inv cfg used w → run cfg evs w = Some w' →
  NoDup (enqueue_ids evs) → (∀ x, x ∈ enqueue_ids evs → x ∉ used) →
  inv cfg (enqueue_ids evs ++ used) w'.
Proof.
  revert used w. induction evs as [|e evs IH]; intros used w Hw Hrun Hnd Hfresh;
    simpl in Hrun.
  { by simplify_eq. }
  destruct (step cfg e w) as [w1|] eqn:Hstep; [|done]. simpl in Hrun.
  rewrite enqueue_ids_cons in Hnd, Hfresh |- *.
  apply NoDup_app in Hnd as (Hnd1 & Hdisj & Hnd2).
  eapply inv_weaken.
  - eapply (IH (enqueue_ids [e] ++ used) w1); [|done|done|].
    + eapply inv_step; [done..|]. intros x Hx. apply Hfresh. set_solver.
    + intros x Hx [Hin|Hin]%elem_of_app.
      * by eapply Hdisj.
      * eapply Hfresh; [|done]. set_solver.
  - intros x. rewrite !elem_of_app. tauto.
Qed.

(** What holds after any sequence of events in which the generated
    request ids are pairwise distinct. *)
Lemma reachable_inv evs w :
  run cfg evs init_world = Some w → NoDup (enqueue_ids evs) →
  inv cfg (enqueue_ids evs) w.
Proof.
  intros Hrun Hnd.
  rewrite <-(app_nil_r (enqueue_ids evs)). eapply inv_run; [apply inv_init|done..|].
  intros x _ Hx. by apply elem_of_nil in Hx.
Qed.
End inv_facts.

(** ** The order in which operations start *)

Section order_facts.
Context {V X : Type}.
Abbreviation QueuedRequest := (QueuedRequest X).
Abbreviation World := (World V X).
Abbreviation Event := (Event V X).
Implicit Types (w : World) (r : QueuedRequest) (q : list QueuedRequest).
Implicit Types (R : relation QueuedRequest).
Variable cfg : Config.

Lemma StronglySorted_sublist {A} (R : relation A) l1 l2 :
  l1 `sublist_of` l2 → StronglySorted R l2 → StronglySorted R l1.
Proof.
  induction 1 as [|x l1 l2 Hsub IH|x l1 l2 Hsub IH];
    [done|intros [Hx Hs]%StronglySorted_cons..].
  - apply StronglySorted_cons. split; [|by apply IH].
    apply Forall_forall. intros y Hy. rewrite Forall_forall in Hx.
    apply Hx. by eapply elem_of_sublist.
  - by apply IH.
Qed.

Lemma StronglySorted_insert_middle {A} (R : relation A) l1 x l2 :
  StronglySorted R (l1 ++ l2) →
  (∀ a, a ∈ l1 → R a x) → (∀ b, b ∈ l2 → R x b) →
  StronglySorted R (l1 ++ x :: l2).
Proof.
  intros (Hcross & Hs1 & Hs2)%StronglySorted_app Hl1 Hl2.
  apply StronglySorted_app_2; [|done|].
  - intros a b Ha [->|Hb]%elem_of_cons; [by apply Hl1|by apply Hcross].
  - apply StronglySorted_cons. split; [|done]. by apply Forall_forall.
Qed.

(** The operations started followed by the requests pending, in one line:
    [processQueue] moves the boundary, not the requests. *)
Lemma line_processQueue w :
  started (processQueue cfg w) ++ queue (processQueue cfg w) = started w ++ queue w ∧
  nextPromise (processQueue cfg w) = nextPromise w.
Proof.
  destruct (processQueue_cases cfg w) as [[-> _]|(r & rest & Hq & _ & Heq)]; [done|].
  simpl in Heq. rewrite Heq, Hq. clear Heq.
  unfold clear_if_set.
  destruct (operation r); case_bool_decide; simpl; by rewrite <-app_assoc.
Qed.

Lemma line_evict w :
  started (evict cfg w) = started w ∧
  queue (evict cfg w) `sublist_of` queue w ∧
  nextPromise (evict cfg w) = nextPromise w.
Proof.
  destruct (evict_cases cfg w) as [[-> _]|[(-> & _)|(r & rest & Hq & _ & ->)]]; [done..|].
  rewrite Hq. unfold clear_if_set.
  case_bool_decide; simpl; split_and!; try done; by apply sublist_cons.
Qed.

Lemma line_on_timeout requestId p w :
  started (on_timeout requestId p w) = started w ∧
  queue (on_timeout requestId p w) `sublist_of` queue w ∧
  nextPromise (on_timeout requestId p w) = nextPromise w.
Proof.
  unfold on_timeout.
  destruct (removeFromQueue_cases requestId w) as [->|(q1 & r & q2 & Hq & _ & _ & ->)]; [done|].
  rewrite Hq. unfold clear_if_set.
  case_bool_decide; simpl; split_and!; try done;
    by apply sublist_app, sublist_cons.
Qed.

Lemma line_step_other e w w' :
  step cfg e w = Some w' → enqueue_ids [e] = [] →
  started w' ++ queue w' `sublist_of` started w ++ queue w ∧
  nextPromise w' = nextPromise w.
Proof.
  destruct e as [ty op suffix dateNow|p out|h|d]; simpl; intros Hstep Hne; [done|..].
  - destruct (list_find _ (running w)) as [[i request]|] eqn:Hf; [|done].
    injection Hstep as <-. unfold resume. by destruct out.
  - destruct (timers w !! h) as [t|]; [|done].
    case_bool_decide; [|done]. injection Hstep as <-.
    destruct (callback t); cbn [run_callback].
    + destruct (line_on_timeout requestId reject (clearTimeout h w)) as (-> & Hsub & ->).
      split; [|done]. by apply sublist_app.
    + by destruct (line_processQueue (clearTimeout h w)) as [-> ->].
  - case_bool_decide; [|done]. by injection Hstep as <-.
Qed.

Lemma line_enqueue ty op suffix dateNow w :
  let r := new_request ty op suffix dateNow (evict cfg w) in
  let w' := enqueue cfg ty op suffix dateNow w in
  ∃ q1 q2,
    started w' ++ queue w' = started w ++ q1 ++ r :: q2 ∧
    q1 ++ q2 `sublist_of` queue w ∧
    Forall (λ x, timestamp x ≤ dateNow) q1 ∧
    (∀ y, head q2 = Some y → dateNow < timestamp y) ∧
    nextPromise w' = S (nextPromise w) ∧
    promise r = nextPromise w ∧ timestamp r = dateNow.
Proof.
  intros r w'. subst w'. unfold enqueue.
  destruct (line_processQueue (submit cfg ty op suffix dateNow w)) as [-> ->].
  destruct (line_evict w) as (Hst & Hsub & Hnp).
  destruct (insert_by_timestamp_spec r (queue (evict cfg w)))
    as (q1 & q2 & Hq & Hins & Hq1 & Hq2).
  exists q1, q2. unfold submit. simpl. fold r.
  rewrite Hins, Hst, Hnp, <-Hq. done.
Qed.

(** Requests with equal timestamps stay in submission order, whatever the
    clock does. *)
Lemma tie_step e w w' :
  step cfg e w = Some w' → basic_inv w →
  StronglySorted tie_le (started w ++ queue w) →
  Forall (λ x, (promise x < nextPromise w)%nat) (started w ++ queue w) →
  StronglySorted tie_le (started w' ++ queue w') ∧
  Forall (λ x, (promise x < nextPromise w')%nat) (started w' ++ queue w').
Proof.
  intros Hstep [_ Hsorted] Hs Hlt.
  destruct (decide (enqueue_ids [e] = [])) as [Hother|Henq].
  { destruct (line_step_other e w w' Hstep Hother) as [Hsub ->].
    split; [by eapply StronglySorted_sublist|].
    rewrite Forall_forall in Hlt |- *. intros x Hx. apply Hlt. by eapply elem_of_sublist. }
  destruct e as [ty op suffix dateNow| | |]; try done. clear Henq.
  simpl in Hstep. injection Hstep as <-.
  destruct (line_enqueue ty op suffix dateNow w)
    as (q1 & q2 & -> & Hsub & Hq1 & Hq2 & -> & Hpr & Hts).
  set (r := new_request ty op suffix dateNow (evict cfg w)) in *.
  assert (started w ++ q1 ++ q2 `sublist_of` started w ++ queue w) as Hsub'.
  { by apply sublist_app. }
  rewrite Forall_forall in Hlt.
  assert (∀ x, x ∈ started w ++ q1 ++ q2 → (promise x < nextPromise w)%nat) as Hlt'.
  { intros x Hx. apply Hlt. by eapply elem_of_sublist. }
  split.
  - rewrite app_assoc. apply StronglySorted_insert_middle.
    + rewrite <-app_assoc. by eapply StronglySorted_sublist.
    + intros a Ha _. rewrite Hpr. apply Hlt'. set_solver.
    + intros b Hb Heq. exfalso.
      apply (StronglySorted_sublist _ _ _ Hsub) in Hsorted.
      apply StronglySorted_app_1_r in Hsorted.
      destruct q2 as [|y q2]; [by apply elem_of_nil in Hb|].
      specialize (Hq2 y eq_refl).
      apply StronglySorted_cons in Hsorted as [Hy _]. rewrite Forall_forall in Hy.
      apply elem_of_cons in Hb as [->|Hb]; [lia|].
      specialize (Hy b Hb). unfold ts_le in Hy. lia.
  - apply Forall_forall. intros x Hx.
    assert (x = r ∨ x ∈ started w ++ q1 ++ q2) as [->|Hin] by set_solver.
    + lia.
    + specialize (Hlt' x Hin). lia.
Qed.

Lemma tie_run evs w w' :
  run cfg evs w = Some w' → basic_inv w →
  StronglySorted tie_le (started w ++ queue w) →
  Forall (λ x, (promise x < nextPromise w)%nat) (started w ++ queue w) →
  StronglySorted tie_le (started w' ++ queue w').
Proof.
  revert w. induction evs as [|e evs IH]; simpl; intros w Hrun Hb Hs Hlt; [by simplify_eq|].
  destruct (step cfg e w) as [w1|] eqn:Hstep; [|done]. simpl in Hrun.
  destruct (tie_step e w w1 Hstep Hb Hs Hlt). eauto using basic_inv_step.
Qed.

(** When the clock readings never decrease, the line is in submission
    order, which is then timestamp order too.  [hi] bounds the readings
    so far. *)
Lemma fifo_step hi e w w' :
  step cfg e w = Some w' →
  Forall (λ ts, hi ≤ ts) (enqueue_timestamps [e]) →
  StronglySorted fifo_le (started w ++ queue w) →
  Forall (λ x, timestamp x ≤ hi ∧ (promise x < nextPromise w)%nat) (started w ++ queue w) →
  let hi' := default hi (head (enqueue_timestamps [e])) in
  StronglySorted fifo_le (started w' ++ queue w') ∧
  Forall (λ x, timestamp x ≤ hi' ∧ (promise x < nextPromise w')%nat)
    (started w' ++ queue w').
Proof.
  intros Hstep Hhi Hs Hlt.
  destruct (decide (enqueue_ids [e] = [])) as [Hother|Henq].
  { destruct (line_step_other e w w' Hstep Hother) as [Hsub ->].
    assert (enqueue_timestamps [e] = []) as -> by (by destruct e).
    split; [by eapply StronglySorted_sublist|]. simpl.
    rewrite Forall_forall in Hlt |- *. intros x Hx. apply Hlt. by eapply elem_of_sublist. }
  destruct e as [ty op suffix dateNow| | |]; try done. clear Henq.
  simpl in Hstep. injection Hstep as <-.
  apply Forall_cons in Hhi as [Hhi _].
  destruct (line_enqueue ty op suffix dateNow w)
    as (q1 & q2 & -> & Hsub & Hq1 & Hq2 & -> & Hpr & Hts).
  set (r := new_request ty op suffix dateNow (evict cfg w)) in *.
  assert (started w ++ q1 ++ q2 `sublist_of` started w ++ queue w) as Hsub'.
  { by apply sublist_app. }
  rewrite Forall_forall in Hlt.
  assert (∀ x, x ∈ started w ++ q1 ++ q2 →
               timestamp x ≤ hi ∧ (promise x < nextPromise w)%nat) as Hlt'.
  { intros x Hx. apply Hlt. by eapply elem_of_sublist. }
  assert (q2 = []) as ->.
  { destruct q2 as [|y q2]; [done|]. specialize (Hq2 y eq_refl).
    destruct (Hlt' y) as [? _]; [set_solver|]. lia. }
  simpl. split.
  - rewrite app_assoc. apply StronglySorted_insert_middle.
    + rewrite <-app_assoc. by eapply StronglySorted_sublist.
    + intros a Ha. destruct (Hlt' a) as [??]; [set_solver|].
      split; [rewrite Hts; lia|rewrite Hpr; lia].
    + intros b Hb. by apply elem_of_nil in Hb.
  - apply Forall_forall. intros x Hx.
    assert (x = r ∨ x ∈ started w ++ q1 ++ []) as [->|Hin] by set_solver.
    + split; [lia|lia].
    + destruct (Hlt' x Hin). split; lia.
Qed.

Lemma enqueue_timestamps_cons e (evs : list Event) :
  enqueue_timestamps (e :: evs) = enqueue_timestamps [e] ++ enqueue_timestamps evs.
Proof. unfold enqueue_timestamps. simpl. by destruct e. Qed.

Lemma fifo_run evs hi w w' :
  run cfg evs w = Some w' →
  StronglySorted Z.le (enqueue_timestamps evs) →
  Forall (λ ts, hi ≤ ts) (enqueue_timestamps evs) →
  StronglySorted fifo_le (started w ++ queue w) →
  Forall (λ x, timestamp x ≤ hi ∧ (promise x < nextPromise w)%nat) (started w ++ queue w) →
  StronglySorted fifo_le (started w' ++ queue w').
Proof.
  revert hi w. induction evs as [|e evs IH]; intros hi w Hrun Hmono Hhi Hs Hlt;
    simpl in Hrun; [by simplify_eq|].
  destruct (step cfg e w) as [w1|] eqn:Hstep; [|done]. simpl in Hrun.
  rewrite enqueue_timestamps_cons in Hmono, Hhi.
  apply Forall_app in Hhi as [Hhi1 Hhi2].
  apply StronglySorted_app in Hmono as (Hcross & _ & Hmono).
  destruct (fifo_step hi e w w1 Hstep Hhi1 Hs Hlt) as [Hs1 Hlt1].
  eapply (IH (default hi (head (enqueue_timestamps [e]))) w1); [done|done| |done|done].
  apply Forall_forall. intros ts Hts.
  destruct (enqueue_timestamps [e]) as [|t l] eqn:He; simpl.
  - rewrite Forall_forall in Hhi2. by apply Hhi2.
  - apply Hcross; [by left|done].
Qed.
End order_facts.

(** ** How many requests can overflow *)

Section count_facts.
Context {V X : Type}.
Abbreviation QueuedRequest := (QueuedRequest X).
Abbreviation World := (World V X).
Abbreviation Event := (Event V X).
Implicit Types (w : World) (r : QueuedRequest) (q : list QueuedRequest).
Variable cfg : Config.

Lemma overflowed_settle p (s : Settlement V X) w :
  overflowed (settle p s w) = overflowed w ++ (if is_overflow s then [p] else []).
Proof.
  unfold overflowed. simpl. rewrite filter_app, fmap_app. f_equal.
  rewrite filter_cons. simpl. destruct (is_overflow s); by simpl.
Qed.

Ltac count_simpl :=
  unfold overflowed in *; simpl in *;
  rewrite ?filter_app, ?fmap_app, ?length_app; simpl; lia.

Lemma count_inv_init : count_inv cfg (@init_world V X).
Proof. split; simpl; lia. Qed.

Lemma count_inv_processQueue_weak w :
  Z.of_nat (length (queue w)) + Z.of_nat (length (started w))
    + Z.of_nat (length (overflowed w)) ≤ Z.of_nat (nextPromise w) →
  (1 < Z.of_nat (length (queue w)) → MAX_CONCURRENT cfg ≤ Z.of_nat (length (started w))) →
  (0 < Z.of_nat (length (overflowed w)) →
   Z.of_nat (length (overflowed w)) + MAX_CONCURRENT cfg + MAX_QUEUE_SIZE cfg
     ≤ Z.of_nat (nextPromise w)) →
  processing w ≤ Z.of_nat (length (started w)) →
  count_inv cfg (processQueue cfg w).
Proof.
  intros Ht Hb Ho Hp.
  destruct (processQueue_cases cfg w) as [[-> Hidle]|(r & rest & Hq & Hlt & Heq)].
  { split; try done. intros Hpos. destruct Hidle as [?|Hq]; [lia|].
    rewrite Hq in Hpos. simpl in Hpos. lia. }
  simpl in Heq. rewrite Heq. clear Heq. rewrite Hq in Ht, Hb. simpl in Ht, Hb.
  unfold clear_if_set.
  destruct (operation r); case_bool_decide; split; count_simpl.
Qed.

Lemma count_inv_processQueue w : count_inv cfg w → count_inv cfg (processQueue cfg w).
Proof. intros [Ht Hb Ho Hp]. apply count_inv_processQueue_weak; try done. lia. Qed.

Lemma count_inv_enqueue ty op suffix dateNow w :
  count_inv cfg w → count_inv cfg (enqueue cfg ty op suffix dateNow w).
Proof.
  intros [Ht Hb Ho Hp]. unfold enqueue.
  assert (length (queue (submit cfg ty op suffix dateNow w))
          = S (length (queue (evict cfg w)))) as Hlen.
  { unfold submit. simpl. by rewrite insert_by_timestamp_perm. }
  apply count_inv_processQueue_weak; rewrite ?Hlen; unfold submit;
    unfold overflowed in *; simpl;
    destruct (evict_cases cfg w) as [[-> ?]|[(-> & ? & ?)|(r & rest & Hq & ? & ->)]];
    try lia;
    rewrite Hq in *; unfold clear_if_set; case_bool_decide; count_simpl.
Qed.

Lemma count_inv_on_timeout requestId p w :
  count_inv cfg w → count_inv cfg (on_timeout requestId p w).
Proof.
  intros [Ht Hb Ho Hp]. unfold on_timeout.
  destruct (removeFromQueue_cases requestId w) as [->|(q1 & r & q2 & Hq & _ & _ & ->)].
  - split; count_simpl.
  - rewrite Hq, length_app in Ht, Hb. simpl in Ht, Hb.
    unfold clear_if_set. case_bool_decide; split; count_simpl.
Qed.

Lemma count_inv_step e w w' :
  step cfg e w = Some w' → count_inv cfg w → count_inv cfg w'.
Proof.
  destruct e as [ty op suffix dateNow|p out|h|d]; simpl; intros Hstep Hw.
  - injection Hstep as <-. by apply count_inv_enqueue.
  - destruct (list_find _ (running w)) as [[i request]|] eqn:Hf; [|done].
    injection Hstep as <-. destruct Hw as [Ht Hb Ho Hp].
    unfold resume. destruct out; split; count_simpl.
  - destruct (timers w !! h) as [t|]; [|done].
    case_bool_decide; [|done]. injection Hstep as <-.
    assert (count_inv cfg (clearTimeout h w)) by (destruct Hw; by split).
    destruct (callback t); cbn [run_callback].
    + by apply count_inv_on_timeout.
    + by apply count_inv_processQueue.
  - case_bool_decide; [|done]. injection Hstep as <-. destruct Hw. by split.
Qed.

Lemma count_inv_run evs w w' :
  run cfg evs w = Some w' → count_inv cfg w → count_inv cfg w'.
Proof.
  revert w. induction evs as [|e evs IH]; simpl; intros w Hrun Hw; [by simplify_eq|].
  destruct (step cfg e w) as [w1|] eqn:Hstep; [|done]. simpl in Hrun.
  eauto using count_inv_step.
Qed.

(** One promise for each [enqueue] call. *)
Lemma nextPromise_run evs w w' :
  run cfg evs w = Some w' →
  nextPromise w' = (nextPromise w + length (enqueue_ids evs))%nat.
Proof.
  revert w. induction evs as [|e evs IH]; intros w Hrun; simpl in Hrun.
  { simplify_eq. simpl. lia. }
  destruct (step cfg e w) as [w1|] eqn:Hstep; [|done]. simpl in Hrun.
  rewrite (IH w1 Hrun), enqueue_ids_cons, length_app.
  destruct (decide (enqueue_ids [e] = [])) as [Hother|Henq].
  - destruct (line_step_other cfg e w w1 Hstep Hother) as [_ ->]. rewrite Hother. simpl. lia.
  - destruct e as [ty op suffix dateNow| | |]; try done.
    simpl in Hstep. injection Hstep as <-.
    destruct (line_enqueue cfg ty op suffix dateNow w) as (? & ? & _ & _ & _ & _ & -> & _).
    simpl. lia.
Qed.
End count_facts.

(** ** What single events do in a reachable world *)

Section step_facts.
Context {V X : Type}.
Abbreviation QueuedRequest := (QueuedRequest X).
Abbreviation World := (World V X).
Abbreviation Event := (Event V X).
Implicit Types (w : World) (r : QueuedRequest) (q : list QueuedRequest).
Implicit Types (s : Settlement V X).
Variable cfg : Config.



Lemma settle_count_settle p p' s w :
  settle_count p (settle p' s w)
  = (settle_count p w + if decide (p' = p) then 1 else 0)%nat.
Proof.
  unfold settle_count. simpl. rewrite filter_app, length_app. f_equal.
  rewrite filter_cons. simpl. by destruct (decide (p' = p)).
Qed.








(** The operation of a running request ends: its promise is settled with
    the outcome. *)
Lemma step_operation_settles used w r out :
  inv cfg used w → r ∈ running w →
  ∃ w', step cfg (OperationSettles (promise r) out) w = Some w' ∧
    settled w' = settled w ++
      [(promise r, match out with
                   | inl v => Resolved v
                   | inr x => Rejected (OperationError x)
                   end)] ∧
    started w' = started w ∧ queue w' = queue w ∧ nextPromise w' = nextPromise w.
Proof.
  intros [Ht Hl] Hr. simpl.
  destruct (list_find_elem_of (λ r', promise r' = promise r) (running w) r Hr eq_refl)
    as [[i r'] Hfind].
  rewrite Hfind. apply list_find_Some in Hfind as (Hi & Heq & _).
  eexists. split; [done|]. unfold resume. rewrite Heq. by destruct out.
Qed.
End step_facts.

(** ** The manager can always come to rest *)

Section drain_facts.
Context {V X : Type}.
Abbreviation QueuedRequest := (QueuedRequest X).
Abbreviation World := (World V X).
Abbreviation Event := (Event V X).
Implicit Types (w : World) (r : QueuedRequest) (q : list QueuedRequest).
Variable cfg : Config.










End drain_facts.

(** * The claims of the specification *)

Section claims.
Context {V X : Type}.
Abbreviation QueuedRequest := (QueuedRequest X).
Abbreviation World := (World V X).
Abbreviation Event := (Event V X).
Implicit Types (w : World) (r : QueuedRequest) (q : list QueuedRequest).
Implicit Types (evs : list Event).

(** C2.  At every reachable state of the scheduler the in-flight counter
    [processing] lies between [0] and [MAX_CONCURRENT]; it is the number of
    operations that were called and have not yet completed, so however many
    operations are submitted, never more than [MAX_CONCURRENT] of them
    execute at the same time. *)
Theorem concurrency_ceiling cfg evs w :
  0 ≤ MAX_CONCURRENT cfg →
  run cfg evs init_world = Some w →
  0 ≤ processing w ≤ MAX_CONCURRENT cfg ∧
  processing w = Z.of_nat (length (running w)) ∧
  Z.of_nat (length (running w)) ≤ MAX_CONCURRENT cfg.
Proof.
  intros Hc Hrun.
  pose proof (basic_inv_run cfg evs _ _ Hrun basic_inv_init) as [Hp _].
  assert (within_concurrency cfg w) as Hle.
  { eapply within_concurrency_run; [done|apply basic_inv_init|].
    unfold within_concurrency. simpl. lia. }
  unfold within_concurrency in Hle. lia.
Qed.


(** C6 as the code has it.  [getStatus] returns an object with exactly the
    fields [queueSize], [processing], [maxConcurrent] and [maxQueueSize]:
    the length of the pending queue, the in-flight counter and the two
    configured limits; and it leaves the scheduler as it found it. *)
Theorem getStatus_snapshot cfg w :
  (getStatus cfg w).2 = w ∧
  dom (getStatus cfg w).1
    = ({[ "queueSize"; "processing"; "maxConcurrent"; "maxQueueSize" ]} : gset string) ∧
  (getStatus cfg w).1 !! "queueSize" = Some (Z.of_nat (length (queue w))) ∧
  (getStatus cfg w).1 !! "processing" = Some (processing w) ∧
  (getStatus cfg w).1 !! "maxConcurrent" = Some (MAX_CONCURRENT cfg) ∧
  (getStatus cfg w).1 !! "maxQueueSize" = Some (MAX_QUEUE_SIZE cfg) ∧
  (getQueueStatus w).2 = w ∧
  (getQueueStatus w).1
    = {[ "queueSize" := Z.of_nat (length (queue w)); "processing" := processing w;
         "maxConcurrent" := 3; "maxQueueSize" := 1000 ]}.
Proof.
  unfold getQueueStatus, getStatus. simpl. by split_and!.
Qed.
End claims.

(** C6 as the specification has it fails: the object [getStatus] returns
    has no field [inFlight]. *)
Lemma getStatus_has_no_inFlight :
  (getQueueStatus (@init_world unit unit)).1 !! "inFlight" = None ∧
  dom (getQueueStatus (@init_world unit unit)).1
    ≠ ({[ "queueSize"; "inFlight"; "maxConcurrent"; "maxQueueSize" ]} : gset string).
Proof.
  split; [done|]. intros Heq.
  assert ("inFlight" ∈ dom (getQueueStatus (@init_world unit unit)).1) as Hin.
  { rewrite Heq. set_solver. }
  apply elem_of_dom in Hin as [? Hin]. done.
Qed.


Section claims_of_reachable_worlds.
Context {V X : Type}.
Abbreviation QueuedRequest := (QueuedRequest X).
Abbreviation World := (World V X).
Abbreviation Event := (Event V X).
Implicit Types (w : World) (r : QueuedRequest) (q : list QueuedRequest).
Implicit Types (evs : list Event) (s : Settlement V X).





(** C5 as the code has it.  Admission takes the entry at the head of the
    pending queue, which has the least timestamp of the pending entries;
    requests with the same timestamp start in the order they were
    submitted; and when the timestamps read at submission never decrease,
    operations start in the order they were submitted, which is then the
    order of their timestamps. *)
Theorem fifo_admission cfg evs w :
  run cfg evs init_world = Some w →
  (processQueue cfg w = w ∨
   ∃ r rest, queue w = r :: rest ∧ Forall (ts_le r) rest ∧
     queue (processQueue cfg w) = rest ∧
     started (processQueue cfg w) = started w ++ [r]) ∧
  StronglySorted tie_le (started w ++ queue w) ∧
  (StronglySorted Z.le (enqueue_timestamps evs) →
   StronglySorted fifo_le (started w ++ queue w) ∧
   StronglySorted Z.le (timestamp <$> started w) ∧
   StronglySorted lt (promise <$> started w)).
Proof.
  intros Hrun.
  pose proof (basic_inv_run cfg evs _ _ Hrun basic_inv_init) as [_ Hsorted].
  split_and!.
  - destruct (processQueue_cases cfg w) as [[-> _]|(r & rest & Hq & _ & Heq)]; [by left|].
    right. exists r, rest. simpl in Heq. rewrite Heq. clear Heq.
    rewrite Hq in Hsorted. apply StronglySorted_cons in Hsorted as [Hall _].
    unfold clear_if_set. destruct (operation r); case_bool_decide; by simpl.
  - eapply tie_run; [done|apply basic_inv_init|constructor|constructor].
  - intros Hmono.
    assert (StronglySorted fifo_le (started w ++ queue w)) as Hfifo.
    { destruct (enqueue_timestamps evs) as [|ts0 l] eqn:Hts.
      - eapply (fifo_run cfg evs 0); [done|by rewrite Hts|by rewrite Hts|constructor..].
      - eapply (fifo_run cfg evs ts0); [done|by rewrite Hts| |constructor..].
        rewrite Hts. apply StronglySorted_cons in Hmono as [Hall _].
        constructor; [lia|done]. }
    split; [done|]. apply StronglySorted_app_1_l in Hfifo.
    split.
    + apply StronglySorted_fmap with (R1 := fifo_le); [|done]. by intros ?? [? _].
    + apply StronglySorted_fmap with (R1 := fifo_le); [|done]. by intros ?? [_ ?].
Qed.

(** C8 as the code has it.  With [MAX_CONCURRENT = 3] and
    [MAX_QUEUE_SIZE = 5], ten submissions to a fresh manager lead to at most
    two overflow failures, whatever happens in between.  Submitted in one
    burst they lead to exactly two, for the fourth and the fifth submission:
    the first three are admitted at once, the next five fill the queue, and
    the last two each push out the oldest pending request; the other eight
    succeed when their operations do. *)
Theorem ten_submissions_overflow_twice evs w (v : V) :
  run example_config evs init_world = Some w →
  length (enqueue_ids evs) = 10%nat →
  (length (overflowed w) ≤ 2)%nat ∧
  ∃ wb wf : World,
    run example_config ten_submissions init_world = Some wb ∧
    overflowed wb = [3; 4]%nat ∧
    promise <$> started wb = [0; 1; 2]%nat ∧
    promise <$> queue wb = [5; 6; 7; 8; 9]%nat ∧
    run example_config (ten_completions v) wb = Some wf ∧
    overflowed wf = [3; 4]%nat ∧
    resolved wf = [0; 1; 2; 5; 6; 7; 8; 9]%nat ∧
    quiescent wf.
Proof.
  intros Hrun Hlen. split.
  - pose proof (count_inv_run _ evs _ _ Hrun (count_inv_init _)) as [_ _ Ho _].
    pose proof (nextPromise_run _ evs _ _ Hrun) as Hnp.
    rewrite Hlen in Hnp. simpl in *. lia.
  - eexists. eexists. split; [vm_compute; reflexivity|].
    split_and!; try (vm_compute; reflexivity). split; vm_compute; reflexivity.
Qed.
End claims_of_reachable_worlds.

(** ** The like operation *)

Section like_facts.
Import Likes.
Implicit Types (be : Backend) (tr ext : list Interaction).

Lemma checkIfLiked_run be tr contentItemId userIdentifier :
  ∃ b i, checkIfLiked contentItemId userIdentifier be tr = (Return b, tr ++ [i]) ∧
    (b = true ↔ reports_liked i) ∧ ¬ duplicate_failure i.
Proof.
  unfold checkIfLiked, try_catch, mbind, async_bind, bind, query_user_likes, await, ret.
  destruct (select_user_likes be tr contentItemId userIdentifier) as [a|x] eqn:Ha.
  - destruct (error a) as [e|] eqn:He.
    + eexists _, _. split; [done|]. simpl. rewrite He. split; [|tauto].
      split; [done|]. by intros [? _].
    + eexists _, _. split; [done|]. simpl. rewrite He. split; [|tauto].
      rewrite bool_decide_eq_true. tauto.
  - eexists _, _. split; [done|]. simpl. split; [|tauto]. split; [done|tauto].
Qed.

Lemma attempt_run be tr contentItemId userIdentifier :
  ∃ res ext, attempt contentItemId userIdentifier be tr = (res, tr ++ ext) ∧
    (res = Return Null ∨ Forall unremarkable ext).
Proof.
  unfold attempt, mbind, async_bind, bind.
  destruct (checkIfLiked_run be tr contentItemId userIdentifier)
    as (b & i & -> & Hb & Hdup).
  destruct b; simpl.
  { exists (Return Null), [i]. split; [done|by left]. }
  assert (unremarkable i) as Hi.
  { split; [|done]. intros Hl. apply Hb in Hl. done. }
  unfold call_add_like, await.
  destruct (rpc_add_like be (tr ++ [i]) contentItemId userIdentifier) as [a|x] eqn:Ha.
  - destruct (rpc_error a) as [e|] eqn:He.
    + destruct (is_duplicate e) eqn:Hd.
      * eexists _, [_; _]. rewrite <-app_assoc. split; [done|by left].
      * eexists _, [_; _]. rewrite <-app_assoc. split; [done|]. right.
        repeat constructor; try apply Hi; simpl; try tauto. rewrite He, Hd. tauto.
    + unfold query_item, await.
      destruct (select_item be _ contentItemId) as [it|x] eqn:Hit.
      * destruct (fetchError it); eexists _, [_; _; _]; rewrite <-!app_assoc;
          (split; [done|]); right;
          repeat constructor; try apply Hi; simpl; try tauto; rewrite He; tauto.
      * eexists _, [_; _; _]. rewrite <-!app_assoc. split; [done|]. right.
        repeat constructor; try apply Hi; simpl; try tauto; rewrite He; tauto.
  - eexists _, [_; _]. rewrite <-app_assoc. split; [done|]. right.
    repeat constructor; try apply Hi; simpl; tauto.
Qed.

Lemma retry_loop_run rounds retryCount be tr contentItemId userIdentifier :
  ∃ res ext,
    retry_loop rounds retryCount contentItemId userIdentifier be tr = (res, tr ++ ext) ∧
    (res = Return Null ∨ Forall unremarkable ext).
Proof.
  revert retryCount tr. induction rounds as [|rounds IH]; intros retryCount tr; simpl.
  { exists (Return Undefined), []. rewrite app_nil_r. split; [done|by right]. }
  unfold try_catch.
  destruct (attempt_run be tr contentItemId userIdentifier) as (res & ext & -> & Hres).
  destruct res as [a|x].
  { by exists (Return a), ext. }
  destruct Hres as [?|Hext]; [done|].
  case_bool_decide.
  { exists (Throw x), ext. split; [done|by right]. }
  unfold mbind, async_bind, bind, sleep.
  destruct (IH (retryCount + 1) ((tr ++ ext) ++ [Sleep (100 + (retryCount + 1) * 50)]))
    as (res & ext' & -> & Hres).
  exists res, (ext ++ [Sleep (100 + (retryCount + 1) * 50)] ++ ext').
  rewrite <-!app_assoc. split; [done|].
  destruct Hres as [->|Hext']; [by left|right].
  apply Forall_app. split; [done|]. apply Forall_app. split; [|done].
  repeat constructor; simpl; tauto.
Qed.

Lemma internalLikeContentItem_run be contentItemId userIdentifier :
  ∃ res tr,
    _internalLikeContentItem contentItemId userIdentifier be [] = (res, tr) ∧
    (res = Return Null ∨ Forall unremarkable tr).
Proof.
  unfold _internalLikeContentItem, try_catch, mbind, async_bind, bind.
  destruct (checkIfLiked_run be [] contentItemId userIdentifier)
    as (b & i & -> & Hb & Hdup).
  destruct b; cbv beta iota.
  { eexists _, _. split; [done|by left]. }
  assert (unremarkable i) as Hi.
  { split; [|done]. intros Hl. apply Hb in Hl. done. }
  destruct (retry_loop_run (Z.to_nat maxRetries) 0 be ([] ++ [i])
              contentItemId userIdentifier) as (res & ext & -> & Hres).
  exists res, ([i] ++ ext). split; [by destruct res|].
  destruct Hres as [->|Hext]; [by left|right].
  apply Forall_app. split; [|done]. by apply Forall_singleton.
Qed.

(** C9, the part that holds.  Whenever a read reports the item liked or
    [add_like] fails on the duplicate key, [_internalLikeContentItem]
    returns [null], and the queue manager resolves the promise of
    [likeContentItem] with it. *)
Lemma like_resolves_with_null be contentItemId userIdentifier :
  let res := (_internalLikeContentItem contentItemId userIdentifier be []).1 in
  let tr := (_internalLikeContentItem contentItemId userIdentifier be []).2 in
  Exists (λ i, reports_liked i ∨ duplicate_failure i) tr →
  res = Return Null ∧ outcome res = inl Null.
Proof.
  destruct (internalLikeContentItem_run be contentItemId userIdentifier)
    as (res & tr & -> & Hres).
  simpl. intros (i & Hin & Hi)%Exists_exists.
  destruct Hres as [->|Hclean]; [done|].
  rewrite Forall_forall in Hclean. destruct (Hclean i Hin). tauto.
Qed.
End like_facts.


(** * The theorems at work *)

Lemma ids_distinct (l : list string) : bool_decide (NoDup l) = true → NoDup l.
Proof. apply bool_decide_eq_true_1. Qed.

Lemma concurrency_ceiling_witness :
  ∃ w : World unit unit,
    run source_config (@ten_submissions unit unit) init_world = Some w ∧
    0 ≤ processing w ≤ 3 ∧
    processing w = Z.of_nat (length (running w)) ∧
    Z.of_nat (length (running w)) ≤ 3.
Proof.
  eexists. split; [vm_compute; reflexivity|].
  apply (concurrency_ceiling source_config (@ten_submissions unit unit));
    [simpl; lia|vm_compute; reflexivity].
Defined.





Lemma fifo_admission_witness :
  ∃ w : World unit unit,
    run serial_config (@three_in_turn unit unit ()) init_world = Some w ∧
    timestamp <$> started w = [0; 1; 2] ∧
    StronglySorted lt (promise <$> started w).
Proof.
  eexists. split; [vm_compute; reflexivity|]. split; [vm_compute; reflexivity|].
  destruct (fifo_admission serial_config (@three_in_turn unit unit ()) _
              ltac:(vm_compute; reflexivity)) as (_ & _ & Hmono).
  destruct Hmono as (_ & _ & Hlt); [|exact Hlt].
  repeat constructor; lia.
Defined.

Lemma ten_submissions_overflow_twice_witness :
  ∃ w : World unit unit,
    run example_config (@ten_submissions unit unit) init_world = Some w ∧
    (length (overflowed w) ≤ 2)%nat.
Proof.
  eexists. split; [vm_compute; reflexivity|].
  apply (ten_submissions_overflow_twice (@ten_submissions unit unit) _ ());
    vm_compute; reflexivity.
Defined.

(** C5 as the specification has it fails: a request admitted at once has
    started when a later submission reads an earlier clock. *)
Lemma start_order_against_timestamps :
  ∃ w : World unit unit,
    run source_config (@clock_set_back unit unit) init_world = Some w ∧
    timestamp <$> started w = [10; 5] ∧
    ¬ StronglySorted Z.le (timestamp <$> started w).
Proof.
  eexists. split; [vm_compute; reflexivity|]. split; [vm_compute; reflexivity|].
  intros Hs. change (StronglySorted Z.le [10; 5]) in Hs.
  apply StronglySorted_cons in Hs as [Hs _].
  apply Forall_cons in Hs as [Hs _]. lia.
Qed.

(** C8 as the specification has it fails: of ten submissions in a burst
    the first three run at once; only the fourth and the fifth are
    dropped. *)
Lemma ten_submissions_not_five_overflows :
  ∃ w : World unit unit,
    run example_config ((@ten_submissions unit unit) ++ @ten_completions unit unit ()) init_world = Some w ∧
    overflowed w = [3; 4]%nat ∧
    resolved w = [0; 1; 2; 5; 6; 7; 8; 9]%nat ∧
    length (overflowed w) ≠ 5%nat.
Proof.
  eexists. split; [vm_compute; reflexivity|].
  split_and!; [vm_compute; reflexivity..|]. vm_compute. congruence.
Qed.

(** * Further properties of the queue manager *)

Lemma filter_all {A} (P : A → Prop) `{!∀ x, Decision (P x)} (l : list A) :
  Forall P l → filter P l = l.
Proof.
  induction 1 as [|x l Hx _ IH]; [done|]. by rewrite filter_cons_True, IH.
Qed.

Section tick_facts.
Implicit Types (m : gmap nat Timer) (t : Timer).

Lemma tick_count_insert_tick m h t :
  m !! h = None → is_tick t = true → tick_count (<[h:=t]> m) = S (tick_count m).
Proof.
  intros Hm Ht. unfold tick_count.
  rewrite map_filter_insert_True by (simpl; by rewrite Ht).
  apply map_size_insert_None. apply map_lookup_filter_None. by left.
Qed.

Lemma tick_count_insert_timeout m h t :
  m !! h = None → is_tick t = false → tick_count (<[h:=t]> m) = tick_count m.
Proof.
  intros Hm Ht. unfold tick_count.
  rewrite map_filter_insert_False by (simpl; rewrite Ht; simpl; tauto).
  by rewrite delete_id.
Qed.

Lemma tick_count_delete_timeout m h t :
  m !! h = Some t → is_tick t = false → tick_count (delete h m) = tick_count m.
Proof.
  intros Hm Ht. unfold tick_count. rewrite map_filter_delete_not; [done|].
  intros t' Ht'. simpl. assert (t' = t) as -> by congruence. rewrite Ht. simpl. tauto.
Qed.

Lemma tick_count_delete_tick m h t :
  m !! h = Some t → is_tick t = true → S (tick_count (delete h m)) = tick_count m.
Proof.
  intros Hm Ht. unfold tick_count. rewrite map_filter_delete.
  rewrite map_size_delete.
  assert (filter (λ kv, Is_true (is_tick kv.2)) m !! h = Some t) as Hf.
  { apply map_lookup_filter_Some. split; [done|]. simpl. by rewrite Ht. }
  rewrite Hf.
  assert (size (filter (λ kv, Is_true (is_tick kv.2)) m) ≠ 0%nat).
  { apply map_size_ne_0_lookup. by eexists. }
  simpl. lia.
Qed.

Lemma tick_count_delete_absent m h : m !! h = None → tick_count (delete h m) = tick_count m.
Proof. intros Hm. by rewrite delete_id. Qed.
End tick_facts.

Section work_facts.
Context {V X : Type}.
Abbreviation QueuedRequest := (QueuedRequest X).
Abbreviation World := (World V X).
Abbreviation Event := (Event V X).
Implicit Types (w : World) (r : QueuedRequest) (q : list QueuedRequest).
Variable cfg : Config.

(** The timer of a pending request is not an admission. *)
Lemma pending_timer_not_tick used w r :
  timer_inv cfg used w → r ∈ queue w →
  timeout r ≠ 0%nat ∧ ∃ t, timers w !! timeout r = Some t ∧ is_tick t = false.
Proof.
  intros Ht Hr. split; [by eapply timer_inv_handle|].
  destruct (ti_armed _ _ _ Ht r Hr) as [_ (t & Hl & Hcb & _)].
  exists t. split; [done|]. unfold is_tick. by rewrite Hcb.
Qed.

Lemma next_handle_free used w : timer_inv cfg used w → timers w !! nextHandle w = None.
Proof.
  intros Ht. destruct (timers w !! nextHandle w) eqn:Hl; [|done].
  destruct (ti_handles _ _ _ Ht (nextHandle w)); [by eexists|]. lia.
Qed.

Lemma work_conserving_processQueue used w :
  timer_inv cfg used w →
  (∀ r rest, queue w = r :: rest → rest ≠ [] →
     MAX_CONCURRENT cfg ≤ processing w + 1 + Z.of_nat (ticks w)) →
  work_conserving cfg (processQueue cfg w).
Proof.
  intros Ht Hprem.
  destruct (processQueue_cases cfg w) as [[-> [Hfull|Hq]]|(r & rest & Hq & Hlt & Heq)].
  { intros _. lia. }
  { by intros ?. }
  simpl in Heq. rewrite Heq. clear Heq.
  assert (r ∈ queue w) as Hr by (rewrite Hq; by left).
  destruct (pending_timer_not_tick used w r Ht Hr) as (Hh & t & Hl & Htick).
  rewrite !clear_if_set_armed by done.
  specialize (Hprem r rest Hq).
  unfold work_conserving, ticks in *.
  destruct (operation r); simpl; intros Hrest; specialize (Hprem Hrest).
  - rewrite (tick_count_delete_timeout _ _ t) by done. lia.
  - rewrite tick_count_insert_tick; [| |done].
    + rewrite (tick_count_delete_timeout _ _ t) by done. lia.
    + rewrite lookup_delete_ne; [by eapply next_handle_free|].
      destruct (ti_handles _ _ _ Ht (timeout r)); [by eexists|]. simpl. lia.
Qed.

Lemma ticks_evict used w : timer_inv cfg used w → ticks (evict cfg w) = ticks w.
Proof.
  intros Ht.
  destruct (evict_cases cfg w) as [[-> _]|[(-> & _)|(r & rest & Hq & _ & ->)]]; [done..|].
  assert (r ∈ queue w) as Hr by (rewrite Hq; by left).
  destruct (pending_timer_not_tick used w r Ht Hr) as (Hh & t & Hl & Htick).
  rewrite clear_if_set_armed by done. unfold ticks. simpl.
  by rewrite (tick_count_delete_timeout _ _ t).
Qed.

Lemma work_conserving_enqueue used ty op suffix dateNow w :
  inv cfg used w → make_id ty suffix ∉ used → work_conserving cfg w →
  work_conserving cfg (enqueue cfg ty op suffix dateNow w).
Proof.
  intros Hw Hfresh Hwc. unfold enqueue.
  pose proof (inv_submit cfg used ty op suffix dateNow w Hw Hfresh) as [Hts _].
  apply (work_conserving_processQueue _ _ Hts).
  intros r rest Hq Hrest.
  pose proof (inv_evict cfg used w Hw) as [Hte _].
  assert (ticks (submit cfg ty op suffix dateNow w) = ticks w) as ->.
  { unfold submit, ticks. simpl.
    rewrite tick_count_insert_timeout; [by apply (ticks_evict used); destruct Hw| |done].
    by eapply next_handle_free. }
  assert (processing (submit cfg ty op suffix dateNow w) = processing w) as ->.
  { unfold submit. simpl. apply processing_evict. }
  assert (queue w ≠ []) as Hne.
  { intros Hnil.
    assert (length (queue (submit cfg ty op suffix dateNow w)) = 1%nat) as Hlen.
    { unfold submit. simpl. rewrite insert_by_timestamp_perm. simpl.
      destruct (line_evict cfg w) as (_ & Hsub & _). rewrite Hnil in Hsub.
      apply sublist_nil_r in Hsub. by rewrite Hsub. }
    rewrite Hq in Hlen. simpl in Hlen. destruct rest; [done|simpl in Hlen; lia]. }
  specialize (Hwc Hne). lia.
Qed.

Lemma work_conserving_on_timeout used w h t requestId p :
  inv cfg used w → timers w !! h = Some t → callback t = TimeoutCb requestId p →
  work_conserving cfg w →
  work_conserving cfg (on_timeout requestId p (clearTimeout h w)).
Proof.
  intros [Ht Hl] Hlh Hcb Hwc.
  destruct (ti_timers _ _ _ Ht _ _ _ _ Hlh Hcb) as (r & Hr & Hrh & Hrid & Hrp).
  destruct (pending_timer_not_tick used w r Ht Hr) as (Hh & t' & Hl' & Htick).
  apply list_elem_of_split in Hr as (q1 & q2 & Hq).
  pose proof (ti_ids _ _ _ Ht) as Hids. rewrite Hq in Hids.
  apply NoDup_fmap_middle in Hids as [Hfresh _].
  unfold on_timeout.
  rewrite (removeFromQueue_found requestId (clearTimeout h w) q1 r q2); [|done|done|].
  - rewrite clear_if_set_armed by done. subst h.
    unfold work_conserving, ticks in *. simpl. intros Hne.
    rewrite delete_delete_eq, (tick_count_delete_timeout _ _ t') by done.
    apply Hwc. rewrite Hq. by destruct q1.
  - apply Forall_forall. intros x Hx Heq. apply Hfresh.
    rewrite Hrid, <-Heq. apply list_elem_of_fmap_2. set_solver.
Qed.

Lemma work_conserving_step used e w w' :
  inv cfg used w → step cfg e w = Some w' →
  (∀ x, x ∈ enqueue_ids [e] → x ∉ used) →
  work_conserving cfg w → work_conserving cfg w'.
Proof.
  destruct e as [ty op suffix dateNow|p out|h|d]; simpl; intros Hw Hstep Hfresh Hwc.
  - injection Hstep as <-. apply (work_conserving_enqueue used); [done| |done].
    apply Hfresh. by left.
  - destruct (list_find _ (running w)) as [[i request]|] eqn:Hf; [|done].
    injection Hstep as <-. destruct Hw as [Ht _].
    pose proof (next_handle_free used w Ht) as Hfree.
    unfold work_conserving, ticks, resume in *.
    destruct out; simpl; intros Hne; specialize (Hwc Hne);
      rewrite tick_count_insert_tick by done; lia.
  - destruct (timers w !! h) as [t|] eqn:Hl; [|done].
    case_bool_decide; [|done]. injection Hstep as <-.
    destruct (callback t) as [requestId p|] eqn:Hcb; cbn [run_callback].
    + by eapply work_conserving_on_timeout.
    + assert (is_tick t = true) as Htick by (unfold is_tick; by rewrite Hcb).
      destruct Hw as [Ht Hlog].
      apply (work_conserving_processQueue used).
      * by eapply (timer_inv_clear_tick cfg used w).
      * intros r rest Hq Hrest. unfold work_conserving, ticks in *. simpl in *.
        pose proof (tick_count_delete_tick _ _ _ Hl Htick).
        assert (queue w ≠ []) as Hne by (by rewrite Hq).
        specialize (Hwc Hne). lia.
  - case_bool_decide; [|done]. by injection Hstep as <-.
Qed.

Lemma work_conserving_run evs used w w' :
  inv cfg used w → work_conserving cfg w → run cfg evs w = Some w' →
  NoDup (enqueue_ids evs) → (∀ x, x ∈ enqueue_ids evs → x ∉ used) →
  work_conserving cfg w'.
Proof.
  revert used w. induction evs as [|e evs IH]; intros used w Hw Hwc Hrun Hnd Hfresh;
    simpl in Hrun.
  { by simplify_eq. }
  destruct (step cfg e w) as [w1|] eqn:Hstep; [|done]. simpl in Hrun.
  rewrite enqueue_ids_cons in Hnd, Hfresh.
  apply NoDup_app in Hnd as (Hnd1 & Hdisj & Hnd2).
  assert (∀ x, x ∈ enqueue_ids [e] → x ∉ used) as Hfresh1.
  { intros x Hx. apply Hfresh. set_solver. }
  eapply (IH (enqueue_ids [e] ++ used) w1); [| |done|done|].
  - by eapply inv_step.
  - by eapply work_conserving_step.
  - intros x Hx [Hin|Hin]%elem_of_app.
    + by eapply Hdisj.
    + eapply Hfresh; [|done]. set_solver.
Qed.

End work_facts.

Section settlement_facts.
Context {V X : Type}.
Abbreviation QueuedRequest := (QueuedRequest X).
Abbreviation World := (World V X).
Abbreviation Event := (Event V X).
Implicit Types (w : World) (r : QueuedRequest) (q : list QueuedRequest).
Implicit Types (s : Settlement V X) (evs : list Event).
Variable cfg : Config.

(** What [resolve] or [reject] is called with when an operation ends. *)
Lemma settled_resume r out w :
  settled (resume r out w)
  = settled w ++ [(promise r, match out with
                               | inl v => Resolved v
                               | inr x => Rejected (OperationError x)
                               end)].
Proof. unfold resume. by destruct out. Qed.

Lemma settled_removeFromQueue requestId w :
  settled (removeFromQueue requestId w) = settled w.
Proof.
  destruct (removeFromQueue_cases requestId w) as [->|(q1 & r & q2 & _ & _ & _ & ->)]; [done|].
  by destruct (clear_if_set_fields (timeout r) (set_queue (q1 ++ q2) w)) as (_ & _ & _ & _ & -> & _).
Qed.

Lemma settled_evict w :
  settled (evict cfg w) = settled w ∨
  ∃ r, r ∈ queue w ∧ settled (evict cfg w) = settled w ++ [(promise r, Rejected QueueOverflow)].
Proof.
  destruct (evict_cases cfg w) as [[-> _]|[(-> & _)|(r & rest & Hq & _ & ->)]]; [by left..|].
  right. exists r. split; [rewrite Hq; by left|]. simpl.
  by destruct (clear_if_set_fields (timeout r) (set_queue rest w)) as (_ & _ & _ & _ & -> & _).
Qed.

Lemma settled_processQueue w :
  settled (processQueue cfg w) = settled w ∨
  ∃ r x, r ∈ queue w ∧ operation r = OpThrows x ∧
    settled (processQueue cfg w) = settled w ++ [(promise r, Rejected (OperationError x))].
Proof.
  destruct (processQueue_cases cfg w) as [[-> _]|(r & rest & Hq & _ & Heq)]; [by left|].
  simpl in Heq. rewrite Heq. clear Heq.
  destruct (clear_if_set_fields (timeout r)
              (set_processing (processing w + 1) (set_queue rest w)))
    as (_ & _ & _ & _ & Hs & _).
  destruct (operation r) as [|x] eqn:Hop; simpl; rewrite Hs; simpl; [by left|].
  right. exists r, x. split_and!; [rewrite Hq; by left|done..].
Qed.

Lemma queue_evict_subseteq w r : r ∈ queue (evict cfg w) → r ∈ queue w.
Proof.
  destruct (line_evict cfg w) as (_ & Hsub & _). intros Hr.
  by eapply elem_of_sublist.
Qed.

Lemma queue_submit ty op suffix dateNow w r :
  r ∈ queue (submit cfg ty op suffix dateNow w) →
  r ∈ queue w ∨ r = new_request ty op suffix dateNow (evict cfg w).
Proof.
  unfold submit. simpl.
  destruct (insert_by_timestamp_spec (new_request ty op suffix dateNow (evict cfg w))
              (queue (evict cfg w))) as (q1 & q2 & Hq & -> & _).
  rewrite elem_of_app, elem_of_cons. intros [Hr|[->|Hr]]; [left|by right|left];
    apply queue_evict_subseteq; rewrite Hq; set_solver.
Qed.

Lemma queue_processQueue w r : r ∈ queue (processQueue cfg w) → r ∈ queue w.
Proof.
  destruct (processQueue_cases cfg w) as [[-> _]|(r' & rest & Hq & _ & Heq)]; [done|].
  simpl in Heq. rewrite Heq. clear Heq.
  destruct (clear_if_set_fields (timeout r')
              (set_processing (processing w + 1) (set_queue rest w)))
    as (Hq' & _).
  rewrite Hq. destruct (operation r'); simpl; rewrite Hq'; simpl; set_solver.
Qed.

Lemma queue_removeFromQueue requestId w r :
  r ∈ queue (removeFromQueue requestId w) → r ∈ queue w.
Proof.
  destruct (removeFromQueue_cases requestId w) as [->|(q1 & r' & q2 & Hq & _ & _ & ->)]; [done|].
  destruct (clear_if_set_fields (timeout r') (set_queue (q1 ++ q2) w)) as (-> & _).
  rewrite Hq. simpl. set_solver.
Qed.

(** Where a pending request comes from. *)
Lemma queue_step e w w' r :
  step cfg e w = Some w' → r ∈ queue w' →
  r ∈ queue w ∨ ∃ ty suffix dateNow, e = Enqueue ty (operation r) suffix dateNow.
Proof.
  destruct e as [ty op suffix dateNow|p out|h|d]; simpl; intros Hstep Hr.
  - injection Hstep as <-. apply queue_processQueue, queue_submit in Hr as [Hr| ->]; [by left|].
    right. by eexists _, _, _.
  - destruct (list_find _ (running w)) as [[i request]|] eqn:Hf; [|done].
    injection Hstep as <-. left. by destruct out.
  - destruct (timers w !! h) as [t|] eqn:Hl; [|done].
    case_bool_decide; [|done]. injection Hstep as <-. left.
    destruct (callback t) as [requestId p|]; cbn [run_callback] in Hr.
    + unfold on_timeout in Hr. simpl in Hr. by apply queue_removeFromQueue in Hr.
    + by apply queue_processQueue in Hr.
  - case_bool_decide; [|done]. injection Hstep as <-. by left.
Qed.

(** The settling calls one turn of the event loop makes. *)
Lemma settled_step e w w' p s :
  step cfg e w = Some w' → (p, s) ∈ settled w' →
  (p, s) ∈ settled w ∨
  s = Rejected QueueOverflow ∨ s = Rejected RequestTimeout ∨
  (∃ out, e = OperationSettles p out ∧
     s = match out with inl v => Resolved v | inr x => Rejected (OperationError x) end) ∨
  (∃ x, s = Rejected (OperationError x) ∧
     ((∃ r, r ∈ queue w ∧ operation r = OpThrows x) ∨
      ∃ ty suffix dateNow, e = Enqueue ty (OpThrows x) suffix dateNow)).
Proof.
  destruct e as [ty op suffix dateNow|p' out|h|d]; simpl; intros Hstep Hs.
  - injection Hstep as <-. unfold enqueue in Hs.
    assert (settled (submit cfg ty op suffix dateNow w) = settled (evict cfg w)) as Hsub by done.
    destruct (settled_processQueue (submit cfg ty op suffix dateNow w))
      as [Heq|(r & x & Hr & Hop & Heq)]; rewrite Heq, Hsub in Hs.
    + destruct (settled_evict w) as [Hev|(r & _ & Hev)]; rewrite Hev in Hs; [by left|].
      apply elem_of_app in Hs as [Hs|Hs%list_elem_of_singleton]; [by left|].
      right. left. congruence.
    + apply elem_of_app in Hs as [Hs|Hs%list_elem_of_singleton].
      * destruct (settled_evict w) as [Hev|(r' & _ & Hev)]; rewrite Hev in Hs; [by left|].
        apply elem_of_app in Hs as [Hs|Hs%list_elem_of_singleton]; [by left|].
        right. left. congruence.
      * do 4 right. exists x. split; [congruence|].
        apply queue_submit in Hr as [Hr| ->]; [left; by exists r|right].
        simpl in Hop. subst op. by eexists _, _, _.
  - destruct (list_find _ (running w)) as [[i request]|] eqn:Hf; [|done].
    injection Hstep as <-. rewrite settled_resume in Hs. simpl in Hs.
    apply list_find_Some in Hf as (_ & Hp & _).
    apply elem_of_app in Hs as [Hs|Hs%list_elem_of_singleton]; [by left|].
    do 3 right. left. exists out. split; congruence.
  - destruct (timers w !! h) as [t|] eqn:Hl; [|done].
    case_bool_decide; [|done]. injection Hstep as <-.
    destruct (callback t) as [requestId p'|]; cbn [run_callback] in Hs.
    + unfold on_timeout in Hs. simpl in Hs. rewrite settled_removeFromQueue in Hs. simpl in Hs.
      apply elem_of_app in Hs as [Hs|Hs%list_elem_of_singleton]; [by left|].
      right. right. left. congruence.
    + destruct (settled_processQueue (clearTimeout h w))
        as [Heq|(r & x & Hr & Hop & Heq)]; rewrite Heq in Hs; [by left|].
      simpl in Hs. apply elem_of_app in Hs as [Hs|Hs%list_elem_of_singleton]; [by left|].
      do 4 right. exists x. split; [congruence|]. left. by exists r.
  - case_bool_decide; [|done]. injection Hstep as <-. by left.
Qed.

(** The log of settling calls only grows. *)
Lemma settled_step_prefix e w w' :
  step cfg e w = Some w' → settled w `prefix_of` settled w'.
Proof.
  destruct e as [ty op suffix dateNow|p' out|h|d]; simpl; intros Hstep.
  - injection Hstep as <-. unfold enqueue.
    assert (settled (submit cfg ty op suffix dateNow w) = settled (evict cfg w)) as Hsub by done.
    transitivity (settled (evict cfg w)).
    + destruct (settled_evict w) as [->|(r & _ & ->)]; [done|by apply prefix_app_r].
    + rewrite <-Hsub.
      destruct (settled_processQueue (submit cfg ty op suffix dateNow w))
        as [->|(r & x & _ & _ & ->)]; [done|by apply prefix_app_r].
  - destruct (list_find _ (running w)) as [[i request]|] eqn:Hf; [|done].
    injection Hstep as <-. rewrite settled_resume. by apply prefix_app_r.
  - destruct (timers w !! h) as [t|] eqn:Hl; [|done].
    case_bool_decide; [|done]. injection Hstep as <-.
    destruct (callback t) as [requestId p'|]; cbn [run_callback].
    + unfold on_timeout. simpl. rewrite settled_removeFromQueue. by apply prefix_app_r.
    + destruct (settled_processQueue (clearTimeout h w)) as [->|(r & x & _ & _ & ->)];
        [done|by apply prefix_app_r].
  - case_bool_decide; [|done]. by injection Hstep as <-.
Qed.

Lemma settled_run_prefix evs w w' :
  run cfg evs w = Some w' → settled w `prefix_of` settled w'.
Proof.
  revert w. induction evs as [|e evs IH]; intros w Hrun; simpl in Hrun; [by simplify_eq|].
  destruct (step cfg e w) as [w1|] eqn:Hstep; [|done]. simpl in Hrun.
  transitivity (settled w1); [by eapply settled_step_prefix|by apply IH].
Qed.

Lemma resolved_run evs w w' p v :
  run cfg evs w = Some w' → (p, Resolved v) ∈ settled w' →
  (p, Resolved v) ∈ settled w ∨ OperationSettles p (inl v) ∈ evs.
Proof.
  revert w. induction evs as [|e evs IH]; intros w Hrun Hs; simpl in Hrun.
  { simplify_eq. by left. }
  destruct (step cfg e w) as [w1|] eqn:Hstep; [|done]. simpl in Hrun.
  destruct (IH w1 Hrun Hs) as [Hs1|Hin]; [|right; by right].
  destruct (settled_step e w w1 p _ Hstep Hs1)
    as [?|[?|[?|[(out & -> & Hout)|(x & ? & _)]]]]; try done; [by left|].
  destruct out as [v'|x]; [|done]. injection Hout as ->. right. by left.
Qed.

Lemma operation_settles_run evs w w' p out :
  run cfg evs w = Some w' → OperationSettles p out ∈ evs →
  (p, match out with inl v => Resolved v | inr x => Rejected (OperationError x) end)
    ∈ settled w'.
Proof.
  revert w. induction evs as [|e evs IH]; intros w Hrun Hin; simpl in Hrun.
  { by apply elem_of_nil in Hin. }
  destruct (step cfg e w) as [w1|] eqn:Hstep; [|done]. simpl in Hrun.
  apply elem_of_cons in Hin as [<-|Hin]; [|by eapply IH].
  simpl in Hstep.
  destruct (list_find _ (running w)) as [[i request]|] eqn:Hf; [|done].
  injection Hstep as <-. apply list_find_Some in Hf as (_ & Hp & _).
  eapply elem_of_prefix; [|by eapply settled_run_prefix].
  rewrite settled_resume, Hp. set_solver.
Qed.

Lemma operation_error_run evs w w' p x :
  run cfg evs w = Some w' → (p, Rejected (OperationError x)) ∈ settled w' →
  (p, Rejected (OperationError x)) ∈ settled w ∨
  OperationSettles p (inr x) ∈ evs ∨
  (∃ r, r ∈ queue w ∧ operation r = OpThrows x) ∨
  (∃ ty suffix dateNow, Enqueue ty (OpThrows x) suffix dateNow ∈ evs).
Proof.
  revert w. induction evs as [|e evs IH]; intros w Hrun Hs; simpl in Hrun.
  { simplify_eq. by left. }
  destruct (step cfg e w) as [w1|] eqn:Hstep; [|done]. simpl in Hrun.
  destruct (IH w1 Hrun Hs) as [Hs1|[Hin|[(r & Hr & Hop)|(ty & suffix & d & Hin)]]].
  - destruct (settled_step e w w1 p _ Hstep Hs1)
      as [?|[?|[?|[(out & -> & Hout)|(x' & Hx & Hcause)]]]]; try done; [by left| |].
    + destruct out as [v'|x']; [done|]. injection Hout as ->. right. left. by left.
    + assert (x' = x) as -> by congruence.
      destruct Hcause as [?|(ty & suffix & d & ->)]; [by right; right; left|].
      do 3 right. eexists _, _, _. by left.
  - right. left. by right.
  - destruct (queue_step e w w1 r Hstep Hr) as [?|(ty & suffix & d & ->)].
    + right. right. left. by exists r.
    + do 3 right. rewrite Hop. eexists _, _, _. by left.
  - do 3 right. eexists _, _, _. by right.
Qed.
End settlement_facts.

Section free_slot_facts.
Context {V X : Type}.
Abbreviation QueuedRequest := (QueuedRequest X).
Abbreviation World := (World V X).
Abbreviation Event := (Event V X).
Implicit Types (w : World) (r : QueuedRequest) (evs : list Event).
Variable cfg : Config.

(** [enqueue] with a slot free and nobody waiting. *)
Lemma enqueue_on_free_slot used w ty suffix dateNow :
  timer_inv cfg used w → queue w = [] → processing w < MAX_CONCURRENT cfg →
  let r := new_request ty OpAsync suffix dateNow w in
  let w' := enqueue cfg ty OpAsync suffix dateNow w in
  queue w' = [] ∧ running w' = running w ++ [r] ∧ started w' = started w ++ [r] ∧
  processing w' = processing w + 1 ∧ timers w' = timers w ∧ settled w' = settled w.
Proof.
  intros Ht Hq Hlt r w'. subst r w'.
  pose proof (next_handle_free cfg _ w Ht) as Hfree.
  pose proof (ti_next_handle _ _ _ Ht) as Hpos.
  assert (evict cfg w = w) as Hev.
  { destruct (evict_cases cfg w) as [[-> _]|[(-> & _)|(r & rest & Hq' & _)]]; [done..|].
    by rewrite Hq in Hq'. }
  unfold enqueue, submit. rewrite !Hev. simpl. rewrite Hq.
  unfold processQueue. simpl.
  rewrite bool_decide_eq_false_2 by lia. simpl.
  rewrite clear_if_set_armed by (simpl; lia). simpl.
  split_and!; try done. by apply delete_insert_id.
Qed.

(** A call that finds a slot free, followed by the end of its
    operation: the promise returned is settled with the outcome. *)
Lemma free_slot_call_settles evs w ty suffix dateNow (out : V + X) :
  run cfg evs init_world = Some w →
  NoDup (enqueue_ids evs) →
  make_id ty suffix ∉ enqueue_ids evs →
  queue w = [] → processing w < MAX_CONCURRENT cfg →
  ∃ w2,
    run cfg [OperationSettles (nextPromise w) out] (enqueue cfg ty OpAsync suffix dateNow w)
      = Some w2 ∧
    settled w2 = settled w ++
      [(nextPromise w, match out with
                       | inl v => Resolved v
                       | inr x => Rejected (OperationError x)
                       end)] ∧
    queue w2 = [].
Proof.
  intros Hrun Hnd Hfresh Hq Hlt.
  pose proof (reachable_inv cfg evs w Hrun Hnd) as Hw.
  destruct (enqueue_on_free_slot _ w ty suffix dateNow (inv_timer _ _ _ Hw) Hq Hlt)
    as (Hq1 & Hr1 & _ & _ & _ & Hs1).
  set (r := new_request ty OpAsync suffix dateNow w) in *.
  set (w1 := enqueue cfg ty OpAsync suffix dateNow w) in *.
  assert (inv cfg (enqueue_ids [Enqueue (V:=V) (X:=X) ty OpAsync suffix dateNow]
                     ++ enqueue_ids evs) w1) as Hw1.
  { eapply (inv_step cfg _ (Enqueue ty OpAsync suffix dateNow) w w1); [done|done|].
    intros x [->|Hx%elem_of_nil]%elem_of_cons; done. }
  destruct (step_operation_settles cfg _ w1 r out Hw1) as (w2 & Hstep & Hs2 & _ & Hq2 & _).
  { rewrite Hr1. set_solver. }
  exists w2. split_and!.
  - cbn [run]. change (promise r) with (nextPromise w) in Hstep. by rewrite Hstep.
  - by rewrite Hs2, Hs1.
  - by rewrite Hq2.
Qed.
End free_slot_facts.

Section more_theorems.
Context {V X : Type}.
Abbreviation QueuedRequest := (QueuedRequest X).
Abbreviation World := (World V X).
Abbreviation Event := (Event V X).
Implicit Types (w : World) (r : QueuedRequest) (q : list QueuedRequest).
Implicit Types (evs : list Event).

(** X1.  [processQueue] starts at most one operation each time it is
    called, yet no slot stays idle: whenever a request is pending, the
    operations in flight and the calls of [processQueue] already
    scheduled with [setTimeout(..., 0)] together make up
    [MAX_CONCURRENT]. *)
Theorem no_idle_slot_while_pending cfg evs w :
  run cfg evs init_world = Some w →
  NoDup (enqueue_ids evs) →
  queue w ≠ [] →
  MAX_CONCURRENT cfg ≤ processing w + Z.of_nat (ticks w).
Proof.
  intros Hrun Hnd.
  eapply (work_conserving_run cfg evs [] init_world w); [apply inv_init| |done..|].
  - by intros ?.
  - intros x _ Hx. by apply elem_of_nil in Hx.
Qed.

(** X2.  Whatever the limits are: a request waits only after
    [MAX_CONCURRENT] operations have been started, and requests are
    dropped for overflow only when at least [MAX_CONCURRENT +
    MAX_QUEUE_SIZE] others were submitted besides them. *)
Theorem overflow_needs_a_full_house cfg evs w :
  run cfg evs init_world = Some w →
  (queue w ≠ [] → MAX_CONCURRENT cfg ≤ Z.of_nat (length (started w))) ∧
  (overflowed w ≠ [] →
   Z.of_nat (length (overflowed w)) + MAX_CONCURRENT cfg + MAX_QUEUE_SIZE cfg
     ≤ Z.of_nat (length (enqueue_ids evs))) ∧
  (length (queue w) + length (started w) + length (overflowed w)
     ≤ length (enqueue_ids evs))%nat.
Proof.
  intros Hrun.
  pose proof (count_inv_run cfg evs _ _ Hrun (count_inv_init cfg)) as [Ht Hb Ho _].
  pose proof (nextPromise_run cfg evs _ _ Hrun) as Hn. simpl in Hn. rewrite Hn in *.
  split_and!.
  - intros Hq. apply Hb. destruct (queue w); [done|simpl; lia].
  - intros Hov. apply Ho. destruct (overflowed w); [done|simpl; lia].
  - lia.
Qed.

(** X3.  The manager passes results through untouched: the promise of a
    request is resolved with [v] exactly when its operation resolved with
    [v], and it is rejected with an operation's error only when its
    operation rejected with that error or some operation submitted threw
    it. *)
Theorem settlement_reports_operation cfg evs w p :
  run cfg evs init_world = Some w →
  (∀ v, (p, Resolved v) ∈ settled w ↔ OperationSettles p (inl v) ∈ evs) ∧
  (∀ x, OperationSettles p (inr x) ∈ evs → (p, Rejected (OperationError x)) ∈ settled w) ∧
  (∀ x, (p, Rejected (OperationError x)) ∈ settled w →
     OperationSettles p (inr x) ∈ evs ∨
     ∃ ty suffix dateNow, Enqueue ty (OpThrows x) suffix dateNow ∈ evs).
Proof.
  intros Hrun. split_and!.
  - intros v. split.
    + intros Hs. destruct (resolved_run cfg evs _ _ p v Hrun Hs) as [Hin|?]; [|done].
      by apply elem_of_nil in Hin.
    + intros Hin. apply (operation_settles_run cfg evs _ _ p (inl v) Hrun Hin).
  - intros x Hin. apply (operation_settles_run cfg evs _ _ p (inr x) Hrun Hin).
  - intros x Hs.
    destruct (operation_error_run cfg evs _ _ p x Hrun Hs)
      as [Hin|[?|[(r & Hr & _)|?]]]; [|by left| |by right].
    + by apply elem_of_nil in Hin.
    + by apply elem_of_nil in Hr.
Qed.

(** X4.  [removeFromQueue] takes out the request with the given id and
    nothing else: the others stay, in their order; the timeout of the
    one removed is cleared; no promise is settled and the counter is not
    touched.  When no request has that id nothing changes. *)
Theorem removeFromQueue_takes_out_one requestId w :
  NoDup (id <$> queue w) →
  queue (removeFromQueue requestId w) = filter (λ r, id r ≠ requestId) (queue w) ∧
  (∀ r, r ∈ queue w → id r = requestId → timeout r ≠ 0%nat →
     timers (removeFromQueue requestId w) !! timeout r = None) ∧
  (Forall (λ r, id r ≠ requestId) (queue w) → removeFromQueue requestId w = w) ∧
  processing (removeFromQueue requestId w) = processing w ∧
  settled (removeFromQueue requestId w) = settled w ∧
  started (removeFromQueue requestId w) = started w.
Proof.
  intros Hnd.
  destruct (findIndex_split (λ req, bool_decide (id req = requestId)) (queue w))
    as [[_ Hall]|(q1 & y & q2 & Heq & _ & Hy & Hq1)].
  - assert (Forall (λ x, id x ≠ requestId) (queue w)) as Hall'.
    { eapply Forall_impl; [done|]. intros x Hx Hid. apply Hx. simpl. by apply bool_decide_pack. }
    rewrite (removeFromQueue_absent requestId w Hall').
    split_and!; try done.
    + by rewrite filter_all.
    + intros r Hr Hid. rewrite Forall_forall in Hall'. by destruct (Hall' r Hr).
  - apply bool_decide_unpack in Hy.
    assert (Forall (λ x, id x ≠ requestId) q1) as Hq1'.
    { eapply Forall_impl; [done|]. intros x Hx Hid. apply Hx. simpl. by apply bool_decide_pack. }
    rewrite (removeFromQueue_found requestId w q1 y q2 Heq Hy Hq1').
    rewrite Heq in Hnd. pose proof Hnd as Hnd'.
    apply NoDup_fmap_middle in Hnd as [Hfresh _].
    assert (Forall (λ x, id x ≠ requestId) q2) as Hq2.
    { apply Forall_forall. intros x Hx Hid. apply Hfresh. rewrite <-Hid in Hy. rewrite Hy.
      apply list_elem_of_fmap_2. set_solver. }
    destruct (clear_if_set_fields (timeout y) (set_queue (q1 ++ q2) w))
      as (-> & -> & _ & -> & -> & _).
    split_and!; try done.
    + rewrite Heq. simpl. rewrite filter_app, filter_cons_False by (by intros ?).
      by rewrite !filter_all.
    + intros r Hr Hid Hh.
      assert (r = y) as ->.
      { rewrite Heq in Hr. apply elem_of_app in Hr as [Hr|[->|Hr]%elem_of_cons]; [|done|].
        - rewrite Forall_forall in Hq1'. by destruct (Hq1' r Hr).
        - rewrite Forall_forall in Hq2. by destruct (Hq2 r Hr). }
      rewrite clear_if_set_armed by done. simpl. apply lookup_delete_eq.
    + intros Hall. rewrite Heq in Hall.
      apply Forall_app in Hall as [_ [Hne _]%Forall_cons]. done.
Qed.

(** X5.  The id of a request tells its type: two generated ids are equal
    only for the same type and the same text after it. *)
Theorem make_id_injective ty1 suffix1 ty2 suffix2 :
  make_id ty1 suffix1 = make_id ty2 suffix2 → ty1 = ty2 ∧ suffix1 = suffix2.
Proof.
  unfold make_id. destruct ty1, ty2; simpl; intros Heq; by simplify_eq.
Qed.

(** X6.  While a slot is free and nobody waits, [enqueue] calls the
    operation before it returns: the request never stays in the queue,
    and the timeout armed for it is cleared again in the same call. *)
Theorem free_slot_starts_at_once cfg evs w ty suffix dateNow :
  run cfg evs init_world = Some w →
  NoDup (enqueue_ids evs) →
  queue w = [] →
  processing w < MAX_CONCURRENT cfg →
  let r := new_request ty OpAsync suffix dateNow w in
  let w' := enqueue cfg ty OpAsync suffix dateNow w in
  queue w' = [] ∧ running w' = running w ++ [r] ∧ started w' = started w ++ [r] ∧
  processing w' = processing w + 1 ∧ timers w' = timers w ∧ settled w' = settled w.
Proof.
  intros Hrun Hnd Hq Hlt.
  destruct (reachable_inv cfg evs w Hrun Hnd) as [Ht _].
  by apply (enqueue_on_free_slot cfg (enqueue_ids evs)).
Qed.

(** X7.  An operation that throws before it returns a promise is treated
    like one that rejects: the promise of the request is rejected with
    what was thrown, the slot is given back at once, and the next call
    of [processQueue] is scheduled. *)
Theorem synchronous_throw_rejects cfg evs w ty x suffix dateNow :
  run cfg evs init_world = Some w →
  NoDup (enqueue_ids evs) →
  queue w = [] →
  processing w < MAX_CONCURRENT cfg →
  let r := new_request ty (OpThrows x) suffix dateNow w in
  let w' := enqueue cfg ty (OpThrows x) suffix dateNow w in
  queue w' = [] ∧ running w' = running w ∧ started w' = started w ++ [r] ∧
  processing w' = processing w ∧
  settled w' = settled w ++ [(nextPromise w, Rejected (OperationError x))] ∧
  timers w'
    = <[S (nextHandle w) := {| armed_at := now w; delay := 0; callback := ProcessCb |}]>
        (timers w).
Proof.
  intros Hrun Hnd Hq Hlt r w'. subst r w'.
  destruct (reachable_inv cfg evs w Hrun Hnd) as [Ht _].
  pose proof (next_handle_free cfg _ w Ht) as Hfree.
  pose proof (ti_next_handle _ _ _ Ht) as Hpos.
  assert (evict cfg w = w) as Hev.
  { destruct (evict_cases cfg w) as [[-> _]|[(-> & _)|(r & rest & Hq' & _)]]; [done..|].
    by rewrite Hq in Hq'. }
  unfold enqueue, submit. rewrite !Hev. simpl. rewrite Hq.
  unfold processQueue. simpl.
  rewrite bool_decide_eq_false_2 by lia. simpl.
  rewrite clear_if_set_armed by (simpl; lia). simpl.
  split_and!; try done; [lia|]. by rewrite delete_insert_id.
Qed.

End more_theorems.

(** * Further properties of the like operation *)

Section like_record_facts.
Import Likes.
Implicit Types (be : Backend) (tr ext : list Interaction).

Lemma calls_app kind tr1 tr2 : calls kind (tr1 ++ tr2) = (calls kind tr1 + calls kind tr2)%nat.
Proof. unfold calls. by rewrite filter_app, length_app. Qed.

Lemma pauses_app tr1 tr2 : pauses (tr1 ++ tr2) = pauses tr1 ++ pauses tr2.
Proof. apply omap_app. Qed.

Lemma writes_are_checked_app tr1 tr2 :
  writes_are_checked tr1 → writes_are_checked tr2 → writes_are_checked (tr1 ++ tr2).
Proof.
  intros H1 H2 n i Hn Hi. apply lookup_app_Some in Hn as [Hn|[Hle Hn]].
  - destruct (H1 n i Hn Hi) as (m & j & -> & Hm & Hj). exists m, j.
    split_and!; try tauto. by apply lookup_app_l_Some.
  - destruct (H2 _ i Hn Hi) as (m & j & Hnm & Hm & Hj). exists (length tr1 + m)%nat, j.
    split_and!; try tauto; [lia|]. by rewrite lookup_app_r, Nat.add_sub' by lia.
Qed.

Lemma writes_are_checked_other i : is_add_like i = false → writes_are_checked [i].
Proof.
  intros Hi [|n] j Hn Hj; [|done]. simpl in Hn. simplify_eq. by rewrite Hi in Hj.
Qed.

(** [checkIfLiked] makes one read, and says [true] exactly when the read
    reported the item liked. *)
Lemma checkIfLiked_exchange be tr contentItemId userIdentifier :
  ∃ b answer,
    checkIfLiked contentItemId userIdentifier be tr
      = (Return b, tr ++ [SelectLikes contentItemId userIdentifier answer]) ∧
    answer = select_user_likes be tr contentItemId userIdentifier ∧
    (b = true ↔ reports_liked (SelectLikes contentItemId userIdentifier answer)).
Proof.
  unfold checkIfLiked, try_catch, mbind, async_bind, bind, query_user_likes, await, ret.
  destruct (select_user_likes be tr contentItemId userIdentifier) as [a|x] eqn:Ha.
  - destruct (error a) as [e|] eqn:He.
    + eexists _, _. split; [done|]. split; [done|]. simpl. rewrite He.
      split; [done|]. by intros [? _].
    + eexists _, _. split; [done|]. split; [done|]. simpl. rewrite He.
      rewrite bool_decide_eq_true. tauto.
  - eexists _, _. split; [done|]. split; [done|]. simpl. split; [done|tauto].
Qed.

(** What one round of the loop can do. *)
Lemma attempt_cases be tr contentItemId userIdentifier :
  ∃ res ext, attempt contentItemId userIdentifier be tr = (res, tr ++ ext) ∧
    calls is_select_likes ext = 1%nat ∧
    (calls is_add_like ext ≤ 1)%nat ∧ (calls is_select_item ext ≤ 1)%nat ∧
    pauses ext = [] ∧
    res ≠ Return Undefined ∧
    (res = Return Null →
       ∃ i, last ext = Some i ∧ (reports_liked i ∨ duplicate_failure i)) ∧
    (∀ row, res = Return (Item row) →
       ∃ ext0 a it,
         ext = ext0 ++ [AddLike contentItemId userIdentifier (Returned a);
                        SelectItem contentItemId (Returned it)] ∧
         rpc_error a = None ∧ fetchError it = None ∧ row = updatedItem it) ∧
    (∀ x, res = Throw x →
       calls is_add_like ext = 1%nat ∧ ∃ i, last ext = Some i ∧ fails_with x i) ∧
    writes_are_checked ext.
Proof.
  unfold attempt, mbind, async_bind, bind.
  destruct (checkIfLiked_exchange be tr contentItemId userIdentifier)
    as (b & answer & -> & _ & Hb).
  set (check := SelectLikes contentItemId userIdentifier answer) in *.
  destruct b; cbv beta iota.
  { exists (Return Null), [check]. split_and!; try done; try (cbv; lia).
    - intros _. exists check. split; [done|]. left. by apply Hb.
    - by apply writes_are_checked_other. }
  assert (¬ reports_liked check) as Hneg by (intros Hl; by apply Hb in Hl).
  assert (∀ i rest, is_add_like i → (∀ j, j ∈ rest → is_add_like j = false) →
            writes_are_checked (check :: i :: rest)) as Hchecked.
  { intros i rest _ Hrest [|[|n]] j Hn Hj; simpl in Hn.
    - simplify_eq. done.
    - exists 0%nat, check. by split_and!.
    - apply list_elem_of_lookup_2, Hrest in Hn. by rewrite Hn in Hj. }
  unfold call_add_like, await.
  destruct (rpc_add_like be (tr ++ [check]) contentItemId userIdentifier) as [a|x] eqn:Ha.
  - destruct (rpc_error a) as [e|] eqn:He.
    + destruct (is_duplicate e) eqn:Hd.
      * eexists _, [_; _]. rewrite <-app_assoc. split; [done|].
        split_and!; try done; try (cbv; lia).
        -- intros _. eexists. split; [done|]. right. simpl. by rewrite He, Hd.
        -- apply Hchecked; [done|]. by intros ? ?%elem_of_nil.
      * eexists _, [_; _]. rewrite <-app_assoc. split; [done|].
        split_and!; try done; try (cbv; lia).
        -- intros x [= <-]. split; [done|]. eexists. split; [done|]. simpl. by exists e.
        -- apply Hchecked; [done|]. by intros ? ?%elem_of_nil.
    + unfold query_item, await.
      destruct (select_item be _ contentItemId) as [it|x] eqn:Hit.
      * destruct (fetchError it) as [e|] eqn:Hfe; eexists _, [_; _; _]; rewrite <-!app_assoc;
          (split; [done|]); split_and!; try done; try (cbv; lia).
        -- intros x [= <-]. split; [done|]. eexists. split; [done|]. simpl. by exists e.
        -- apply Hchecked; [done|]. by intros ? ->%list_elem_of_singleton.
        -- intros row [= <-]. by exists [check], a, it.
        -- apply Hchecked; [done|]. by intros ? ->%list_elem_of_singleton.
      * eexists _, [_; _; _]. rewrite <-!app_assoc. split; [done|].
        split_and!; try done; try (cbv; lia).
        -- intros y [= <-]. split; [done|]. by eexists.
        -- apply Hchecked; [done|]. by intros ? ->%list_elem_of_singleton.
  - eexists _, [_; _]. rewrite <-app_assoc. split; [done|].
    split_and!; try done; try (cbv; lia).
    + intros y [= <-]. split; [done|]. by eexists.
    + apply Hchecked; [done|]. by intros ? ?%elem_of_nil.
Qed.

Lemma backoff_done retryCount : maxRetries ≤ retryCount + 1 → backoff retryCount = [].
Proof. intros. unfold backoff. rewrite seqZ_nil by lia. done. Qed.

Lemma backoff_next retryCount :
  retryCount + 1 < maxRetries →
  backoff retryCount = (100 + (retryCount + 1) * 50) :: backoff (retryCount + 1).
Proof.
  intros. unfold backoff. rewrite seqZ_cons by lia. simpl. do 3 f_equal; lia.
Qed.

(** What the whole loop does, started with [rounds] rounds to go after
    [retryCount] failures. *)
Lemma retry_loop_cases rounds retryCount be tr contentItemId userIdentifier :
  ∃ res ext,
    retry_loop rounds retryCount contentItemId userIdentifier be tr = (res, tr ++ ext) ∧
    (calls is_select_likes ext ≤ rounds)%nat ∧
    (calls is_add_like ext ≤ rounds)%nat ∧ (calls is_select_item ext ≤ rounds)%nat ∧
    pauses ext `prefix_of` backoff retryCount ∧
    ((0 < rounds)%nat → maxRetries ≤ retryCount + Z.of_nat rounds →
     res ≠ Return Undefined) ∧
    (res = Return Null →
       ∃ i, last ext = Some i ∧ (reports_liked i ∨ duplicate_failure i)) ∧
    (∀ row, res = Return (Item row) →
       ∃ ext0 a it,
         ext = ext0 ++ [AddLike contentItemId userIdentifier (Returned a);
                        SelectItem contentItemId (Returned it)] ∧
         rpc_error a = None ∧ fetchError it = None ∧ row = updatedItem it) ∧
    (∀ x, res = Throw x → retryCount < maxRetries →
       Z.of_nat (calls is_add_like ext) = maxRetries - retryCount ∧
       pauses ext = backoff retryCount ∧
       ∃ i, last ext = Some i ∧ fails_with x i) ∧
    writes_are_checked ext.
Proof.
  revert retryCount tr. induction rounds as [|rounds IH]; intros retryCount tr; simpl.
  { exists (Return Undefined), []. rewrite app_nil_r. split; [done|].
    split_and!; try done; try lia; try apply prefix_nil. }
  unfold try_catch.
  destruct (attempt_cases be tr contentItemId userIdentifier)
    as (res & ext & -> & Hsl & Hadd & Hitem & Hp & Hundef & Hnull & Hrow & Hthrow & Hchk).
  destruct res as [a|x].
  { exists (Return a), ext. split; [done|].
    split_and!; try done; try lia. rewrite Hp. apply prefix_nil. }
  destruct (Hthrow x eq_refl) as (Hadd1 & i & Hlast & Hfail).
  case_bool_decide as Hmax.
  { exists (Throw x), ext. split; [done|].
    split_and!; try done; try lia.
    - rewrite Hp. apply prefix_nil.
    - intros y [= <-] Hlt. split_and!; [lia|by rewrite backoff_done|by exists i]. }
  unfold mbind, async_bind, bind, sleep.
  set (pause := Sleep (100 + (retryCount + 1) * 50)).
  destruct (IH (retryCount + 1) ((tr ++ ext) ++ [pause]))
    as (res & ext' & -> & Hsl' & Hadd' & Hitem' & Hp' & Hundef' & Hnull' & Hrow' & Hthrow'
          & Hchk').
  exists res, (ext ++ [pause] ++ ext').
  rewrite <-!app_assoc. split; [done|].
  rewrite !calls_app, !pauses_app, Hp. simpl.
  rewrite (backoff_next retryCount) by lia.
  split_and!; try lia.
  - by apply prefix_cons.
  - intros _ Hle. apply Hundef'; lia.
  - intros Hres. destruct (Hnull' Hres) as (j & Hj & Hjl).
    exists j. split; [|done]. by rewrite last_app, last_cons, Hj.
  - intros row Hres. destruct (Hrow' row Hres) as (ext0 & a & it & -> & Hrest).
    exists (ext ++ [pause] ++ ext0), a, it. by rewrite <-!app_assoc.
  - intros y Hres Hlt. destruct (Hthrow' y Hres) as (Hn & Hps & j & Hj & Hjf); [lia|].
    split_and!.
    + lia.
    + by rewrite Hps.
    + exists j. split; [|done]. by rewrite last_app, last_cons, Hj.
  - apply writes_are_checked_app; [done|].
    apply (writes_are_checked_app [pause] ext'); [by apply writes_are_checked_other|done].
Qed.

Lemma likes_inserted_le tr : (likes_inserted tr ≤ calls is_add_like tr)%nat.
Proof.
  unfold likes_inserted, calls. induction tr as [|i tr IH]; [done|].
  rewrite !filter_cons. destruct i as [| ? ? [a|?]| |]; simpl; try lia.
  destruct (rpc_error a); simpl; lia.
Qed.

(** The whole call: the first check, then the loop. *)
Lemma internalLikeContentItem_cases be contentItemId userIdentifier :
  ∃ res tr,
    _internalLikeContentItem contentItemId userIdentifier be [] = (res, tr) ∧
    (1 ≤ calls is_select_likes tr ≤ 4)%nat ∧
    (calls is_add_like tr ≤ 3)%nat ∧ (calls is_select_item tr ≤ 3)%nat ∧
    pauses tr `prefix_of` [150; 200] ∧
    res ≠ Return Undefined ∧
    (res = Return Null →
       ∃ i, last tr = Some i ∧ (reports_liked i ∨ duplicate_failure i)) ∧
    (∀ row, res = Return (Item row) →
       ∃ tr0 a it,
         tr = tr0 ++ [AddLike contentItemId userIdentifier (Returned a);
                      SelectItem contentItemId (Returned it)] ∧
         rpc_error a = None ∧ fetchError it = None ∧ row = updatedItem it) ∧
    (∀ x, res = Throw x →
       calls is_add_like tr = 3%nat ∧ pauses tr = [150; 200] ∧
       ∃ i, last tr = Some i ∧ fails_with x i) ∧
    writes_are_checked tr.
Proof.
  unfold _internalLikeContentItem, try_catch, mbind, async_bind, bind.
  destruct (checkIfLiked_exchange be [] contentItemId userIdentifier)
    as (b & answer & -> & _ & Hb).
  set (check := SelectLikes contentItemId userIdentifier answer) in *.
  destruct b; cbv beta iota.
  { eexists _, _. split; [done|]. split_and!; try done; try (cbv; lia).
    - apply prefix_nil.
    - intros _. exists check. split; [done|]. left. by apply Hb.
    - by apply writes_are_checked_other. }
  destruct (retry_loop_cases (Z.to_nat maxRetries) 0 be ([] ++ [check])
              contentItemId userIdentifier)
    as (res & ext & -> & Hsl & Hadd & Hitem & Hp & Hundef & Hnull & Hrow & Hthrow & Hchk).
  exists res, ([check] ++ ext). split; [by destruct res|].
  change (Z.to_nat maxRetries) with 3%nat in *.
  change (backoff 0) with [150; 200] in *.
  rewrite !calls_app, pauses_app.
  change (calls is_select_likes [check]) with 1%nat.
  change (calls is_add_like [check]) with 0%nat.
  change (calls is_select_item [check]) with 0%nat.
  change (pauses [check]) with (@nil Z).
  split_and!; try done; try lia.
  - apply Hundef; [lia|]. unfold maxRetries. lia.
  - intros Hres. destruct (Hnull Hres) as (j & Hj & Hjl).
    exists j. split; [|done]. by rewrite last_app, Hj.
  - intros row Hres. destruct (Hrow row Hres) as (ext0 & a & it & -> & Hrest).
    exists ([check] ++ ext0), a, it. by rewrite <-!app_assoc.
  - intros x Hres.
    destruct (Hthrow x Hres) as (Hn & Hps & j & Hj & Hjf); [unfold maxRetries; lia|].
    unfold maxRetries in Hn. split_and!; [lia|done|].
    exists j. split; [|done]. by rewrite last_app, Hj.
  - apply writes_are_checked_app; [by apply writes_are_checked_other|done].
Qed.
End like_record_facts.

(** X9.  One call of [_internalLikeContentItem] talks to the backend a
    bounded number of times: between one and four reads of [user_likes],
    at most three calls of [add_like] (so at most three likes inserted),
    at most three reads of the updated row; and it pauses at most twice,
    for 150 ms and then for 200 ms. *)
Theorem like_call_budget be contentItemId userIdentifier :
  let tr := (Likes._internalLikeContentItem contentItemId userIdentifier be []).2 in
  (1 ≤ calls is_select_likes tr ≤ 4)%nat ∧
  (calls is_add_like tr ≤ 3)%nat ∧
  (calls is_select_item tr ≤ 3)%nat ∧
  (Likes.likes_inserted tr ≤ 3)%nat ∧
  pauses tr `prefix_of` [150; 200].
Proof.
  destruct (internalLikeContentItem_cases be contentItemId userIdentifier)
    as (res & tr & -> & Hsl & Hadd & Hitem & Hp & _).
  simpl. pose proof (likes_inserted_le tr). split_and!; try done; lia.
Qed.

(** X10.  The retry loop never falls through: [_internalLikeContentItem]
    does not resolve with [undefined]. *)
Theorem like_never_undefined be contentItemId userIdentifier :
  (Likes._internalLikeContentItem contentItemId userIdentifier be []).1
    ≠ Likes.Return Likes.Undefined.
Proof.
  destruct (internalLikeContentItem_cases be contentItemId userIdentifier)
    as (res & tr & -> & _ & _ & _ & _ & Hundef & _).
  done.
Qed.


(** X12.  [_internalLikeContentItem] rejects only when three attempts
    in a row have failed: it has then called [add_like] three times and
    paused for 150 ms and 200 ms, and what it rejects with is the failure
    of the last exchange. *)
Theorem like_rejects_after_three_failures be contentItemId userIdentifier x :
  let res := (Likes._internalLikeContentItem contentItemId userIdentifier be []).1 in
  let tr := (Likes._internalLikeContentItem contentItemId userIdentifier be []).2 in
  res = Likes.Throw x →
  calls is_add_like tr = 3%nat ∧ pauses tr = [150; 200] ∧
  ∃ i, last tr = Some i ∧ fails_with x i.
Proof.
  destruct (internalLikeContentItem_cases be contentItemId userIdentifier)
    as (res & tr & -> & _ & _ & _ & _ & _ & _ & _ & Hthrow & _).
  simpl. apply Hthrow.
Qed.

(** X13.  [_internalLikeContentItem] never calls [add_like] without
    having asked first: the exchange just before each call is a read of
    [user_likes] that did not report the item liked. *)
Theorem like_writes_are_checked be contentItemId userIdentifier :
  writes_are_checked (Likes._internalLikeContentItem contentItemId userIdentifier be []).2.
Proof.
  destruct (internalLikeContentItem_cases be contentItemId userIdentifier)
    as (res & tr & -> & _ & _ & _ & _ & _ & _ & _ & _ & Hchk).
  done.
Qed.


(** * The other database operations *)

Section db_facts.
Import Db.
Implicit Types (be : Env) (tr ext : list Exchange).

Lemma requests_app tr1 tr2 : requests (tr1 ++ tr2) = requests tr1 ++ requests tr2.
Proof. apply omap_app. Qed.

Lemma like_count_of_nonneg a : 0 ≤ like_count_of a.
Proof. unfold like_count_of. destruct (rows_error a), (rows a); lia. Qed.

(** [checkIfLiked], called from this module. *)
Lemma lift_checkIfLiked be tr contentItemId userIdentifier :
  ∃ b answer,
    lift (Likes.checkIfLiked contentItemId userIdentifier) be tr
      = (Likes.Return b, tr ++ [Like (Likes.SelectLikes contentItemId userIdentifier answer)]) ∧
    (b = true ↔ Likes.reports_liked (Likes.SelectLikes contentItemId userIdentifier answer)).
Proof.
  unfold lift.
  destruct (checkIfLiked_exchange (likes be tr) [] contentItemId userIdentifier)
    as (b & answer & -> & _ & Hb).
  by exists b, answer.
Qed.

(** The loop over the rows of [content_items]. *)
Lemma count_likes_run items acc be tr :
  ∃ res ext,
    count_likes items acc be tr = (res, tr ++ ext) ∧
    requests ext `prefix_of` ((λ item : Row, likes_of (item !! "id")) <$> items) ∧
    length ext = length (requests ext) ∧
    (∀ out, res = Likes.Return out →
       requests ext = (λ item : Row, likes_of (item !! "id")) <$> items ∧
       ∃ added, out = acc ++ added ∧ Forall2 counted items added) ∧
    (∀ x, res = Likes.Throw x → ∃ q, last ext = Some (Asked q (Likes.Threw x))).
Proof.
  revert acc tr. induction items as [|item items IH]; intros acc tr; simpl.
  { exists (Likes.Return acc), []. rewrite app_nil_r. split; [done|].
    split_and!; try done.
    intros out [= <-]. split; [done|]. exists []. by rewrite app_nil_r. }
  unfold mbind, promise_bind, after, ask, clock, time_of.
  destruct (answer_rows be tr (likes_of (item !! "id"))) as [a|x] eqn:Ha.
  - set (e := Asked _ _).
    destruct (IH (acc ++ [with_likes item (like_count_of a)
                            (age_seconds (date_now be (tr ++ [e]))
                               (getTime be (item !! "created_at")))])
                 (tr ++ [e]))
      as (res & ext & -> & Hpre & Hlen & Hret & Hthrow).
    exists res, (e :: ext). rewrite <-app_assoc. split; [done|].
    split_and!.
    + simpl. by apply prefix_cons.
    + simpl. by rewrite Hlen.
    + intros out Hres. destruct (Hret out Hres) as (Hreq & added & -> & Hall).
      split; [simpl; by rewrite Hreq|].
      eexists (_ :: added). rewrite <-app_assoc. split; [done|].
      apply Forall2_cons. split; [|done].
      eexists _, _. split; [|done]. apply like_count_of_nonneg.
    + intros x Hres. destruct (Hthrow x Hres) as (q & Hq). exists q.
      by rewrite last_cons, Hq.
  - eexists _, [_]. split; [done|]. split_and!; try done.
    + simpl. apply prefix_cons, prefix_nil.
    + intros y [= <-]. by eexists.
Qed.

(** X14.  [_internalUnlikeContentItem] asks before it deletes.  It makes
    the read of [checkIfLiked]; unless that read reported the item liked
    it resolves at once, without a request to delete (so also when the
    read failed); otherwise it sends one delete for this item and user,
    and rejects exactly when that request threw or answered with an
    error. *)
Theorem unlike_asks_before_it_deletes be contentItemId userIdentifier :
  let res := (_internalUnlikeContentItem contentItemId userIdentifier be []).1 in
  let tr := (_internalUnlikeContentItem contentItemId userIdentifier be []).2 in
  let delete := From "user_likes" Delete
                  [Eq "content_item_id" (text contentItemId);
                   Eq "user_identifier" (text userIdentifier)] in
  ∃ answer,
    let check := Like (Likes.SelectLikes contentItemId userIdentifier answer) in
    (¬ Db.read_liked check → res = Likes.Return () ∧ tr = [check]) ∧
    (Db.read_liked check →
     ∃ a, tr = [check; Asked delete a] ∧
       res = match a with
             | Likes.Returned r =>
                 match rows_error r with
                 | Some e => Likes.Throw (Likes.Failed e)
                 | None => Likes.Return ()
                 end
             | Likes.Threw x => Likes.Throw x
             end).
Proof.
  unfold _internalUnlikeContentItem, guarded, mbind, promise_bind, after.
  destruct (lift_checkIfLiked be [] contentItemId userIdentifier)
    as (b & answer & -> & Hb).
  exists answer. simpl. destruct b; simpl.
  - split; [intros Hneg; destruct Hneg; by apply Hb|]. intros _.
    unfold ask.
    destruct (answer_rows be _ _) as [r|x] eqn:Ha.
    + exists (Likes.Returned r). by destruct (rows_error r).
    + by exists (Likes.Threw x).
  - split; [done|]. intros Hl. by apply Hb in Hl.
Qed.

(** X15.  [_internalUpdateContentItem] sends one update of
    [content_items] for the given id, and restricts it to the rows of the
    author exactly when the caller is not logged in and gave an
    identifier that is not empty; a caller who is not logged in and gives
    none updates without that restriction. *)
Theorem update_checks_author_only_for_guests be itemId updates userIdentifier isLoggedIn :
  let tr := (_internalUpdateContentItem itemId updates userIdentifier isLoggedIn be []).2 in
  ∃ ms answer,
    tr = [AskedOne (From "content_items" (Update updates) (Eq "id" (text itemId) :: ms))
            answer] ∧
    ∀ v, Eq "user_identifier" v ∈ ms ↔
         isLoggedIn = false ∧ ∃ s, userIdentifier = Some s ∧ s ≠ EmptyString ∧ v = text s.
Proof.
  unfold _internalUpdateContentItem, guarded, mbind, promise_bind, after, ask_one.
  assert (∀ v, Eq "user_identifier" v ∈ [Returning; Single] ↔ False) as Hno.
  { intros v. rewrite !elem_of_cons, elem_of_nil. naive_solver. }
  destruct isLoggedIn; simpl.
  { destruct (answer_row be _ _) as [a|x]; [destruct (row_error a)|]; simpl;
      eexists _, _; (split; [done|]); intros v; rewrite Hno; naive_solver. }
  destruct userIdentifier as [s|]; simpl.
  2:{ destruct (answer_row be _ _) as [a|x]; [destruct (row_error a)|]; simpl;
        eexists _, _; (split; [done|]); intros v; rewrite Hno; naive_solver. }
  case_bool_decide as Hs; simpl.
  { destruct (answer_row be _ _) as [a|x]; [destruct (row_error a)|]; simpl;
      eexists _, _; (split; [done|]); intros v; rewrite Hno; naive_solver. }
  destruct (answer_row be _ _) as [a|x]; [destruct (row_error a)|]; simpl;
    eexists _, _; (split; [done|]); intros v;
    rewrite elem_of_cons, Hno; unfold text; naive_solver.
Qed.

(** What an update does: one request, and its answer decides. *)
Lemma update_run_cases be id updates userIdentifier isLoggedIn :
  let settles (run : Likes.Completion (option Row) * list Exchange) :=
    ∃ q answer,
      run.2 = [AskedOne q answer] ∧
      (∃ ms, modifiers q = ms ++ [Returning; Single]) ∧
      run.1 = match answer with
              | Likes.Returned a =>
                  match row_error a with
                  | Some e => Likes.Throw (Likes.Failed e)
                  | None => Likes.Return (row a)
                  end
              | Likes.Threw x => Likes.Throw x
              end in
  settles (_internalUpdateContentItem id updates userIdentifier isLoggedIn be []) ∧
  settles (_internalUpdateCategory id updates be []) ∧
  settles (_internalUpdateBoard id updates be []).
Proof.
  intros settles. subst settles. cbv beta.
  unfold _internalUpdateContentItem, _internalUpdateCategory, _internalUpdateBoard,
    guarded, mbind, promise_bind, after, ask_one.
  split_and!.
  - destruct (negb isLoggedIn && truthy userIdentifier); simpl;
      (destruct (answer_row be _ _) as [a|x]; [destruct (row_error a) eqn:He|]); simpl;
      eexists _, _; (split; [done|]); (split; [|simpl; by rewrite ?He]).
    all: first [by eexists [_; _] | by eexists [_]].
  - (destruct (answer_row be _ _) as [a|x]; [destruct (row_error a) eqn:He|]); simpl;
      eexists _, _; (split; [done|]); (split; [|simpl; by rewrite ?He]); by eexists [_].
  - (destruct (answer_row be _ _) as [a|x]; [destruct (row_error a) eqn:He|]); simpl;
      eexists _, _; (split; [done|]); (split; [|simpl; by rewrite ?He]); by eexists [_].
Qed.

(** What a listing does, for any two lists of columns. *)
Lemma items_with_likes_cases be viewColumns tableColumns boardId :
  let res := (items_with_likes viewColumns tableColumns boardId be []).1 in
  let tr := (items_with_likes viewColumns tableColumns boardId be []).2 in
  let filters := [Eq "board_id" (text boardId); Order "created_at" false] in
  let view := From "content_items_with_likes" (Select viewColumns) filters in
  let table := From "content_items" (Select tableColumns) filters in
  (∀ out, res = Likes.Return out →
     (∃ a, tr = [Asked view (Likes.Returned a)] ∧ rows_error a = None ∧
           out = default [] (rows a)) ∨
     (∃ a f ext,
        tr = Asked view (Likes.Returned a) :: Asked table (Likes.Returned f) :: ext ∧
        is_Some (rows_error a) ∧ rows_error f = None ∧
        length ext = length (default [] (rows f)) ∧
        requests ext = (λ item : Row, likes_of (item !! "id")) <$> default [] (rows f) ∧
        Forall2 counted (default [] (rows f)) out)) ∧
  (∀ x, res = Likes.Throw x →
     (∃ q, last tr = Some (Asked q (Likes.Threw x))) ∨
     (∃ f e, last tr = Some (Asked table (Likes.Returned f)) ∧
             rows_error f = Some e ∧ x = Likes.Failed e)).
Proof.
  unfold items_with_likes, guarded, mbind, promise_bind, after, ask. simpl.
  destruct (answer_rows be [] _) as [a|x] eqn:Ha; simpl.
  2:{ split; [done|]. intros y [= <-]. left. by eexists. }
  destruct (rows_error a) as [e|] eqn:He; simpl.
  2:{ split; [|done]. intros out [= <-]. left. by exists a. }
  destruct (answer_rows be [_] _) as [f|x] eqn:Hf; simpl.
  2:{ split; [done|]. intros y [= <-]. left. by eexists. }
  destruct (rows_error f) as [e'|] eqn:He'; simpl.
  { split; [done|]. intros y [= <-]. right. by exists f, e'. }
  set (tr0 := [Asked _ _; Asked _ _]).
  destruct (count_likes_run (default [] (rows f)) [] be tr0)
    as (res & ext & -> & Hpre & Hlen & Hret & Hthrow).
  destruct res as [out|x]; simpl; split; try done.
  - intros ? [= <-]. right. destruct (Hret out eq_refl) as (Hreq & added & -> & Hall).
    exists a, f, ext. split_and!; try done.
    rewrite Hlen, Hreq. by rewrite length_fmap.
  - intros ? [= <-]. left. destruct (Hthrow x eq_refl) as (q & Hq). exists q.
    subst tr0. simpl. by rewrite !last_cons, Hq.
Qed.

(** X17.  What [getContentItemsWithLikes] and [getContentItemsForBoard]
    return.  Either the view answered without an error, and the result is
    its rows after that one request; or the view answered with an error
    and [content_items] without one, and then one request for likes was
    sent for each row, in the order of the rows, and the result is those
    rows in that order, each with its two computed columns.  They reject
    only with what a request threw or with the error of
    [content_items]. *)
Theorem listing_falls_back_row_by_row be boardId :
  let tells (viewColumns tableColumns : string)
            (run : Likes.Completion (list Row) * list Exchange) :=
    let filters := [Eq "board_id" (text boardId); Order "created_at" false] in
    let view := From "content_items_with_likes" (Select viewColumns) filters in
    let table := From "content_items" (Select tableColumns) filters in
    (∀ out, run.1 = Likes.Return out →
       (∃ a, run.2 = [Asked view (Likes.Returned a)] ∧ rows_error a = None ∧
             out = default [] (rows a)) ∨
       (∃ a f ext,
          run.2 = Asked view (Likes.Returned a) :: Asked table (Likes.Returned f) :: ext ∧
          is_Some (rows_error a) ∧ rows_error f = None ∧
          length ext = length (default [] (rows f)) ∧
          requests ext = (λ item : Row, likes_of (item !! "id")) <$> default [] (rows f) ∧
          Forall2 counted (default [] (rows f)) out)) ∧
    (∀ x, run.1 = Likes.Throw x →
       (∃ q, last run.2 = Some (Asked q (Likes.Threw x))) ∨
       (∃ f e, last run.2 = Some (Asked table (Likes.Returned f)) ∧
               rows_error f = Some e ∧ x = Likes.Failed e)) in
  tells "*" "*" (getContentItemsWithLikes boardId be []) ∧
  tells (board_columns +:+ ", like_count, age_seconds") board_columns
    (getContentItemsForBoard boardId be []).
Proof.
  intros tells. subst tells. cbv beta zeta.
  unfold getContentItemsWithLikes, getContentItemsForBoard. split.
  - apply (items_with_likes_cases be "*" "*" boardId).
  - apply (items_with_likes_cases be (board_columns +:+ ", like_count, age_seconds")
             board_columns boardId).
Qed.


(** X19.  [cleanupInvalidLikes] never rejects, and it reports success
    whenever the request returned, also when the answer carries an
    error: it says [false] only when the request threw. *)
Theorem cleanup_reports_success_despite_error be contentItemId userIdentifier :
  let res := (cleanupInvalidLikes contentItemId userIdentifier be []).1 in
  let tr := (cleanupInvalidLikes contentItemId userIdentifier be []).2 in
  ∃ answer,
    tr = [Asked (From "user_likes" Delete
                   [Eq "content_item_id" (text contentItemId);
                    Eq "user_identifier" (text userIdentifier)]) answer] ∧
    res = Likes.Return (match answer with
                        | Likes.Returned _ => true
                        | Likes.Threw _ => false
                        end).
Proof.
  unfold cleanupInvalidLikes, guarded, mbind, promise_bind, after, ask. simpl.
  destruct (answer_rows be [] _) as [a|x]; simpl; by eexists.
Qed.

(** X20.  [refreshContentView] never rejects.  It says [true] exactly
    when the remote procedure answered without an error, or answered with
    one and the read of the view that follows answered without; it reads
    the view only after the procedure answered with an error. *)
Theorem refresh_tries_the_view_second be :
  let res := (refreshContentView be []).1 in
  let tr := (refreshContentView be []).2 in
  let rpc := Rpc "refresh_content_view" in
  let view := From "content_items_with_likes" (Select "count(*)") [Limit 1] in
  (∃ b, res = Likes.Return b) ∧
  (res = Likes.Return true ↔
     (∃ d, tr = [Asked rpc (Likes.Returned d)] ∧ rows_error d = None) ∨
     (∃ d m, tr = [Asked rpc (Likes.Returned d); Asked view (Likes.Returned m)] ∧
             is_Some (rows_error d) ∧ rows_error m = None)) ∧
  (∀ d, head tr = Some (Asked rpc (Likes.Returned d)) → rows_error d = None →
        length tr = 1%nat).
Proof.
  unfold refreshContentView, guarded, mbind, promise_bind, after, ask, pure. simpl.
  destruct (answer_rows be [] _) as [d|x] eqn:Hd; simpl.
  2:{ split_and!; [by eexists| |done]. split; [done|]. intros [(? & ? & _)|(? & ? & ? & _)]; done. }
  destruct (rows_error d) as [e|] eqn:He; simpl.
  2:{ split_and!; [by eexists| |done]. split; [|done]. intros _. left. by exists d. }
  destruct (answer_rows be [_] _) as [m|x] eqn:Hm; simpl.
  2:{ split_and!; [by eexists| |].
      - split; [done|]. intros [(? & ? & _)|(? & ? & ? & _)]; done.
      - intros d' [= <-]. by rewrite He. }
  destruct (rows_error m) as [e'|] eqn:He'; simpl.
  - split_and!; [by eexists| |].
    + split; [done|]. intros [(? & ? & _)|(? & ? & [= <- <-] & _ & Hm')]; [done|].
      by rewrite He' in Hm'.
    + intros d' [= <-]. by rewrite He.
  - split_and!; [by eexists| |].
    + split; [|done]. intros _. right. exists d, m. by rewrite He.
    + intros d' [= <-]. by rewrite He.
Qed.

(** X21.  The two development helpers never reject, and outside
    development they send nothing.  In development
    [testSupabaseConnection] sends one request and says [true] exactly
    when it came back without an error; [checkTablesExist] sends three,
    to [content_items], [user_likes] and [content_items_with_likes] in
    this order, whatever the answers are. *)
Theorem development_helpers_never_reject be development :
  let test := testSupabaseConnection development be [] in
  let check := checkTablesExist development be [] in
  (∃ b, test.1 = Likes.Return b) ∧
  check.1 = Likes.Return () ∧
  (development = false → test = (Likes.Return true, []) ∧ check.2 = []) ∧
  (development = true →
     (∃ answer,
        test.2 = [Asked (From "content_items" (Select "count") [Limit 1]) answer] ∧
        (test.1 = Likes.Return true ↔
         ∃ a, answer = Likes.Returned a ∧ rows_error a = None)) ∧
     requests check.2
       = [From "content_items" (Select "id") [Limit 1];
          From "user_likes" (Select "id") [Limit 1];
          From "content_items_with_likes" (Select "id") [Limit 1]]).
Proof.
  destruct development; simpl.
  2:{ split_and!; try done. by eexists. }
  unfold testSupabaseConnection, checkTablesExist, probe, guarded, mbind, promise_bind, after,
    ask, pure. simpl.
  split_and!.
  - destruct (answer_rows be [] _) as [a|x]; simpl; [destruct (rows_error a)|]; by eexists.
  - repeat (match goal with
            | |- context [answer_rows be ?tr ?q] => destruct (answer_rows be tr q); simpl
            end); done.
  - done.
  - intros _. split.
    + destruct (answer_rows be [] _) as [a|x] eqn:Ha; simpl.
      * destruct (rows_error a) as [e|] eqn:He; simpl; eexists; (split; [done|]).
        -- split; [done|]. intros (a' & [= <-] & He'). by rewrite He in He'.
        -- split; [|done]. intros _. by exists a.
      * eexists. split; [done|]. split; [done|]. by intros (? & ? & _).
    + repeat (match goal with
              | |- context [answer_rows be ?tr ?q] => destruct (answer_rows be tr q); simpl
              end); done.
Qed.
End db_facts.

(** * The like button *)

Section button_facts.
Import LikeButton.
Implicit Types (s : State).



(** X24.  However the request ends, the button is enabled again: the
    handler clears [isLoading] at once and [isProcessing] 100 ms later.
    Taking a like back never makes the count negative. *)
Theorem button_is_enabled_again s s' onLikeChange likeSettled unlikeSettled :
  let liked := resume_like s onLikeChange likeSettled in
  let unliked := resume_unlike s onLikeChange unlikeSettled in
  later liked = [(100, SetIsProcessing false)] ∧
  later unliked = [(100, SetIsProcessing false)] ∧
  isLoading (render s' (updates liked)) = false ∧
  isLoading (render s' (updates unliked)) = false ∧
  click (settle_down s' liked) ≠ None ∧
  click (settle_down s' unliked) ≠ None ∧
  (isLiked s = true → 0 ≤ likeCount (settle_down s' unliked)).
Proof.
  intros liked unliked. subst liked unliked.
  destruct likeSettled as [[| |[row|]]|r], unlikeSettled as [[]|r'];
    unfold resume_like, resume_unlike, on_error, settle_down, click;
    destruct (isLiked s); simpl; split_and!; try done; try lia.
Qed.

(** X25.  A refresh of the count that answers with an error shows zero
    likes; one that throws, that comes back after the component was
    unmounted, or that belongs to a render in which a request was being
    processed leaves the state as it is; otherwise the count becomes the
    number of rows returned. *)
Theorem refresh_shows_zero_on_error isMounted s s' answer :
  let after := render s' (refreshLikeCount isMounted s answer) in
  isLiked after = isLiked s' ∧ isLoading after = isLoading s' ∧
  isProcessing after = isProcessing s' ∧
  likeCount after
    = match answer with
      | Likes.Returned a =>
          if isMounted && negb (isProcessing s) then
            match Db.rows_error a with
            | Some _ => 0
            | None => Z.of_nat (length (default [] (Db.rows a)))
            end
          else likeCount s'
      | Likes.Threw _ => likeCount s'
      end ∧
  (0 ≤ likeCount s' → 0 ≤ likeCount after).
Proof.
  unfold refreshLikeCount. destruct answer as [a|x]; [|done].
  destruct isMounted; [|done]. destruct (isProcessing s); [done|]. simpl.
  pose proof (like_count_of_nonneg a) as Hpos.
  assert (Db.like_count_of a
          = match Db.rows_error a with
            | Some _ => 0
            | None => Z.of_nat (length (default [] (Db.rows a)))
            end) as Hcount.
  { unfold Db.like_count_of. by destruct (Db.rows_error a), (Db.rows a). }
  rewrite <-Hcount. split_and!; try done; by case_bool_decide.
Qed.

(** X26.  The first effect sets the heart to what [checkIfLiked] says,
    after one read; it asks nothing and sets nothing when the item id or
    the user identifier is empty, and it never rejects. *)
Theorem heart_starts_as_the_read_says be contentItemId userIdentifier :
  let res := (initializeLikeStatus contentItemId userIdentifier be []).1 in
  let tr := (initializeLikeStatus contentItemId userIdentifier be []).2 in
  (contentItemId = EmptyString ∨ userIdentifier = EmptyString →
   res = Likes.Return [] ∧ tr = []) ∧
  (contentItemId ≠ EmptyString → userIdentifier ≠ EmptyString →
   ∃ liked i,
     res = Likes.Return [SetIsLiked liked] ∧ tr = [i] ∧
     (liked = true ↔ Likes.reports_liked i)).
Proof.
  unfold initializeLikeStatus, nonempty. split.
  - intros [->| ->]; [done|]. by rewrite andb_false_r.
  - intros Hc Hu. rewrite !bool_decide_eq_false_2 by done. simpl.
    unfold Likes.try_catch, Likes.bind.
    destruct (checkIfLiked_exchange be [] contentItemId userIdentifier)
      as (b & answer & -> & _ & Hb).
    simpl. by eexists _, _.
Qed.
End button_facts.

(** * From the click to the heart *)

Section end_to_end.
Import LikeButton.

Lemma settlement_of_outcome {A} (c : Likes.Completion A) :
  match Likes.outcome c with
  | inl v => Resolved v
  | inr x => Rejected (OperationError x)
  end = settlement_of c.
Proof. by destruct c. Qed.

(** X27.  A click on the heart of an item not shown as liked, when the
    queue has a slot free: [likeContentItem] runs
    [_internalLikeContentItem] at once, and the promise is settled with
    what it returned or threw.  Afterwards the heart is shown exactly when
    the operation returned a row or threw: a failure shows the heart
    although nothing is known to be stored, and [null] (the item was
    liked already) leaves it off.  The button is enabled again. *)
Theorem like_click_end_to_end evs w s be contentItemId userIdentifier suffix dateNow
    onLikeChange :
  run source_config evs init_world = Some w →
  NoDup (enqueue_ids evs) →
  make_id like suffix ∉ enqueue_ids evs →
  queue w = [] → processing w < 3 →
  isLiked s = false → isLoading s = false → isProcessing s = false →
  let res := (Likes._internalLikeContentItem contentItemId userIdentifier be []).1 in
  ∃ ups w2,
    click s = Some (ups, LikeContentItem) ∧
    run source_config [OperationSettles (nextPromise w) (Likes.outcome res)]
      (likeContentItem suffix dateNow w) = Some w2 ∧
    settled w2 = settled w ++ [(nextPromise w, settlement_of res)] ∧
    let after := settle_down (render s ups)
                   (resume_like s onLikeChange (settlement_of res)) in
    (isLiked after = true ↔
       (∃ row, res = Likes.Return (Likes.Item (Some row))) ∨ ∃ x, res = Likes.Throw x) ∧
    isLoading after = false ∧ isProcessing after = false.
Proof.
  intros Hrun Hnd Hfresh Hq Hlt Hliked Hloading Hproc res.
  destruct (free_slot_call_settles source_config evs w like suffix dateNow
              (Likes.outcome res) Hrun Hnd Hfresh Hq Hlt) as (w2 & Hrun2 & Hs2 & _).
  rewrite settlement_of_outcome in Hs2.
  exists [SetIsLoading true; SetIsProcessing true], w2.
  split_and!; [|done|done|].
  { unfold click. by rewrite Hloading, Hproc, Hliked. }
  destruct (internalLikeContentItem_cases be contentItemId userIdentifier)
    as (res' & tr & Heq & _ & _ & _ & _ & Hundef & _).
  assert (res = res') as Hres by (subst res; by rewrite Heq).
  rewrite <-Hres in Hundef. clear Heq Hres.
  destruct res as [[| |[row|]]|x]; simpl; unfold on_error; rewrite ?Hliked; simpl.
  - split_and!; try done. split; [done|]. by intros [(? & ?)|(? & ?)].
  - done.
  - split_and!; try done. split; [|done]. intros _. left. by eexists.
  - split_and!; try done. split; [done|]. by intros [(? & ?)|(? & ?)].
  - split_and!; try done. split; [|done]. intros _. right. by eexists.
Qed.

(** X28.  A click on the heart of an item shown as liked, when the queue
    has a slot free: [unlikeContentItem] runs
    [_internalUnlikeContentItem] at once, and the promise is settled with
    how it ended.  Whatever that is (also when the like could not be read
    and nothing was deleted, or the delete failed) the heart is taken
    off and the count goes down by one, not below zero.  The button is
    enabled again. *)
Theorem unlike_click_end_to_end evs w s be contentItemId userIdentifier suffix dateNow
    onLikeChange :
  run source_config evs init_world = Some w →
  NoDup (enqueue_ids evs) →
  make_id unlike suffix ∉ enqueue_ids evs →
  queue w = [] → processing w < 3 →
  isLiked s = true → isLoading s = false → isProcessing s = false →
  let res := (Db._internalUnlikeContentItem contentItemId userIdentifier be []).1 in
  ∃ ups w2,
    click s = Some (ups, UnlikeContentItem) ∧
    run source_config [OperationSettles (nextPromise w) (Likes.outcome res)]
      (unlikeContentItem suffix dateNow w) = Some w2 ∧
    settled w2 = settled w ++ [(nextPromise w, settlement_of res)] ∧
    let after := settle_down (render s ups)
                   (resume_unlike s onLikeChange (settlement_of res)) in
    isLiked after = false ∧ likeCount after = Z.max 0 (likeCount s - 1) ∧
    isLoading after = false ∧ isProcessing after = false.
Proof.
  intros Hrun Hnd Hfresh Hq Hlt Hliked Hloading Hproc res.
  destruct (free_slot_call_settles source_config evs w unlike suffix dateNow
              (Likes.outcome res) Hrun Hnd Hfresh Hq Hlt) as (w2 & Hrun2 & Hs2 & _).
  rewrite settlement_of_outcome in Hs2.
  exists [SetIsLoading true; SetIsProcessing true], w2.
  split_and!; [|done|done|].
  { unfold click. by rewrite Hloading, Hproc, Hliked. }
  destruct res as [[]|x]; simpl; unfold on_error; rewrite ?Hliked; simpl; done.
Qed.

(** X16.  The three exported updates, when the queue has a slot free:
    each sends its one request at once, ended with [.select().single()],
    and its promise is resolved with the row of the answer when the
    answer has no error, and rejected with the error of the answer, or
    with what the request threw, otherwise.  Nothing is tried again. *)
Theorem update_promise_reports_the_answer evs w be id updates userIdentifier isLoggedIn
    suffix dateNow :
  run source_config evs init_world = Some w →
  NoDup (enqueue_ids evs) →
  (∀ ty, make_id ty suffix ∉ enqueue_ids evs) →
  queue w = [] → processing w < 3 →
  let reports (w1 : World (option Db.Row) Likes.Thrown)
              (op : Likes.Completion (option Db.Row) * list Db.Exchange) :=
    ∃ q answer w2,
      op.2 = [Db.AskedOne q answer] ∧
      (∃ ms, Db.modifiers q = ms ++ [Db.Returning; Db.Single]) ∧
      run source_config [OperationSettles (nextPromise w) (Likes.outcome op.1)] w1
        = Some w2 ∧
      settled w2 = settled w ++
        [(nextPromise w,
          match answer with
          | Likes.Returned a =>
              match Db.row_error a with
              | Some e => Rejected (OperationError (Likes.Failed e))
              | None => Resolved (Db.row a)
              end
          | Likes.Threw x => Rejected (OperationError x)
          end)] in
  reports (updateContentItem suffix dateNow w)
    (Db._internalUpdateContentItem id updates userIdentifier isLoggedIn be []) ∧
  reports (updateCategory suffix dateNow w) (Db._internalUpdateCategory id updates be []) ∧
  reports (updateBoard suffix dateNow w) (Db._internalUpdateBoard id updates be []).
Proof.
  intros Hrun Hnd Hfresh Hq Hlt reports. subst reports. cbv beta.
  assert (∀ ty (op : Likes.Completion (option Db.Row) * list Db.Exchange) q answer,
            op.2 = [Db.AskedOne q answer] →
            (∃ ms, Db.modifiers q = ms ++ [Db.Returning; Db.Single]) →
            op.1 = match answer with
                   | Likes.Returned a =>
                       match Db.row_error a with
                       | Some e => Likes.Throw (Likes.Failed e)
                       | None => Likes.Return (Db.row a)
                       end
                   | Likes.Threw x => Likes.Throw x
                   end →
            ∃ q answer w2,
              op.2 = [Db.AskedOne q answer] ∧
              (∃ ms, Db.modifiers q = ms ++ [Db.Returning; Db.Single]) ∧
              run source_config [OperationSettles (nextPromise w) (Likes.outcome op.1)]
                (enqueue source_config ty OpAsync suffix dateNow w) = Some w2 ∧
              settled w2 = settled w ++
                [(nextPromise w,
                  match answer with
                  | Likes.Returned a =>
                      match Db.row_error a with
                      | Some e => Rejected (OperationError (Likes.Failed e))
                      | None => Resolved (Db.row a)
                      end
                  | Likes.Threw x => Rejected (OperationError x)
                  end)]) as Hgen.
  { intros ty op q answer Htr Hms Hres.
    destruct (free_slot_call_settles source_config evs w ty suffix dateNow
                (Likes.outcome op.1) Hrun Hnd (Hfresh ty) Hq Hlt) as (w2 & Hrun2 & Hs2 & _).
    exists q, answer, w2. split_and!; [done..|].
    rewrite Hs2, Hres. by destruct answer as [a|x]; [destruct (Db.row_error a)|]. }
  destruct (update_run_cases be id updates userIdentifier isLoggedIn)
    as ((q1 & a1 & Htr1 & Hms1 & Hres1) & (q2 & a2 & Htr2 & Hms2 & Hres2)
        & (q3 & a3 & Htr3 & Hms3 & Hres3)).
  split_and!.
  - by apply (Hgen content_update _ q1 a1).
  - by apply (Hgen category_update _ q2 a2).
  - by apply (Hgen board_update _ q3 a3).
Qed.
End end_to_end.

(** * The further theorems at work *)

Lemma no_idle_slot_while_pending_witness :
  ∃ w : World unit unit,
    run example_config (@ten_submissions unit unit ++ [OperationSettles 0%nat (inl ())])
      init_world = Some w ∧
    processing w = 2 ∧ ticks w = 1%nat ∧
    MAX_CONCURRENT example_config ≤ processing w + Z.of_nat (ticks w).
Proof.
  eexists. split; [vm_compute; reflexivity|].
  split; [vm_compute; reflexivity|]. split; [vm_compute; reflexivity|].
  apply (no_idle_slot_while_pending example_config
           (@ten_submissions unit unit ++ [OperationSettles 0%nat (inl ())]));
    [vm_compute; reflexivity|apply ids_distinct; vm_compute; reflexivity|].
  intros Hq. vm_compute in Hq. discriminate Hq.
Defined.

Lemma overflow_needs_a_full_house_witness :
  ∃ w : World unit unit,
    run example_config (@ten_submissions unit unit) init_world = Some w ∧
    (queue w ≠ [] → MAX_CONCURRENT example_config ≤ Z.of_nat (length (started w))) ∧
    (overflowed w ≠ [] →
     Z.of_nat (length (overflowed w)) + MAX_CONCURRENT example_config
       + MAX_QUEUE_SIZE example_config
       ≤ Z.of_nat (length (enqueue_ids (@ten_submissions unit unit)))) ∧
    (length (queue w) + length (started w) + length (overflowed w)
       ≤ length (enqueue_ids (@ten_submissions unit unit)))%nat.
Proof.
  eexists. split; [vm_compute; reflexivity|].
  apply (overflow_needs_a_full_house example_config (@ten_submissions unit unit)).
  vm_compute; reflexivity.
Defined.

Lemma settlement_reports_operation_witness :
  ∃ w : World unit unit,
    run source_config (@three_in_turn unit unit ()) init_world = Some w ∧
    (∀ v, (1%nat, Resolved v) ∈ settled w ↔
          OperationSettles 1%nat (inl v) ∈ @three_in_turn unit unit ()).
Proof.
  eexists. split; [vm_compute; reflexivity|].
  destruct (settlement_reports_operation source_config (@three_in_turn unit unit ()) _ 1%nat
              ltac:(vm_compute; reflexivity)) as (Hres & _).
  exact Hres.
Defined.

Lemma removeFromQueue_takes_out_one_witness :
  ∃ w : World unit unit,
    run example_config (@ten_submissions unit unit) init_world = Some w ∧
    promise <$> queue w = [5; 6; 7; 8; 9]%nat ∧
    promise <$> queue (removeFromQueue "like_7" w) = [5; 6; 8; 9]%nat ∧
    queue (removeFromQueue "like_7" w) = filter (λ r, id r ≠ "like_7") (queue w).
Proof.
  eexists. split; [vm_compute; reflexivity|].
  split; [vm_compute; reflexivity|]. split; [vm_compute; reflexivity|].
  refine (proj1 (removeFromQueue_takes_out_one "like_7" _ _)).
  apply ids_distinct. vm_compute. reflexivity.
Defined.

Lemma make_id_injective_witness :
  make_id content_update "1700000000000_k3j9x0a1b" = "content_update_1700000000000_k3j9x0a1b" ∧
  (content_update = content_update ∧
   "1700000000000_k3j9x0a1b" = "1700000000000_k3j9x0a1b").
Proof.
  split; [reflexivity|].
  apply (make_id_injective content_update "1700000000000_k3j9x0a1b"
           content_update "1700000000000_k3j9x0a1b").
  reflexivity.
Defined.

Lemma free_slot_starts_at_once_witness :
  let r := new_request like OpAsync "a" 7 (@init_world unit unit) in
  let w' := enqueue source_config like OpAsync "a" 7 (@init_world unit unit) in
  queue w' = [] ∧ running w' = [r] ∧ started w' = [r] ∧ processing w' = 1 ∧
  timers w' = ∅ ∧ settled w' = [].
Proof.
  apply (free_slot_starts_at_once source_config [] (@init_world unit unit) like "a" 7);
    [reflexivity|apply NoDup_nil_2|reflexivity|simpl; lia].
Defined.

Lemma synchronous_throw_rejects_witness :
  let r := new_request like (OpThrows ()) "a" 7 (@init_world unit unit) in
  let w' := enqueue source_config like (OpThrows ()) "a" 7 (@init_world unit unit) in
  queue w' = [] ∧ running w' = [] ∧ started w' = [r] ∧ processing w' = 0 ∧
  settled w' = [(0%nat, Rejected (OperationError ()))] ∧
  timers w' = <[2%nat := {| armed_at := 0; delay := 0; callback := ProcessCb |}]> ∅.
Proof.
  apply (synchronous_throw_rejects source_config [] (@init_world unit unit) like () "a" 7);
    [reflexivity|apply NoDup_nil_2|reflexivity|simpl; lia].
Defined.


Lemma like_rejects_after_three_failures_witness :
  (Likes._internalLikeContentItem "item" "user" add_like_down []).1
    = Likes.Throw (Likes.Exception "network") ∧
  calls is_add_like (Likes._internalLikeContentItem "item" "user" add_like_down []).2
    = 3%nat ∧
  pauses (Likes._internalLikeContentItem "item" "user" add_like_down []).2 = [150; 200] ∧
  ∃ i, last (Likes._internalLikeContentItem "item" "user" add_like_down []).2 = Some i ∧
       fails_with (Likes.Exception "network") i.
Proof.
  split; [vm_compute; reflexivity|].
  apply (like_rejects_after_three_failures add_like_down "item" "user"
           (Likes.Exception "network")).
  vm_compute. reflexivity.
Defined.

Lemma like_click_end_to_end_witness :
  let s := {| LikeButton.isLiked := false; LikeButton.likeCount := 4;
              LikeButton.isLoading := false; LikeButton.isProcessing := false |} in
  let res := (Likes._internalLikeContentItem "item" "user" add_like_down []).1 in
  res = Likes.Throw (Likes.Exception "network") ∧
  ∃ ups w2,
    LikeButton.click s = Some (ups, LikeButton.LikeContentItem) ∧
    run source_config [OperationSettles 0%nat (Likes.outcome res)]
      (likeContentItem "1" 0 init_world) = Some w2 ∧
    settled w2 = [] ++ [(0%nat, settlement_of res)] ∧
    let after := LikeButton.settle_down (LikeButton.render s ups)
                   (LikeButton.resume_like s false (settlement_of res)) in
    (LikeButton.isLiked after = true ↔
       (∃ row, res = Likes.Return (Likes.Item (Some row))) ∨ ∃ x, res = Likes.Throw x) ∧
    LikeButton.isLoading after = false ∧ LikeButton.isProcessing after = false.
Proof.
  intros s res. split; [vm_compute; reflexivity|].
  apply (like_click_end_to_end [] init_world s add_like_down "item" "user" "1" 0 false);
    [reflexivity|apply NoDup_nil_2|apply not_elem_of_nil|reflexivity|simpl; lia
    |reflexivity|reflexivity|reflexivity].
Defined.

Lemma unlike_click_end_to_end_witness :
  let s := {| LikeButton.isLiked := true; LikeButton.likeCount := 0;
              LikeButton.isLoading := false; LikeButton.isProcessing := false |} in
  let res := (Db._internalUnlikeContentItem "item" "user" offline []).1 in
  (Db._internalUnlikeContentItem "item" "user" offline []).2
    = [Db.Like (Likes.SelectLikes "item" "user"
                  (Likes.Returned {| Likes.data := Some []; Likes.error := None;
                                     Likes.count := Some 0 |}))] ∧
  ∃ ups w2,
    LikeButton.click s = Some (ups, LikeButton.UnlikeContentItem) ∧
    run source_config [OperationSettles 0%nat (Likes.outcome res)]
      (unlikeContentItem "1" 0 init_world) = Some w2 ∧
    settled w2 = [] ++ [(0%nat, settlement_of res)] ∧
    let after := LikeButton.settle_down (LikeButton.render s ups)
                   (LikeButton.resume_unlike s false (settlement_of res)) in
    LikeButton.isLiked after = false ∧ LikeButton.likeCount after = Z.max 0 (0 - 1) ∧
    LikeButton.isLoading after = false ∧ LikeButton.isProcessing after = false.
Proof.
  intros s res. split; [vm_compute; reflexivity|].
  apply (unlike_click_end_to_end [] init_world s offline "item" "user" "1" 0 false);
    [reflexivity|apply NoDup_nil_2|apply not_elem_of_nil|reflexivity|simpl; lia
    |reflexivity|reflexivity|reflexivity].
Defined.

Lemma update_promise_reports_the_answer_witness :
  ∃ q answer w2,
    (Db._internalUpdateCategory "c1" ∅ offline []).2 = [Db.AskedOne q answer] ∧
    (∃ ms, Db.modifiers q = ms ++ [Db.Returning; Db.Single]) ∧
    run source_config
      [OperationSettles 0%nat
         (Likes.outcome (Db._internalUpdateCategory "c1" ∅ offline []).1)]
      (updateCategory "1" 0 init_world) = Some w2 ∧
    settled w2 = [] ++
      [(0%nat,
        match answer with
        | Likes.Returned a =>
            match Db.row_error a with
            | Some e => Rejected (OperationError (Likes.Failed e))
            | None => Resolved (Db.row a)
            end
        | Likes.Threw x => Rejected (OperationError x)
        end)].
Proof.
  refine (proj1 (proj2 (update_promise_reports_the_answer [] init_world offline "c1" ∅ None
                          false "1" 0 _ _ _ _ _)));
    [reflexivity|apply NoDup_nil_2|intros ty; apply not_elem_of_nil|reflexivity|simpl; lia].
Defined.

Lemma listing_falls_back_row_by_row_witness :
  let out := [Db.with_likes {[ "id" := Db.JStr "a"; "title" := Db.JStr "first" ]} 2
                (Db.JNum 4);
              Db.with_likes {[ "id" := Db.JStr "b"; "title" := Db.JStr "second" ]} 0
                (Db.JNum 4)] in
  (Db.getContentItemsWithLikes "board" view_missing []).1 = Likes.Return out ∧
  Db.requests (Db.getContentItemsWithLikes "board" view_missing []).2
    = [Db.From "content_items_with_likes" (Db.Select "*")
         [Db.Eq "board_id" (Db.text "board"); Db.Order "created_at" false];
       Db.From "content_items" (Db.Select "*")
         [Db.Eq "board_id" (Db.text "board"); Db.Order "created_at" false];
       Db.likes_of (Db.text "a"); Db.likes_of (Db.text "b")] ∧
  ∃ rows, length rows = 2%nat ∧ Forall2 Db.counted rows out.
Proof.
  intros out.
  assert ((Db.getContentItemsWithLikes "board" view_missing []).1 = Likes.Return out)
    as Hout by (vm_compute; reflexivity).
  assert (length (Db.getContentItemsWithLikes "board" view_missing []).2 = 4%nat)
    as Hfour by (vm_compute; reflexivity).
  split; [exact Hout|]. split; [vm_compute; reflexivity|].
  destruct (listing_falls_back_row_by_row view_missing "board") as [[Hret _] _].
  destruct (Hret out Hout)
    as [(a & Htr & _)|(a & f & ext & Htr & _ & _ & Hlen & _ & Hall)].
  - rewrite Htr in Hfour. discriminate Hfour.
  - exists (default [] (Db.rows f)). split; [|exact Hall].
    rewrite Htr in Hfour. simpl in Hfour. lia.
Defined.
